(** * pintui (Go implementation): formatting, messages and progress

    A shallow embedding of [go/format.go], [go/messages.go], [go/layout.go] and
    [go/progress.go], together with the parts of the Go runtime and of the
    third-party packages those files call ([strings], [strconv], [fmt],
    [time], fatih/color, briandowns/spinner, schollz/progressbar), and the
    properties of the design specification stated over them.

    Go strings are byte sequences: they are modelled as [string], whose
    characters are the 8-bit [ascii] values.  Machine integers are [Z]
    together with their range; [float64] values are modelled by their exact
    dyadic value, every arithmetic operation being the exact rational result
    followed by IEEE 754 round-to-nearest-even. *)

From Stdlib Require Import ZArith List String Ascii Bool Lia DecimalString.
From Stdlib Require Import DecimalPos.
Import ListNotations.

Local Open Scope string_scope.
Local Open Scope Z_scope.

(* ===================================================================== *)
(** * Bytes and strings *)
(* ===================================================================== *)

Module GoInt.

(** Go's [int] on a 64-bit platform: the largest value, and the
    wrap-around of its arithmetic. *)
Definition maxInt : Z := 2 ^ 63 - 1.

Definition wrap (z : Z) : Z := (z + 2 ^ 63) mod 2 ^ 64 - 2 ^ 63.

End GoInt.

Module GoString.

(** [len(s)] as a Go [int]. *)
Definition len (s : string) : Z := Z.of_nat (String.length s).

(** [s[n:]] on naturals. *)
Fixpoint drop (n : nat) (s : string) : string :=
  match n, s with
  | O, _ => s
  | S _, EmptyString => EmptyString
  | S k, String _ t => drop k t
  end.

(** [s[:n]] on naturals. *)
Fixpoint take (n : nat) (s : string) : string :=
  match n, s with
  | O, _ => EmptyString
  | S _, EmptyString => EmptyString
  | S k, String c t => String c (take k t)
  end.

(** The slice [s[i:]] for a Go [int] index; the caller guarantees
    [0 <= i <= len(s)] (Go panics otherwise). *)
Definition slice_from (s : string) (i : Z) : string := drop (Z.to_nat i) s.

Definition code (c : ascii) : Z := Z.of_nat (nat_of_ascii c).

(** 7-bit bytes: on such input the Unicode-aware functions of package
    [strings] reduce to their byte-wise fast paths. *)
Definition is_ascii_byte (c : ascii) : bool := code c <? 128.

Fixpoint is_ascii (s : string) : bool :=
  match s with
  | EmptyString => true
  | String c t => is_ascii_byte c && is_ascii t
  end.

(** [strings.ToUpper], ASCII fast path: ['a'..'z'] lose [0x20]. *)
Definition upper_byte (c : ascii) : ascii :=
  if (97 <=? code c) && (code c <=? 122)
  then ascii_of_nat (nat_of_ascii c - 32) else c.

Fixpoint ToUpper (s : string) : string :=
  match s with
  | EmptyString => EmptyString
  | String c t => String (upper_byte c) (ToUpper t)
  end.

(** [strings.TrimSpace], ASCII fast path: the table [asciiSpace] holds
    ['\t'], ['\n'], ['\v'], ['\f'], ['\r'] and [' ']. *)
Definition is_space (c : ascii) : bool :=
  ((9 <=? code c) && (code c <=? 13)) || (code c =? 32).

Fixpoint trim_left (s : string) : string :=
  match s with
  | EmptyString => EmptyString
  | String c t => if is_space c then trim_left t else s
  end.

(** Trailing white space, folding from the right: a character is dropped
    when it is a space and everything after it was dropped. *)
Fixpoint trim_right (s : string) : string :=
  match s with
  | EmptyString => EmptyString
  | String c t =>
      match trim_right t with
      | EmptyString => if is_space c then EmptyString else String c EmptyString
      | r => String c r
      end
  end.

Definition TrimSpace (s : string) : string := trim_right (trim_left s).

(** [strings.HasSuffix]:
    [len(s) >= len(suffix) && s[len(s)-len(suffix):] == suffix]. *)
Definition HasSuffix (s suffix : string) : bool :=
  (String.length suffix <=? String.length s)%nat
  && String.eqb (drop (String.length s - String.length suffix) s) suffix.

(** [strings.TrimSuffix]. *)
Definition TrimSuffix (s suffix : string) : string :=
  if HasSuffix s suffix
  then take (String.length s - String.length suffix) s
  else s.

(** [s] written [n] times, one after the other. *)
Fixpoint replicate (s : string) (n : nat) : string :=
  match n with
  | O => EmptyString
  | S k => s ++ replicate s k
  end.

(** [strings.Repeat(s, count)]: the counts 0 and 1 return at once; a
    negative count panics, and so does a result whose length overflows
    [int]; [None] stands for the panic. *)
Definition Repeat (s : string) (count : Z) : option string :=
  if count =? 0 then Some EmptyString
  else if count =? 1 then Some s
  else if count <? 0 then None
  else if GoInt.maxInt <? len s * count then None
  else Some (replicate s (Z.to_nat count)).

End GoString.

(* ===================================================================== *)
(** * Package fmt: the verbs the program uses *)
(* ===================================================================== *)

Module Fmt.

(** [%d] on any integer type: an optional minus sign and the decimal
    digits without leading zeros. *)
Definition d (z : Z) : string := NilZero.string_of_int (Z.to_int z).

Definition digit (k : Z) : string :=
  String (ascii_of_nat (48 + Z.to_nat k)) EmptyString.

(** The [p] low decimal digits of [n], most significant first. *)
Fixpoint digits (p : nat) (n : Z) : string :=
  match p with
  | O => EmptyString
  | S k => digits k (n / 10) ++ digit (n mod 10)
  end.

End Fmt.

(* ===================================================================== *)
(** * float64 *)
(* ===================================================================== *)

Module Float64.

(** A [float64] is not-a-number, an infinity, or the finite value
    [m * 2^e].  The sign of a zero is not kept: no operation of the
    program can observe it. *)
Inductive float64 : Type :=
| NaN
| Inf (neg : bool)
| Fin (m e : Z).

Definition mant_bits : Z := 53.
Definition emin : Z := -1074.
(** Finite values lie strictly below [2^1024] in magnitude. *)
Definition huge : Z := 2 ^ 1024.

(** [x * 2^e] as a fraction: numerator and denominator scalings. *)
Definition up (e : Z) : Z := 2 ^ Z.max e 0.
Definition down (e : Z) : Z := 2 ^ Z.max (- e) 0.

Definition num (f : float64) : Z :=
  match f with Fin m e => m * up e | _ => 0 end.
Definition den (f : float64) : Z :=
  match f with Fin _ e => down e | _ => 1 end.

(** Nearest integer to [n/d], ties to even ([0 <= n], [0 < d]). *)
Definition rne (n d : Z) : Z :=
  let q := n / d in
  let r := n mod d in
  if 2 * r <? d then q
  else if d <? 2 * r then q + 1
  else if Z.even q then q else q + 1.

(** [floor (log2 (n/d))] for positive [n] and [d]. *)
Definition ilog2 (n d : Z) : Z :=
  let l := Z.log2 n - Z.log2 d in
  if d * up l <=? n * down l then l else l - 1.

(** The exponent of the unit in the last place of [n/d]: 53 significant
    bits, but never below the subnormal exponent. *)
Definition fexp (n d : Z) : Z := Z.max emin (ilog2 n d - (mant_bits - 1)).

(** Rounding of the rational [n/d] ([0 < d]) to the nearest float64,
    ties to even; a result of magnitude [2^1024] or more overflows to an
    infinity. *)
Definition round (n d : Z) : float64 :=
  if n =? 0 then Fin 0 0
  else
    let a := Z.abs n in
    let e := fexp a d in
    let m := rne (a * down e) (d * up e) in
    if huge * down e <=? m * up e then Inf (n <? 0)
    else Fin (Z.sgn n * m) e.

(** The mantissa that [round] gives a positive [a/d]. *)
Definition mantissa_of (a d : Z) : Z :=
  rne (a * down (fexp a d)) (d * up (fexp a d)).

(** Sign change. *)
Definition fneg (f : float64) : float64 :=
  match f with
  | NaN => NaN
  | Inf s => Inf (negb s)
  | Fin m e => Fin (- m) e
  end.

(** Conversion of an integer to [float64]. *)
Definition of_Z (z : Z) : float64 := round z 1.

Definition add (a b : float64) : float64 :=
  match a, b with
  | NaN, _ | _, NaN => NaN
  | Inf s, Inf t => if Bool.eqb s t then Inf s else NaN
  | Inf s, Fin _ _ => Inf s
  | Fin _ _, Inf t => Inf t
  | Fin _ _, Fin _ _ => round (num a * den b + num b * den a) (den a * den b)
  end.

Definition mul (a b : float64) : float64 :=
  match a, b with
  | NaN, _ | _, NaN => NaN
  | Inf s, Inf t => Inf (xorb s t)
  | Inf s, Fin m _ => if m =? 0 then NaN else Inf (xorb s (m <? 0))
  | Fin m _, Inf t => if m =? 0 then NaN else Inf (xorb (m <? 0) t)
  | Fin _ _, Fin _ _ => round (num a * num b) (den a * den b)
  end.

Definition div (a b : float64) : float64 :=
  match a, b with
  | NaN, _ | _, NaN => NaN
  | Inf _, Inf _ => NaN
  | Inf s, Fin m _ => Inf (xorb s (m <? 0))
  | Fin _ _, Inf _ => Fin 0 0
  | Fin ma _, Fin mb _ =>
      if mb =? 0 then (if ma =? 0 then NaN else Inf (ma <? 0))
      else round (Z.sgn mb * num a * den b) (den a * Z.abs (num b))
  end.

(** [f < 0]: false on a NaN. *)
Definition ltb0 (f : float64) : bool :=
  match f with
  | NaN => false
  | Inf s => s
  | Fin m _ => m <? 0
  end.

(** The result of a conversion to an integer type.  Go leaves the value
    implementation-dependent when the truncated float is outside the
    range of the type (also for infinities and NaN). *)
Inductive conv : Type :=
| Val (z : Z)
| ImplementationDependent.

(** Truncation toward zero of a finite value. *)
Definition trunc (m e : Z) : Z := Z.quot (m * up e) (down e).

Definition to_int (lo hi : Z) (f : float64) : conv :=
  match f with
  | Fin m e =>
      let z := trunc m e in
      if (lo <=? z) && (z <? hi) then Val z else ImplementationDependent
  | _ => ImplementationDependent
  end.

Definition to_uint64 : float64 -> conv := to_int 0 (2 ^ 64).
Definition to_int64 : float64 -> conv := to_int (- 2 ^ 63) (2 ^ 63).

(** [fmt.Sprintf("%.<p>f", f)] for a finite [f >= 0]: [strconv] expands
    the binary value exactly and rounds the decimal expansion half to
    even at [p] digits after the point. *)
Definition fixed (p : nat) (f : float64) : string :=
  match f with
  | Fin m e =>
      let n := rne (m * up e * 10 ^ Z.of_nat p) (down e) in
      Fmt.d (n / 10 ^ Z.of_nat p) ++ "." ++ Fmt.digits p n
  | Inf true => "-Inf"
  | Inf false => "+Inf"
  | NaN => "NaN"
  end.

End Float64.

(* ===================================================================== *)
(** * Package strconv: ParseFloat *)
(* ===================================================================== *)

Module Strconv.
Import GoString.

Inductive parsed : Type :=
| Parsed (f : Float64.float64)
| ErrSyntax
| ErrRange.

(** [lower(c)] of strconv: [c | ('x' ^ 'X')]. *)
Definition lower (c : ascii) : Z := Z.lor (code c) 32.

Definition is_digit (c : ascii) : bool := (48 <=? code c) && (code c <=? 57).
Definition is_hex_letter (c : ascii) : bool :=
  (97 <=? lower c) && (lower c <=? 102).
Definition is_underscore (c : ascii) : bool := code c =? 95.
Definition is_dot (c : ascii) : bool := code c =? 46.
Definition is_plus (c : ascii) : bool := code c =? 43.
Definition is_minus (c : ascii) : bool := code c =? 45.

Definition digit_val (c : ascii) : Z := code c - 48.
Definition hex_val (c : ascii) : Z := lower c - 97 + 10.

(** [commonPrefixLenIgnoreCase(s, prefix) == len(prefix) == len(s)]:
    [s] is [word] up to the case of its ASCII letters ([word] is in
    lower case). *)
Fixpoint eq_fold (s word : string) : bool :=
  match s, word with
  | EmptyString, EmptyString => true
  | String c t, String w u =>
      let c' := if (65 <=? code c) && (code c <=? 90) then code c + 32
                else code c in
      (c' =? code w) && eq_fold t u
  | _, _ => false
  end.

(** [special]: the strings that denote an infinity or a NaN, as far as
    they span the whole input. *)
Definition special (s : string) : option Float64.float64 :=
  match s with
  | EmptyString => None
  | String c t =>
      let '(neg, body) :=
        if is_plus c then (false, t)
        else if is_minus c then (true, t) else (false, s) in
      if eq_fold body "inf" || eq_fold body "infinity"
      then Some (Float64.Inf neg)
      else if eq_fold s "nan" then Some Float64.NaN
      else None
  end.

(** The mantissa loop of [readFloat]; the mantissa is kept exact (the
    19-digit cut of the fast path only selects between algorithms that
    all return the correctly rounded value). *)
Record mantissa : Type :=
  { sawdot : bool; sawdigits : bool; mant : Z; fracdigits : Z }.

Definition push (base v : Z) (st : mantissa) : mantissa :=
  {| sawdot := sawdot st; sawdigits := true;
     mant := mant st * base + v;
     fracdigits := if sawdot st then fracdigits st + 1 else fracdigits st |}.

Definition dot (st : mantissa) : mantissa :=
  {| sawdot := true; sawdigits := sawdigits st;
     mant := mant st; fracdigits := fracdigits st |}.

Fixpoint read_digits (hex : bool) (s : string) (st : mantissa)
  : mantissa * string :=
  match s with
  | EmptyString => (st, s)
  | String c t =>
      if is_underscore c then read_digits hex t st
      else if is_dot c then
        if sawdot st then (st, s) else read_digits hex t (dot st)
      else if is_digit c then
        read_digits hex t (push (if hex then 16 else 10) (digit_val c) st)
      else if hex && is_hex_letter c then
        read_digits hex t (push 16 (hex_val c) st)
      else (st, s)
  end.

(** The digits of the exponent; beyond 10000 further digits are read
    but no longer counted. *)
Fixpoint read_exp_digits (s : string) (e : Z) : Z * string :=
  match s with
  | EmptyString => (e, s)
  | String c t =>
      if is_digit c then
        read_exp_digits t (if e <? 10000 then e * 10 + digit_val c else e)
      else if is_underscore c then read_exp_digits t e
      else (e, s)
  end.

(** What follows the exponent character: a sign, then at least one digit. *)
Definition read_exponent (s : string) : option (Z * string) :=
  match s with
  | EmptyString => None
  | String c t =>
      let '(esign, s1) :=
        if is_plus c then (1, t)
        else if is_minus c then (-1, t) else (1, s) in
      match s1 with
      | EmptyString => None
      | String c1 _ =>
          if is_digit c1
          then let '(e, rest) := read_exp_digits s1 0 in Some (esign * e, rest)
          else None
      end
  end.

Record scanned : Type :=
  { neg : bool; hex : bool; digits : Z; exp : Z; rest : string }.

(** The optional sign. *)
Definition read_sign (s : string) : bool * string :=
  match s with
  | EmptyString => (false, s)
  | String c t =>
      if is_plus c then (false, t)
      else if is_minus c then (true, t) else (false, s)
  end.

(** The base prefix: [0x] or [0X], when something follows it. *)
Definition read_base (s : string) : bool * string :=
  match s with
  | String c0 (String c1 (String c2 u)) =>
      if (code c0 =? 48) && (lower c1 =? 120)
      then (true, String c2 u) else (false, s)
  | _ => (false, s)
  end.

Definition mantissa0 : mantissa :=
  {| sawdot := false; sawdigits := false; mant := 0; fracdigits := 0 |}.

(** After the mantissa: the exponent, required in base 16.  [exp] is the
    power of ten (of two in base 16) that scales [digits]. *)
Definition read_tail (sg hx : bool) (st : mantissa) (s3 : string)
  : option scanned :=
  let dp := if hx then - (4 * fracdigits st) else - fracdigits st in
  let plain :=
    if hx then None
    else Some {| neg := sg; hex := hx; digits := mant st;
                 exp := dp; rest := s3 |} in
  match s3 with
  | String c3 s4 =>
      if lower c3 =? (if hx then 112 else 101) then
        match read_exponent s4 with
        | Some (e, s5) =>
            Some {| neg := sg; hex := hx; digits := mant st;
                    exp := dp + e; rest := s5 |}
        | None => None
        end
      else plain
  | EmptyString => plain
  end.

(** [readFloat]: sign, optional [0x], mantissa, exponent. *)
Definition readFloat (s : string) : option scanned :=
  match s with
  | EmptyString => None
  | _ =>
      let '(sg, s1) := read_sign s in
      let '(hx, s2) := read_base s1 in
      let '(st, s3) := read_digits hx s2 mantissa0 in
      if negb (sawdigits st) then None else read_tail sg hx st s3
  end.

(** [underscoreOK]: an underscore only between digits, or between a base
    prefix and a digit. *)
Inductive saw : Type := SawStart | SawDigit | SawUnderscore | SawOther.

Fixpoint underscore_scan (hx : bool) (s : string) (last : saw) : bool :=
  match s with
  | EmptyString => match last with SawUnderscore => false | _ => true end
  | String c t =>
      if is_digit c || (hx && is_hex_letter c) then underscore_scan hx t SawDigit
      else if is_underscore c then
        match last with
        | SawDigit => underscore_scan hx t SawUnderscore
        | _ => false
        end
      else
        match last with
        | SawUnderscore => false
        | _ => underscore_scan hx t SawOther
        end
  end.

Definition underscoreOK (s : string) : bool :=
  let s1 :=
    match s with
    | String c t => if is_minus c || is_plus c then t else s
    | EmptyString => s
    end in
  match s1 with
  | String c0 (String c1 u) =>
      if (code c0 =? 48)
         && ((lower c1 =? 98) || (lower c1 =? 111) || (lower c1 =? 120))
      then underscore_scan (lower c1 =? 120) u SawDigit
      else underscore_scan false s1 SawStart
  | _ => underscore_scan false s1 SawStart
  end.

(** The value [digits * base^exp] with its sign, correctly rounded. *)
Definition scale (sc : scanned) : Float64.float64 :=
  let b := if hex sc then 2 else 10 in
  let n := digits sc * b ^ Z.max (exp sc) 0 in
  Float64.round (if neg sc then - n else n) (b ^ Z.max (- exp sc) 0).

(** [strconv.ParseFloat(s, 64)]: the whole of [s] must be a number; a
    number that overflows is a range error. *)
Definition ParseFloat (s : string) : parsed :=
  match special s with
  | Some f => Parsed f
  | None =>
      match readFloat s with
      | Some sc =>
          match rest sc with
          | EmptyString =>
              if underscoreOK s then
                match scale sc with
                | Float64.Inf _ => ErrRange
                | f => Parsed f
                end
              else ErrSyntax
          | _ => ErrSyntax
          end
      | None => ErrSyntax
      end
  end.

End Strconv.

(* ===================================================================== *)
(** * go/format.go *)
(* ===================================================================== *)

Import GoString.

Definition KB : Z := 1024.
Definition MB : Z := KB * 1024.
Definition GB : Z := MB * 1024.
Definition TB : Z := GB * 1024.

(** [float64(bytes)/float64(unit)] *)
Definition size_in (bytes unit : Z) : Float64.float64 :=
  Float64.div (Float64.of_Z bytes) (Float64.of_Z unit).

(** [HumanSize(bytes uint64) string] *)
Definition HumanSize (bytes : Z) : string :=
  if TB <=? bytes then Float64.fixed 2 (size_in bytes TB) ++ " TB"
  else if GB <=? bytes then Float64.fixed 1 (size_in bytes GB) ++ " GB"
  else if MB <=? bytes then Float64.fixed 1 (size_in bytes MB) ++ " MB"
  else if KB <=? bytes then Float64.fixed 1 (size_in bytes KB) ++ " KB"
  else Fmt.d bytes ++ " B".

(** The three error returns of [ParseSize]. *)
Inductive size_error : Type :=
| EmptySizeString
| InvalidNumber (numStr : string)
| NegativeSize (num : Float64.float64).

Inductive result (A : Type) : Type :=
| Ok (a : A)
| Err (e : size_error).
Arguments Ok {A} a.
Arguments Err {A} e.

(** The [switch] over the suffixes: the number part and the multiplier. *)
Definition split_unit (s : string) : string * Z :=
  if HasSuffix s "TB" then (TrimSuffix s "TB", TB)
  else if HasSuffix s "GB" then (TrimSuffix s "GB", GB)
  else if HasSuffix s "MB" then (TrimSuffix s "MB", MB)
  else if HasSuffix s "KB" then (TrimSuffix s "KB", KB)
  else if HasSuffix s "B" then (TrimSuffix s "B", 1)
  else (s, 1).

(** [ParseSize(s string) (uint64, error)] *)
Definition ParseSize (s : string) : result Float64.conv :=
  let s := TrimSpace (ToUpper s) in
  if String.eqb s "" then Err EmptySizeString
  else
    let '(numStr, multiplier) := split_unit s in
    let numStr := TrimSpace numStr in
    match Strconv.ParseFloat numStr with
    | Strconv.Parsed num =>
        if Float64.ltb0 num then Err (NegativeSize num)
        else Ok (Float64.to_uint64 (Float64.mul num (Float64.of_Z multiplier)))
    | _ => Err (InvalidNumber numStr)
    end.

(** [TruncatePath(path string, maxLen int) string] *)
Definition TruncatePath (path : string) (maxLen : Z) : string :=
  if len path <=? maxLen then path
  else if maxLen <=? 3 then "..."
  else "..." ++ slice_from path (len path - maxLen + 3).

(** [Pluralize(count int, singular, plural string) string] *)
Definition Pluralize (count : Z) (singular plural : string) : string :=
  if count =? 1 then Fmt.d count ++ " " ++ singular
  else Fmt.d count ++ " " ++ plural.

(** Package time: a [Duration] is an [int64] count of nanoseconds. *)
Module Duration.

Definition Millisecond : Z := 1000000.
Definition Second : Z := 1000000000.

Definition in_range (d : Z) : Prop := - 2 ^ 63 <= d < 2 ^ 63.

(** [d.Seconds()]:
    [sec := d / Second; nsec := d % Second;
     return float64(sec) + float64(nsec)/1e9]. *)
Definition Seconds (d : Z) : Float64.float64 :=
  let sec := Z.quot d Second in
  let nsec := Z.rem d Second in
  Float64.add (Float64.of_Z sec)
              (Float64.div (Float64.of_Z nsec) (Float64.of_Z 1000000000)).

(** [d.Milliseconds()] *)
Definition Milliseconds (d : Z) : Z := Z.quot d 1000000.

End Duration.

(** The [switch] of [HumanDuration], once [secs] is known. *)
Definition render_duration (d secs : Z) : string :=
  let millis := Z.rem (Duration.Milliseconds d) 1000 in
  if secs =? 0 then Fmt.d (Duration.Milliseconds d) ++ "ms"
  else if secs <? 60 then Fmt.d secs ++ "." ++ Fmt.d (Z.quot millis 100) ++ "s"
  else if secs <? 3600 then
    let mins := Z.quot secs 60 in
    let remainingSecs := Z.rem secs 60 in
    Fmt.d mins ++ "m " ++ Fmt.d remainingSecs ++ "s"
  else
    let hours := Z.quot secs 3600 in
    let remainingMins := Z.quot (Z.rem secs 3600) 60 in
    Fmt.d hours ++ "h " ++ Fmt.d remainingMins ++ "m".

(** [HumanDuration(d time.Duration) string].  The result is [None] only if
    [int64(d.Seconds())] were out of the range of [int64], where Go fixes no
    value. *)
Definition HumanDuration (d : Z) : option string :=
  match Float64.to_int64 (Duration.Seconds d) with
  | Float64.Val secs => Some (render_duration d secs)
  | Float64.ImplementationDependent => None
  end.

(* ===================================================================== *)
(** * Size strings *)
(* ===================================================================== *)

(** Strings of decimal digits and their value. *)
Fixpoint all_digits (s : string) : bool :=
  match s with
  | EmptyString => true
  | String c t => Strconv.is_digit c && all_digits t
  end.

Fixpoint digits_value (acc : Z) (s : string) : Z :=
  match s with
  | EmptyString => acc
  | String c t => digits_value (acc * 10 + Strconv.digit_val c) t
  end.

Definition decimal_value (s : string) : Z := digits_value 0 s.

(** A decimal number: integer digits, and maybe a point and more digits. *)
Definition fraction (fp : option string) : string :=
  match fp with Some f => f | None => "" end.

Definition number_text (ip : string) (fp : option string) : string :=
  match fp with Some f => ip ++ "." ++ f | None => ip end.

Definition is_number (ip : string) (fp : option string) : Prop :=
  all_digits ip = true /\ ip <> "" /\ all_digits (fraction fp) = true.

(** The float64 nearest to the number [ip.fp], with a sign. *)
Definition nearest_float64 (neg : bool) (ip : string) (fp : option string)
  : Float64.float64 :=
  let n := decimal_value (ip ++ fraction fp) in
  Float64.round (if neg then - n else n) (10 ^ len (fraction fp)).

(** The unit suffixes, in upper case, and their multipliers. *)
Definition unit_of_suffix (u : string) : option Z :=
  if String.eqb u "" then Some 1
  else if String.eqb u "B" then Some 1
  else if String.eqb u "KB" then Some KB
  else if String.eqb u "MB" then Some MB
  else if String.eqb u "GB" then Some GB
  else if String.eqb u "TB" then Some TB
  else None.

(** The characters of a number, and strings made of them. *)
Definition num_char (c : ascii) : bool := Strconv.is_digit c || Strconv.is_dot c.

Fixpoint all_num (s : string) : bool :=
  match s with
  | EmptyString => true
  | String c t => num_char c && all_num t
  end.

Fixpoint no_space (s : string) : bool :=
  match s with
  | EmptyString => true
  | String c t => negb (is_space c) && no_space t
  end.

(** The state of the mantissa loop after the digits [a]. *)
Fixpoint push_digits (a : string) (st : Strconv.mantissa) : Strconv.mantissa :=
  match a with
  | EmptyString => st
  | String c t => push_digits t (Strconv.push 10 (Strconv.digit_val c) st)
  end.

(** The contract of [parse_size] as the specification words it: the
    product of the number and of the multiplier, rounded to the nearest
    integer ([num/den] is the number, [k] the multiplier). *)
Definition rounds_to_nearest (ip : string) (fp : option string) (u : string)
  : Prop :=
  forall k, unit_of_suffix (ToUpper u) = Some k ->
  let num := decimal_value (ip ++ fraction fp) * k in
  let den := 10 ^ len (fraction fp) in
  forall r, 2 * Z.abs (r * den - num) <= den -> r < 2 ^ 64 ->
  ParseSize (number_text ip fp ++ u) = Ok (Float64.Val r).



(** The largest finite float64, [(2^53 - 1) * 2^971]. *)
Definition max_float64 : Z := (2 ^ 53 - 1) * 2 ^ 971.







(* ===================================================================== *)
(** * Characters and bytes *)
(* ===================================================================== *)

Module Utf8.

(** A continuation byte [10xxxxxx]; every other byte starts a character. *)
Definition is_continuation (c : ascii) : bool :=
  (128 <=? code c) && (code c <? 192).

(** The number of characters of a UTF-8 string. *)
Fixpoint rune_count (s : string) : nat :=
  match s with
  | EmptyString => O
  | String c t => if is_continuation c then rune_count t else S (rune_count t)
  end.

(** The last [k] characters: the longest suffix that starts at a
    character and holds at most [k] of them. *)
Fixpoint last_runes (k : nat) (s : string) : string :=
  match s with
  | EmptyString => EmptyString
  | String c t =>
      if negb (is_continuation c) && (rune_count s <=? k)%nat then s
      else last_runes k t
  end.

End Utf8.

(** The last [k] bytes. *)
Definition last_bytes (k : nat) (s : string) : string :=
  drop (String.length s - k) s.

(** The contract of [truncate_path] with lengths counted in characters,
    as the specification words it. *)
Definition truncate_path_by_characters (p : string) (maxLen : Z) : Prop :=
  let n := Z.of_nat (Utf8.rune_count p) in
  (n <= maxLen -> TruncatePath p maxLen = p) /\
  (maxLen < n -> maxLen <= 3 -> TruncatePath p maxLen = "...") /\
  (maxLen < n -> 3 < maxLen ->
   TruncatePath p maxLen = "..." ++ Utf8.last_runes (Z.to_nat (maxLen - 3)) p).

(* ===================================================================== *)
(** * Terminal output *)
(* ===================================================================== *)

Module Term.

Inductive stream : Type := Stdout | Stderr.

(** The attributes of fatih/color that the package uses. *)
Inductive attribute : Type :=
| FgRed | FgGreen | FgYellow | FgBlue | FgCyan | Bold | Faint.

(** Text as the terminal receives it: plain bytes, or bytes between the
    escape sequences that switch a style on and off. *)
Inductive piece : Type :=
| Plain (s : string)
| Styled (attrs : list attribute) (s : string).

Definition text : Type := list piece.

(** The control characters of the format strings. *)
Definition nl : string := String (ascii_of_nat 10) "".
Definition cr : string := String (ascii_of_nat 13) "".
Definition esc : string := String (ascii_of_nat 27) "".

(** What one write carries: text formatted by the package itself, or
    something drawn by one of the two progress libraries. *)
Inductive output : Type :=
| Text (t : text)
| SpinnerFrame (prefix : string) (glyph : nat) (suffix : string)
| SpinnerErase
| BarDraw (current max : Z) (description : string)
| BarErase.

Definition event : Type := stream * output.

(** The process: the flag [color.NoColor] and everything written so far,
    oldest first. *)
Record world : Type := { NoColor : bool; out : list event }.

Definition write (st : stream) (o : output) (w : world) : world :=
  {| NoColor := NoColor w; out := out w ++ [(st, o)] |}.

(** Assigning [color.NoColor]: colors are on when the flag is off. *)
Definition set_color (enabled : bool) (w : world) : world :=
  {| NoColor := negb enabled; out := out w |}.

(** The method [wrap] of a [Color], behind [Sprint], [Sprintf], [Println] and the
    [GreenString] family: the flag is read when the call is made. *)
Definition wrap (w : world) (attrs : list attribute) (s : string) : text :=
  if NoColor w then [Plain s] else [Styled attrs s].

Definition is_styled (p : piece) : bool :=
  match p with Styled _ _ => true | Plain _ => false end.

Definition has_style (t : text) : bool := existsb is_styled t.

Definition is_frame (e : event) : bool :=
  match snd e with SpinnerFrame _ _ _ => true | _ => false end.

Definition is_text (e : event) : bool :=
  match snd e with Text _ => true | _ => false end.

End Term.

(* ===================================================================== *)
(** * go/messages.go *)
(* ===================================================================== *)

Module Messages.
Import Term.
Local Open Scope list_scope.

(** The package-level variables: the four icons are strings, rendered
    once when the package is initialised; [dimStyle] is a style. *)
Record vars : Type :=
  { infoIcon : text; successIcon : text; warnIcon : text; errorIcon : text;
    dimStyle : list attribute }.

(** Initialisation of the [var] block in the world [w0] of program start. *)
Definition package_init (w0 : world) : vars :=
  {| infoIcon := wrap w0 [FgBlue] "ℹ";
     successIcon := wrap w0 [FgGreen] "✓";
     warnIcon := wrap w0 [FgYellow] "⚠";
     errorIcon := wrap w0 [FgRed] "✗";
     dimStyle := [Faint] |}.

(** ["%s %s\n"] applied to an icon and a message. *)
Definition icon_line (icon : text) (msg : string) : text :=
  icon ++ [Plain " "; Plain msg; Plain nl].

Definition Info (v : vars) (msg : string) : world -> world :=
  write Stdout (Text (icon_line (infoIcon v) msg)).

Definition Success (v : vars) (msg : string) : world -> world :=
  write Stdout (Text (icon_line (successIcon v) msg)).

Definition Warn (v : vars) (msg : string) : world -> world :=
  write Stdout (Text (icon_line (warnIcon v) msg)).

Definition Error (v : vars) (msg : string) : world -> world :=
  write Stderr (Text (icon_line (errorIcon v) msg)).

Definition Dim (v : vars) (msg : string) (w : world) : world :=
  write Stdout (Text ([Plain "  "] ++ wrap w (dimStyle v) msg ++ [Plain nl])) w.

End Messages.

(* ===================================================================== *)
(** * go/layout.go *)
(* ===================================================================== *)

Module Layout.
Import Term.
Local Open Scope list_scope.

Definition headerStyle : list attribute := [Bold].
Definition sectionStyle : list attribute := [FgCyan; Bold].
Definition keyStyle : list attribute := [Faint].
Definition stepStyle : list attribute := [FgBlue; Bold].
Definition dividerStyle : list attribute := [Faint].

Definition newline : text := [Plain nl].

(** [style.Println(s)] *)
Definition Println (style : list attribute) (s : string) (w : world) : world :=
  write Stdout (Text (wrap w style s ++ newline)) w.

Definition Blank : world -> world := write Stdout (Text newline).

(** How a call ends: it returns, or it panics (inside [strings.Repeat]);
    either way with the world as written so far. *)
Inductive outcome : Type :=
| Returned (w : world)
| Panicked (w : world).

(** [Header]: the blank line and the title are written before
    [strings.Repeat] is called. *)
Definition Header (title : string) (w : world) : outcome :=
  let w2 := Println headerStyle title (Blank w) in
  match Repeat "─" (len title) with
  | Some line => Returned (Println dividerStyle line w2)
  | None => Panicked w2
  end.

Definition Section (title : string) (w : world) : world :=
  Println sectionStyle title (Blank w).

Definition KV (key value : string) (w : world) : world :=
  write Stdout
    (Text ([Plain "  "] ++ wrap w keyStyle key
           ++ [Plain ": "; Plain value] ++ newline)) w.

Definition Step (num total : Z) (msg : string) (w : world) : world :=
  write Stdout
    (Text (wrap w stepStyle ("[" ++ Fmt.d num ++ "/" ++ Fmt.d total ++ "]")%string
           ++ [Plain " "; Plain msg] ++ newline)) w.

(** [Divider] and [Indent]: the argument of the print is evaluated first,
    so that nothing is written when [strings.Repeat] panics. *)
Definition Divider (width : Z) (w : world) : outcome :=
  match Repeat "─" width with
  | Some line => Returned (Println dividerStyle line w)
  | None => Panicked w
  end.

Definition Indent (level : Z) (msg : string) (w : world) : outcome :=
  match Repeat "  " level with
  | Some pad =>
      Returned (write Stdout (Text ([Plain pad; Plain msg] ++ newline)) w)
  | None => Panicked w
  end.

End Layout.

(* ===================================================================== *)
(** * go/progress.go *)
(* ===================================================================== *)

Module Progress.
Import Term.
Local Open Scope list_scope.

(** ** Finishing lines *)

Inductive finish : Type := FSuccess | FError | FWarn | FClear.

(** What a finishing method writes once the library call has returned:
    ["\r%s %s\n"] with the icon colored at that moment, or the sequence
    that clears the line. *)
Definition final_line (f : finish) (msg : string) (w : world) : event :=
  let line icon := [Plain cr] ++ icon
                   ++ [Plain " "; Plain msg; Plain nl] in
  match f with
  | FSuccess => (Stdout, Text (line (wrap w [FgGreen] "✓")))
  | FError => (Stderr, Text (line (wrap w [FgRed] "✗")))
  | FWarn => (Stdout, Text (line (wrap w [FgYellow] "⚠")))
  | FClear =>
      (Stdout, Text [Plain (cr ++ esc ++ "[K")%string])
  end.

(** ** The spinner and its goroutine

    briandowns/spinner keeps a flag [active] and a mutex [mu].  [Start]
    launches a goroutine that, once per delay, polls [stopChan], takes
    [mu], returns if the spinner is no longer active, and otherwise
    redraws the line on its writer (standard output) and releases [mu].
    [Stop] takes [mu], and if the spinner is active clears the flag,
    erases the line and signals [stopChan], then releases [mu].
    The finishing methods of [SpinnerHandle] call [Stop] and then print
    their final line; both threads are interleaved step by step. *)

Inductive thread : Type := Ticker | Main.

Inductive ticker_pc : Type :=
| TSelect    (* at the select on stopChan *)
| TLocked    (* holds mu, about to test active *)
| TDraw      (* holds mu, found the spinner active *)
| TSleep     (* released mu, sleeping for the delay *)
| TExit.     (* the goroutine has returned *)

Inductive main_pc : Type :=
| MRunning       (* the handle is in use, no finishing call yet *)
| MStopLocked    (* inside Stop, holding mu *)
| MStopped       (* Stop has returned *)
| MFinished.     (* the final line is written *)

Record SpinnerHandle : Type :=
  { msg : string;
    active : bool;
    mu : option thread;
    stopChan : bool;
    glyph : nat;
    Prefix : string;
    Suffix : string;
    tpc : ticker_pc;
    mpc : main_pc;
    term : world }.

Definition with_ticker (s : SpinnerHandle) (m : option thread) (pc : ticker_pc)
    (g : nat) (ch : bool) (w : world) : SpinnerHandle :=
  {| msg := msg s; active := active s; mu := m; stopChan := ch; glyph := g;
     Prefix := Prefix s; Suffix := Suffix s;
     tpc := pc; mpc := mpc s; term := w |}.

Definition with_main (s : SpinnerHandle) (a : bool) (m : option thread)
    (ch : bool) (sfx : string) (pc : main_pc) (w : world) : SpinnerHandle :=
  {| msg := msg s; active := a; mu := m; stopChan := ch; glyph := glyph s;
     Prefix := Prefix s; Suffix := sfx;
     tpc := tpc s; mpc := pc; term := w |}.

(** The character set has ten glyphs. *)
Definition next_glyph (g : nat) : nat := Nat.modulo (S g) 10.

(** [Spinner(msg)] (empty prefix) and [StageProgress.Next] (stage
    prefix): [spinner.New], the suffix, [Start].  [Start] does nothing
    unless the writer is a terminal. *)
Definition start (tty : bool) (prefix msg : string) (w : world) : SpinnerHandle :=
  {| msg := msg; active := tty; mu := None; stopChan := false; glyph := 0;
     Prefix := prefix; Suffix := (" " ++ msg)%string;
     tpc := if tty then TSelect else TExit; mpc := MRunning; term := w |}.

(** [Spinner(msg)] *)
Definition Spinner (tty : bool) (msg : string) : world -> SpinnerHandle :=
  start tty "" msg.

(** [UpdateMessage(msg)]: the message and the suffix change. *)
Definition UpdateMessage (m : string) (s : SpinnerHandle) : SpinnerHandle :=
  {| msg := m; active := active s; mu := mu s; stopChan := stopChan s;
     glyph := glyph s; Prefix := Prefix s; Suffix := (" " ++ m)%string;
     tpc := tpc s; mpc := mpc s; term := term s |}.

(** Modelled from the spec: the ticking task and its halting are inside
    briandowns/spinner, which is not among the sources; its goroutine and
    its [Stop] are as described above.  One step of the program made of
    the goroutine and of the caller, who ends with the finishing call
    [f final]: [Stop], then the final line. *)
Inductive step (f : finish) (final : string)
  : SpinnerHandle -> SpinnerHandle -> Prop :=
| t_stop_received s :
    tpc s = TSelect -> stopChan s = true ->
    step f final s (with_ticker s (mu s) TExit (glyph s) false (term s))
| t_lock s :
    tpc s = TSelect -> stopChan s = false -> mu s = None ->
    step f final s (with_ticker s (Some Ticker) TLocked (glyph s) (stopChan s) (term s))
| t_inactive s :
    tpc s = TLocked -> active s = false ->
    step f final s (with_ticker s None TExit (glyph s) (stopChan s) (term s))
| t_active s :
    tpc s = TLocked -> active s = true ->
    step f final s (with_ticker s (mu s) TDraw (glyph s) (stopChan s) (term s))
| t_draw s :
    tpc s = TDraw ->
    step f final s
      (with_ticker s None TSleep (next_glyph (glyph s)) (stopChan s)
         (write Stdout (SpinnerFrame (Prefix s) (glyph s) (Suffix s))
            (write Stdout SpinnerErase (term s))))
| t_wake s :
    tpc s = TSleep ->
    step f final s (with_ticker s (mu s) TSelect (glyph s) (stopChan s) (term s))
| m_update s m' :
    mpc s = MRunning ->
    step f final s (with_main s (active s) (mu s) (stopChan s) (" " ++ m')%string MRunning (term s))
| m_set_color s b :
    step f final s (with_main s (active s) (mu s) (stopChan s) (Suffix s) (mpc s)
                    (set_color b (term s)))
| m_stop_lock s :
    mpc s = MRunning -> mu s = None ->
    step f final s (with_main s (active s) (Some Main) (stopChan s) (Suffix s)
                    MStopLocked (term s))
| m_stop_active s :
    mpc s = MStopLocked -> active s = true ->
    step f final s (with_main s false None true (Suffix s) MStopped
                    (write Stdout SpinnerErase (term s)))
| m_stop_idle s :
    mpc s = MStopLocked -> active s = false ->
    step f final s (with_main s false None (stopChan s) (Suffix s) MStopped (term s))
| m_final s :
    mpc s = MStopped ->
    step f final s (with_main s (active s) (mu s) (stopChan s) (Suffix s) MFinished
                    {| NoColor := NoColor (term s);
                       out := out (term s) ++ [final_line f final (term s)] |}).

(** Executions: any number of steps. *)
Inductive steps (f : finish) (final : string)
  : SpinnerHandle -> SpinnerHandle -> Prop :=
| steps_refl s : steps f final s s
| steps_more s1 s2 s3 :
    steps f final s1 s2 -> step f final s2 s3 -> steps f final s1 s3.

(** No spinner frame among the writes that follow the first write of
    program text. *)
Fixpoint no_frame_after_text (l : list event) : bool :=
  match l with
  | [] => true
  | e :: t => if is_text e then negb (existsb is_frame t)
              else no_frame_after_text t
  end.

(** ** The bar

    schollz/progressbar is not among the sources.  A bar draws on its
    writer, which [NewOptions64] sets to standard output unless an option
    changes it; what [Add], [Set], [Finish] and [Clear] draw there depends
    on the state the library keeps: [Clear] writes nothing on a bar that
    was never drawn, [Add] nothing on a bar whose maximum is zero.  A call
    of the library is therefore any number of drawings, possibly none, on
    the writer of the bar; the color flag is left alone. *)
Record BarHandle : Type :=
  { bar_max : Z; bar_description : string; bar_writer : stream }.

(** [Bar(total, prefix)]: none of the options it passes sets the writer. *)
Definition Bar (total : Z) (prefix : string) : BarHandle :=
  {| bar_max := total; bar_description := prefix; bar_writer := Stdout |}.

Definition same_stream (a b : stream) : bool :=
  match a, b with
  | Stdout, Stdout | Stderr, Stderr => true
  | _, _ => false
  end.

Definition is_bar_drawing (b : BarHandle) (e : event) : bool :=
  match snd e with
  | BarDraw _ _ _ | BarErase => same_stream (fst e) (bar_writer b)
  | _ => false
  end.

Definition library_draws (b : BarHandle) (w w' : world) : Prop :=
  NoColor w' = NoColor w /\
  exists l, out w' = out w ++ l /\ forallb (is_bar_drawing b) l = true.

(** [Add], [Add64], [Set], [Set64] and [Clear] only call the library. *)
Definition BarAdd (n : Z) (b : BarHandle) (w w' : world) : Prop :=
  library_draws b w w'.

Definition BarSet (n : Z) (b : BarHandle) (w w' : world) : Prop :=
  library_draws b w w'.

Definition BarClear (b : BarHandle) (w w' : world) : Prop :=
  library_draws b w w'.

(** [Success] and [Error]: [b.bar.Finish()], then the final line. *)
Definition bar_finish_line (f : finish) (msg : string) (b : BarHandle)
    (w w' : world) : Prop :=
  exists w1, library_draws b w w1 /\
             w' = {| NoColor := NoColor w1;
                     out := out w1 ++ [final_line f msg w1] |}.

Definition BarSuccess (msg : string) : BarHandle -> world -> world -> Prop :=
  bar_finish_line FSuccess msg.

Definition BarError (msg : string) : BarHandle -> world -> world -> Prop :=
  bar_finish_line FError msg.

(** ** Stages *)
Record StageProgress : Type := { current : Z; total : Z }.

Definition NewStageProgress (n : Z) : StageProgress :=
  {| current := 0; total := n |}.

Definition stage_prefix (sp : StageProgress) : string :=
  ("[" ++ Fmt.d (current sp) ++ "/" ++ Fmt.d (total sp) ++ "] ")%string.

(** [Next]: the counter moves, and a spinner starts with the stage
    prefix. *)
Definition Next (tty : bool) (name : string) (sp : StageProgress) (w : world)
  : StageProgress * SpinnerHandle :=
  let sp' := {| current := GoInt.wrap (current sp + 1); total := total sp |} in
  (sp', start tty (stage_prefix sp') name w).

Definition Skip (name : string) (sp : StageProgress) (w : world)
  : StageProgress * world :=
  let sp' := {| current := GoInt.wrap (current sp + 1); total := total sp |} in
  (sp', write Stdout
          (Text ([Plain "  "] ++ wrap w [Faint] "○"
                 ++ [Plain (" " ++ stage_prefix sp' ++ name ++ " (skipped)" ++ nl)%string])) w).

Definition IsComplete (sp : StageProgress) : bool := total sp <=? current sp.

End Progress.

(* ===================================================================== *)
(** * ColorState *)
(* ===================================================================== *)

Module ColorState.

(** What initialisation reads: three environment variables (absent, or
    present with a value) and whether the output stream is a terminal. *)
Record env : Type :=
  { NO_COLOR : option string;
    CLICOLOR_FORCE : option string;
    CLICOLOR : option string;
    is_terminal : bool }.

Definition non_empty (v : option string) : bool :=
  match v with
  | Some s => negb (String.eqb s "")
  | None => false
  end.

Section Init.
(** Which values of [CLICOLOR_FORCE] count as true is left open. *)
Variable truthy : string -> bool.

Definition forced (v : option string) : bool :=
  match v with Some s => truthy s | None => false end.

(** Modelled from the spec: the initialisation function [init] of the
    color state is not part of the Go sources (which rely on the
    defaults of fatih/color).  Precedence: [NO_COLOR], then
    [CLICOLOR_FORCE], then [CLICOLOR], then terminal detection. *)
Definition init (e : env) : bool :=
  if non_empty (NO_COLOR e) then false
  else if forced (CLICOLOR_FORCE e) then true
  else match CLICOLOR e with
       | Some v => negb (String.eqb v "0")
       | None => is_terminal e
       end.
End Init.

End ColorState.

(* ===================================================================== *)
(** * Streams, styles and executions *)
(* ===================================================================== *)

Import Term Progress.
Local Open Scope list_scope.

(** The text of the last write. *)
Definition last_text (w : world) : text :=
  match last (out w) (Stdout, Text []) with
  | (_, Text t) => t
  | _ => []
  end.

(** Going from [w] to [w'] wrote exactly on the streams [sts], in order. *)
Definition wrote (w w' : world) (sts : list stream) : Prop :=
  exists l, out w' = out w ++ l /\ map fst l = sts.

Definition is_error (f : finish) : bool :=
  match f with FError => true | _ => false end.

(** The stream a write of a spinner that ends with [f] must be on: the
    error stream for the text of [Error], standard output otherwise. *)
Definition on_stream (f : finish) (e : event) : Prop :=
  fst e = if is_text e && is_error f then Stderr else Stdout.

(** What holds of a spinner started in [w0] at every point of every
    execution: the mutex is held by whoever is in a critical section; the
    goroutine is about to draw only if the spinner is active; the spinner
    is inactive once [Stop] has returned; and the writes since the start
    hold no program text before the final line, no frame after it, and
    each is on its stream. *)
Definition spinner_inv (f : finish) (w0 : world) (s : SpinnerHandle) : Prop :=
  (tpc s = TLocked \/ tpc s = TDraw -> mu s = Some Ticker) /\
  (mpc s = MStopLocked -> mu s = Some Main) /\
  (tpc s = TDraw -> active s = true) /\
  (mpc s = MStopped \/ mpc s = MFinished -> active s = false) /\
  exists l,
    out (term s) = out w0 ++ l /\
    (mpc s <> MFinished -> existsb is_text l = false) /\
    no_frame_after_text l = true /\
    Forall (on_stream f) l.

(** Everything written going from [w] to [w'] is on the stream [st]. *)
Definition wrote_on (w w' : world) (st : stream) : Prop :=
  exists l, out w' = out w ++ l /\ Forall (fun e => fst e = st) l.

(** The world a layout call leaves, however it ends. *)
Definition world_of (o : Layout.outcome) : world :=
  match o with Layout.Returned w | Layout.Panicked w => w end.

(** The writes of a spinner since its start in [w0]: all on standard
    output; and once the finishing call [f final] has returned they end
    with its final line, formatted in the world [w1] of that moment. *)
Definition spinner_trace (f : finish) (final : string) (w0 : world)
    (s : SpinnerHandle) : Prop :=
  exists l, out (term s) = out w0 ++ l /\
    match mpc s with
    | MFinished =>
        exists l0 w1, l = l0 ++ [final_line f final w1] /\
                      Forall (fun e => fst e = Stdout) l0
    | _ => Forall (fun e => fst e = Stdout) l
    end.

Local Close Scope list_scope.

(* ===================================================================== *)
(** * Inputs of the further properties *)
(* ===================================================================== *)

(** Strings of ASCII white space. *)
Fixpoint all_space (s : string) : bool :=
  match s with
  | EmptyString => true
  | String c t => is_space c && all_space t
  end.

(** A decimal number with an optional minus sign. *)
Definition signed_number (neg : bool) (ip : string) (fp : option string)
  : string :=
  (if neg then "-" else "") ++ number_text ip fp.

(** The calls that move a [StageProgress], each in the world of its
    moment, and the tracker after a sequence of them. *)
Inductive stage_call : Type :=
| CallNext (tty : bool) (name : string) (w : world)
| CallSkip (name : string) (w : world).

Definition stage_after (sp : StageProgress) (c : stage_call) : StageProgress :=
  match c with
  | CallNext tty name w => fst (Next tty name sp w)
  | CallSkip name w => fst (Skip name sp w)
  end.

Definition stages_after (cs : list stage_call) (sp : StageProgress)
  : StageProgress :=
  fold_left stage_after cs sp.

(* ===================================================================== *)
(** * Properties of the float64 operations *)
(* ===================================================================== *)

Module Float64Facts.
Import Float64.

Lemma up_pos e : 0 < up e.
Proof. unfold up. apply Z.pow_pos_nonneg; lia. Qed.

Lemma down_pos e : 0 < down e.
Proof. unfold down. apply Z.pow_pos_nonneg; lia. Qed.

(** [2^(e+k) = 2^k * 2^e], written on numerators and denominators. *)
Lemma up_down_shift e k :
  0 <= k -> up (e + k) * down e = 2 ^ k * up e * down (e + k).
Proof.
  intros Hk. unfold up, down.
  rewrite <- !Z.pow_add_r by lia.
  f_equal. lia.
Qed.

Lemma rne_le n d K : 0 <= n -> 0 < d -> n <= K * d -> rne n d <= K.
Proof.
  intros Hn Hd H. unfold rne.
  pose proof (Z.div_mod n d ltac:(lia)) as E.
  pose proof (Z.mod_pos_bound n d Hd) as B.
  assert (n / d <= K) by (apply Z.div_le_upper_bound; lia).
  destruct (2 * (n mod d) <? d) eqn:H1; [lia|].
  apply Z.ltb_ge in H1.
  assert (n / d < K) by nia.
  destruct (d <? 2 * (n mod d)); [lia|].
  destruct (Z.even (n / d)); lia.
Qed.

Lemma rne_ge n d K : 0 <= n -> 0 < d -> K * d <= n -> K <= rne n d.
Proof.
  intros Hn Hd H. unfold rne.
  assert (K <= n / d) by (apply Z.div_le_lower_bound; lia).
  destruct (2 * (n mod d) <? d); [lia|].
  destruct (d <? 2 * (n mod d)); [lia|].
  destruct (Z.even (n / d)); lia.
Qed.

Lemma ilog2_lower a d :
  0 < a -> 0 < d -> d * up (ilog2 a d) <= a * down (ilog2 a d).
Proof.
  intros Ha Hd. unfold ilog2.
  set (l := Z.log2 a - Z.log2 d).
  destruct (d * up l <=? a * down l) eqn:T; [now apply Z.leb_le in T|].
  clear T.
  pose proof (Z.log2_spec a Ha) as [La _].
  pose proof (Z.log2_spec d Hd) as [_ Ld].
  pose proof (Z.log2_nonneg a). pose proof (Z.log2_nonneg d).
  unfold up, down.
  destruct (Z.le_gt_cases 0 (l - 1)) as [P|P].
  - rewrite (Z.max_l (l - 1) 0), (Z.max_r (- (l - 1)) 0) by lia.
    rewrite Z.pow_0_r, Z.mul_1_r.
    assert (d * 2 ^ (l - 1) < 2 ^ Z.succ (Z.log2 d) * 2 ^ (l - 1)).
    { apply Z.mul_lt_mono_pos_r; [apply Z.pow_pos_nonneg; lia|lia]. }
    rewrite <- Z.pow_add_r in H1 by lia.
    replace (Z.succ (Z.log2 d) + (l - 1)) with (Z.log2 a) in H1 by (unfold l; lia).
    lia.
  - rewrite (Z.max_r (l - 1) 0), (Z.max_l (- (l - 1)) 0) by lia.
    rewrite Z.pow_0_r, Z.mul_1_r.
    assert (2 ^ Z.log2 a * 2 ^ (- (l - 1)) <= a * 2 ^ (- (l - 1))).
    { apply Z.mul_le_mono_nonneg_r; [apply Z.pow_nonneg; lia|lia]. }
    rewrite <- Z.pow_add_r in H1 by lia.
    replace (Z.log2 a + - (l - 1)) with (Z.succ (Z.log2 d)) in H1 by (unfold l; lia).
    lia.
Qed.

Lemma ilog2_upper a d :
  0 < a -> 0 < d -> a * down (ilog2 a d + 1) < d * up (ilog2 a d + 1).
Proof.
  intros Ha Hd. unfold ilog2.
  set (l := Z.log2 a - Z.log2 d).
  pose proof (Z.log2_spec a Ha) as [_ La].
  pose proof (Z.log2_spec d Hd) as [Ld _].
  pose proof (Z.log2_nonneg a). pose proof (Z.log2_nonneg d).
  destruct (d * up l <=? a * down l) eqn:T.
  - clear T. unfold up, down.
    destruct (Z.le_gt_cases 0 (l + 1)) as [P|P].
    + rewrite (Z.max_l (l + 1) 0), (Z.max_r (- (l + 1)) 0) by lia.
      rewrite Z.pow_0_r, Z.mul_1_r.
      assert (2 ^ Z.log2 d * 2 ^ (l + 1) <= d * 2 ^ (l + 1)).
      { apply Z.mul_le_mono_nonneg_r; [apply Z.pow_nonneg; lia|lia]. }
      rewrite <- Z.pow_add_r in H1 by lia.
      replace (Z.log2 d + (l + 1)) with (Z.succ (Z.log2 a)) in H1 by (unfold l; lia).
      lia.
    + rewrite (Z.max_r (l + 1) 0), (Z.max_l (- (l + 1)) 0) by lia.
      rewrite Z.pow_0_r, Z.mul_1_r.
      assert (a * 2 ^ (- (l + 1)) < 2 ^ Z.succ (Z.log2 a) * 2 ^ (- (l + 1))).
      { apply Z.mul_lt_mono_pos_r; [apply Z.pow_pos_nonneg; lia|lia]. }
      rewrite <- Z.pow_add_r in H1 by lia.
      replace (Z.succ (Z.log2 a) + - (l + 1)) with (Z.log2 d) in H1 by (unfold l; lia).
      lia.
  - apply Z.leb_gt in T. replace (l - 1 + 1) with l by lia. exact T.
Qed.

Lemma fexp_ge_emin a d : emin <= fexp a d.
Proof. unfold fexp. lia. Qed.

(** Above the subnormal range, [n/d] has its leading bit at position 52 of
    the scaled mantissa. *)
Lemma fexp_normal a d :
  0 < a -> 0 < d -> emin < fexp a d ->
  d * up (fexp a d + 52) <= a * down (fexp a d + 52).
Proof.
  intros Ha Hd H. unfold fexp, mant_bits in *.
  replace (Z.max emin (ilog2 a d - (53 - 1)) + 52) with (ilog2 a d) by lia.
  now apply ilog2_lower.
Qed.

Lemma fexp_upper a d :
  0 < a -> 0 < d -> a * down (fexp a d + 53) < d * up (fexp a d + 53).
Proof.
  intros Ha Hd.
  pose proof (ilog2_upper a d Ha Hd) as U.
  unfold fexp, mant_bits.
  destruct (Z.max_spec emin (ilog2 a d - (53 - 1))) as [[L ->]|[L ->]].
  - replace (ilog2 a d - (53 - 1) + 53) with (ilog2 a d + 1) by lia. exact U.
  - set (l := ilog2 a d + 1) in *. set (k := emin + 53 - l).
    assert (0 <= k) by (unfold k, l; lia).
    replace (emin + 53) with (l + k) by (unfold k; lia).
    pose proof (up_down_shift l k H) as S.
    pose proof (up_pos l). pose proof (down_pos l).
    pose proof (up_pos (l + k)). pose proof (down_pos (l + k)).
    assert (1 <= 2 ^ k) by (pose proof (Z.pow_pos_nonneg 2 k); lia).
    apply Z.mul_lt_mono_pos_r with (p := down l); [lia|].
    replace (d * up (l + k) * down l) with (d * (up (l + k) * down l)) by ring.
    rewrite S.
    assert (a * down l * down (l + k) < d * up l * down (l + k))
      by (apply Z.mul_lt_mono_pos_r; lia).
    assert (0 < d * up l * down (l + k)) by nia.
    replace (d * (2 ^ k * up l * down (l + k)))
      with (2 ^ k * (d * up l * down (l + k))) by ring.
    nia.
Qed.

Lemma mantissa_le a d M E :
  0 < a -> 0 < d -> 0 <= M < 2 ^ 53 -> emin <= E ->
  a * down E <= M * up E * d ->
  mantissa_of a d * up (fexp a d) * down E <= M * up E * down (fexp a d).
Proof.
  intros Ha Hd HM HE H. unfold mantissa_of.
  set (e := fexp a d).
  pose proof (up_pos e). pose proof (down_pos e).
  pose proof (up_pos E). pose proof (down_pos E).
  destruct (Z.le_gt_cases e E) as [C|C].
  - set (k := E - e).
    assert (S : up E * down e = 2 ^ k * up e * down E).
    { replace E with (e + k) by (unfold k; lia). apply up_down_shift. unfold k; lia. }
    assert (0 < 2 ^ k) by (apply Z.pow_pos_nonneg; unfold k; lia).
    assert (R : rne (a * down e) (d * up e) <= M * 2 ^ k).
    { apply rne_le; [nia|nia|].
      apply Z.mul_le_mono_pos_r with (p := down E); [lia|].
      replace (M * 2 ^ k * (d * up e) * down E)
        with (M * d * (2 ^ k * up e * down E)) by ring.
      rewrite <- S. nia. }
    replace (M * up E * down e) with (M * (up E * down e)) by ring.
    rewrite S.
    replace (M * (2 ^ k * up e * down E)) with (M * 2 ^ k * (up e * down E)) by ring.
    rewrite <- Z.mul_assoc.
    apply Z.mul_le_mono_nonneg_r; [nia|exact R].
  - exfalso.
    assert (N : emin < e) by lia.
    pose proof (fexp_normal a d Ha Hd N) as L. fold e in L.
    set (l := e + 52) in *. set (k := l - E).
    assert (53 <= k) by (unfold k, l; lia).
    assert (S : up l * down E = 2 ^ k * up E * down l).
    { replace l with (E + k) by (unfold k; lia). apply up_down_shift. lia. }
    pose proof (up_pos l). pose proof (down_pos l).
    assert (2 ^ 53 <= 2 ^ k) by (apply Z.pow_le_mono_r; lia).
    assert (Q : d * (up l * down E) <= M * up E * d * down l) by nia.
    rewrite S in Q.
    assert (P : 0 < d * up E * down l) by nia.
    replace (d * (2 ^ k * up E * down l)) with (2 ^ k * (d * up E * down l)) in Q by ring.
    replace (M * up E * d * down l) with (M * (d * up E * down l)) in Q by ring.
    assert (2 ^ k <= M) by (apply Z.mul_le_mono_pos_r with (p := d * up E * down l); lia).
    lia.
Qed.

Lemma mantissa_ge a d M E :
  0 < a -> 0 < d -> 0 <= M < 2 ^ 53 -> emin <= E ->
  M * up E * d <= a * down E ->
  M * up E * down (fexp a d) <= mantissa_of a d * up (fexp a d) * down E.
Proof.
  intros Ha Hd HM HE H. unfold mantissa_of.
  set (e := fexp a d).
  pose proof (up_pos e). pose proof (down_pos e).
  pose proof (up_pos E). pose proof (down_pos E).
  destruct (Z.le_gt_cases e E) as [C|C].
  - set (k := E - e).
    assert (S : up E * down e = 2 ^ k * up e * down E).
    { replace E with (e + k) by (unfold k; lia). apply up_down_shift. unfold k; lia. }
    assert (0 < 2 ^ k) by (apply Z.pow_pos_nonneg; unfold k; lia).
    assert (R : M * 2 ^ k <= rne (a * down e) (d * up e)).
    { apply rne_ge; [nia|nia|].
      apply Z.mul_le_mono_pos_r with (p := down E); [lia|].
      replace (M * 2 ^ k * (d * up e) * down E)
        with (M * d * (2 ^ k * up e * down E)) by ring.
      rewrite <- S. nia. }
    replace (M * up E * down e) with (M * (up E * down e)) by ring.
    rewrite S.
    replace (M * (2 ^ k * up e * down E)) with (M * 2 ^ k * (up e * down E)) by ring.
    rewrite <- (Z.mul_assoc _ (up e) (down E)).
    apply Z.mul_le_mono_nonneg_r; [nia|exact R].
  - assert (N : emin < e) by lia.
    pose proof (fexp_normal a d Ha Hd N) as L. fold e in L.
    assert (S52 : up (e + 52) * down e = 2 ^ 52 * up e * down (e + 52))
      by (apply up_down_shift; lia).
    pose proof (up_pos (e + 52)). pose proof (down_pos (e + 52)).
    assert (R : 2 ^ 52 <= rne (a * down e) (d * up e)).
    { apply rne_ge; [nia|nia|].
      apply Z.mul_le_mono_pos_r with (p := down (e + 52)); [lia|].
      replace (2 ^ 52 * (d * up e) * down (e + 52))
        with (d * (2 ^ 52 * up e * down (e + 52))) by ring.
      rewrite <- S52. nia. }
    set (k := e - E).
    assert (1 <= k) by (unfold k; lia).
    assert (S : up e * down E = 2 ^ k * up E * down e).
    { pose proof (up_down_shift E k ltac:(lia)) as T.
      replace (E + k) with e in T by (unfold k; lia). exact T. }
    assert (2 ^ 1 <= 2 ^ k) by (apply Z.pow_le_mono_r; lia).
    set (m := rne (a * down e) (d * up e)) in *.
    replace (m * up e * down E) with (m * (up e * down E)) by ring.
    rewrite S.
    assert (0 < up E * down e) by nia.
    assert (M <= m * 2 ^ k) by (change (2 ^ 1) with 2 in *; change (2^52) with 4503599627370496 in *; change (2^53) with 9007199254740992 in *; nia).
    nia.
Qed.

Lemma mantissa_nonneg a d : 0 < a -> 0 < d -> 0 <= mantissa_of a d.
Proof.
  intros Ha Hd. unfold mantissa_of.
  pose proof (up_pos (fexp a d)). pose proof (down_pos (fexp a d)).
  apply rne_ge; nia.
Qed.

Lemma mantissa_53 a d : 0 < a -> 0 < d -> mantissa_of a d <= 2 ^ 53.
Proof.
  intros Ha Hd. unfold mantissa_of.
  set (e := fexp a d).
  pose proof (up_pos e). pose proof (down_pos e).
  pose proof (fexp_upper a d Ha Hd) as U. fold e in U.
  pose proof (up_down_shift e 53 ltac:(lia)) as S.
  pose proof (up_pos (e + 53)). pose proof (down_pos (e + 53)).
  apply rne_le; [nia|nia|].
  apply Z.mul_le_mono_pos_r with (p := down (e + 53)); [lia|].
  replace (2 ^ 53 * (d * up e) * down (e + 53))
    with (d * (2 ^ 53 * up e * down (e + 53))) by ring.
  rewrite <- S. nia.
Qed.

(** [round] on a positive fraction, in terms of [mantissa_of] and [fexp]. *)
Lemma round_pos a d :
  0 < a ->
  round a d =
    if huge * down (fexp a d) <=? mantissa_of a d * up (fexp a d)
    then Inf false else Fin (mantissa_of a d) (fexp a d).
Proof.
  intros Ha. unfold round, mantissa_of.
  destruct (a =? 0) eqn:Z0; [apply Z.eqb_eq in Z0; lia|].
  rewrite (Z.abs_eq a) by lia.
  replace (a <? 0) with false by (symmetry; apply Z.ltb_ge; lia).
  rewrite (Z.sgn_pos a Ha), Z.mul_1_l. reflexivity.
Qed.

(** A fraction below a representable value rounds to a finite float that
    is still below it. *)
Lemma round_le a d M E :
  0 <= a -> 0 < d -> 0 <= M < 2 ^ 53 -> emin <= E ->
  M * up E < huge * down E ->
  a * down E <= M * up E * d ->
  exists m e, round a d = Fin m e /\ 0 <= m /\
              m * up e * down E <= M * up E * down e.
Proof.
  intros Ha Hd HM HE Hh H.
  pose proof (up_pos E). pose proof (down_pos E).
  destruct (Z.eq_dec a 0) as [->|Na].
  - exists 0, 0. cbn. split; [reflexivity|]. split; [lia|]. nia.
  - assert (Pa : 0 < a) by lia.
    pose proof (mantissa_le a d M E Pa Hd HM HE H) as L.
    pose proof (mantissa_nonneg a d Pa Hd) as P.
    rewrite (round_pos a d Pa).
    set (e := fexp a d) in *. set (m := mantissa_of a d) in *.
    pose proof (up_pos e). pose proof (down_pos e).
    destruct (huge * down e <=? m * up e) eqn:O.
    + exfalso. apply Z.leb_le in O.
      assert (m * up e * down E < huge * down E * down e) by nia.
      nia.
    + exists m, e. auto.
Qed.

(** A fraction above a representable value never rounds below it. *)
Lemma round_ge a d M E m e :
  0 <= a -> 0 < d -> 0 <= M < 2 ^ 53 -> emin <= E ->
  M * up E * d <= a * down E ->
  round a d = Fin m e ->
  M * up E * down e <= m * up e * down E.
Proof.
  intros Ha Hd HM HE H R.
  pose proof (up_pos E). pose proof (down_pos E).
  destruct (Z.eq_dec a 0) as [->|Na].
  - cbn in R. injection R as <- <-.
    assert (M * up E <= 0) by nia. cbn. nia.
  - assert (Pa : 0 < a) by lia.
    rewrite (round_pos a d Pa) in R.
    destruct (huge * down (fexp a d) <=? mantissa_of a d * up (fexp a d));
      [discriminate|].
    injection R as <- <-.
    now apply mantissa_ge.
Qed.

(** Every finite result of [round] has a 53-bit mantissa and an exponent
    in range: it is a float64. *)
Lemma round_representable a d m e :
  0 <= a -> 0 < d -> round a d = Fin m e ->
  0 <= m <= 2 ^ 53 /\ emin <= e.
Proof.
  intros Ha Hd R.
  destruct (Z.eq_dec a 0) as [->|Na].
  - cbn in R. injection R as <- <-. unfold emin. lia.
  - assert (Pa : 0 < a) by lia.
    rewrite (round_pos a d Pa) in R.
    destruct (huge * down (fexp a d) <=? mantissa_of a d * up (fexp a d));
      [discriminate|].
    injection R as <- <-.
    pose proof (mantissa_nonneg a d Pa Hd).
    pose proof (mantissa_53 a d Pa Hd).
    pose proof (fexp_ge_emin a d). lia.
Qed.

Lemma round_opp n d : round (- n) d = fneg (round n d).
Proof.
  unfold round.
  destruct (Z.eq_dec n 0) as [->|N]; [reflexivity|].
  replace (- n =? 0) with false by (symmetry; apply Z.eqb_neq; lia).
  replace (n =? 0) with false by (symmetry; apply Z.eqb_neq; lia).
  rewrite Z.abs_opp, Z.sgn_opp.
  destruct (huge * down (fexp (Z.abs n) d) <=? _).
  - cbn. f_equal. destruct (Z.ltb_spec n 0), (Z.ltb_spec (- n) 0); try reflexivity; lia.
  - cbn. f_equal. lia.
Qed.

Lemma huge_gt_64 : 2 ^ 64 < huge.
Proof. unfold huge. apply Z.pow_lt_mono_r; lia. Qed.

Lemma of_Z_exact z :
  0 <= z < 2 ^ 53 ->
  exists m e, of_Z z = Fin m e /\ 0 <= m /\ m * up e = z * down e.
Proof.
  intros Hz. unfold of_Z.
  pose proof huge_gt_64 as Hh.
  assert (2 ^ 53 < 2 ^ 64) by (apply Z.pow_lt_mono_r; lia).
  destruct (round_le z 1 z 0) as (m & e & R & P & L);
    try (unfold emin; change (up 0) with 1; change (down 0) with 1; lia).
  exists m, e. split; [exact R|]. split; [exact P|].
  pose proof (round_ge z 1 z 0 m e) as G.
  change (up 0) with 1 in *. change (down 0) with 1 in *.
  assert (z * 1 * down e <= m * up e * 1)
    by (apply G; unfold emin; try lia; exact R).
  lia.
Qed.

Lemma Seconds_nonneg d :
  0 <= d <= 2 ^ 63 ->
  exists m e,
    Duration.Seconds d = Fin m e /\
    (d / 1000000000) * down e <= m * up e /\
    m * up e <= (d / 1000000000 + 1) * down e /\
    (d / 1000000000 < 2 ^ 22 -> m * up e < (d / 1000000000 + 1) * down e).
Proof.
  intros Hd. unfold Duration.Seconds, Duration.Second.
  rewrite Z.quot_div_nonneg, Z.rem_mod_nonneg by lia.
  set (sec := d / 1000000000). set (nsec := d mod 1000000000).
  assert (Hn : 0 <= nsec < 1000000000) by (apply Z.mod_pos_bound; lia).
  assert (Hs : 0 <= sec < 2 ^ 34).
  { split; [apply Z.div_pos; lia|].
    apply Z.div_lt_upper_bound; [lia|].
    change (2 ^ 63) with 9223372036854775808 in Hd.
    change (2 ^ 34) with 17179869184. lia. }
  pose proof huge_gt_64 as Hh.
  change (2 ^ 64) with 18446744073709551616 in Hh.
  change (2 ^ 34) with 17179869184 in Hs.
  destruct (of_Z_exact nsec) as (mn & en & Rn & Pn & En);
    [change (2 ^ 53) with 9007199254740992; lia|].
  destruct (of_Z_exact sec) as (ms & es & Rs & Ps & Es);
    [change (2 ^ 53) with 9007199254740992; lia|].
  assert (Rc : of_Z 1000000000 = Fin 8388608000000000 (-23)) by (vm_compute; reflexivity).
  rewrite Rn, Rs, Rc.
  pose proof (down_pos en). pose proof (down_pos es).
  (* the fraction of a second *)
  assert (F : exists mf ef,
             div (Fin mn en) (Fin 8388608000000000 (-23)) = Fin mf ef /\ 0 <= mf /\
             mf * up ef * 1073741824 <= 1073741823 * down ef).
  { unfold div. change (8388608000000000 =? 0) with false. cbv iota.
    unfold num, den.
    change (Z.sgn 8388608000000000) with 1.
    change (down (-23)) with 8388608. change (up (-23)) with 1.
    change (Z.abs (8388608000000000 * 1)) with 8388608000000000.
    rewrite En.
    destruct (round_le (1 * (nsec * down en) * 8388608)
                (down en * 8388608000000000) 1073741823 (-30))
      as (mf & ef & R & P & L);
      try (unfold emin; change (up (-30)) with 1; change (down (-30)) with 1073741824;
           change (2 ^ 53) with 9007199254740992; nia).
    exists mf, ef. split; [exact R|]. split; [exact P|].
    change (up (-30)) with 1 in L. change (down (-30)) with 1073741824 in L. lia. }
  destruct F as (mf & ef & Rf & Pf & Lf). rewrite Rf.
  pose proof (down_pos ef). pose proof (up_pos ef).
  unfold add, num, den. rewrite Es.
  set (a := sec * down es * down ef + mf * up ef * down es).
  set (dd := down es * down ef).
  assert (0 <= a) by (unfold a; nia).
  assert (0 < dd) by (unfold dd; nia).
  destruct (round_le a dd (sec + 1) 0) as (m & e & R & P & L);
    try (unfold emin; change (up 0) with 1; change (down 0) with 1;
         change (2 ^ 53) with 9007199254740992; unfold a, dd; nia).
  exists m, e. split; [exact R|].
  pose proof (round_ge a dd sec 0 m e) as G.
  change (up 0) with 1 in *. change (down 0) with 1 in *.
  pose proof (down_pos e). pose proof (up_pos e).
  split; [|split].
  - assert (sec * 1 * down e <= m * up e * 1).
    { apply G;
        [lia | lia | change (2 ^ 53) with 9007199254740992; lia
        | unfold emin; lia | unfold a, dd; nia | exact R]. }
    lia.
  - lia.
  - intros Small. change (2 ^ 22) with 4194304 in Small.
    destruct (round_le a dd (sec * 1073741824 + 1073741823) (-30))
      as (m' & e' & R' & P' & L');
      try (unfold emin; change (up (-30)) with 1; change (down (-30)) with 1073741824;
           change (2 ^ 53) with 9007199254740992; unfold a, dd; nia).
    rewrite R in R'. injection R' as <- <-.
    change (up (-30)) with 1 in L'. change (down (-30)) with 1073741824 in L'.
    lia.
Qed.

End Float64Facts.

Import Float64 Float64Facts.

(* ===================================================================== *)
(** * Properties of strings *)
(* ===================================================================== *)

Lemma append_assoc (a b c : string) : (a ++ b) ++ c = a ++ (b ++ c).
Proof. induction a as [|x a IH]; cbn; [reflexivity|now rewrite IH]. Qed.

Lemma append_nil_r (a : string) : a ++ "" = a.
Proof. induction a as [|x a IH]; cbn; [reflexivity|now rewrite IH]. Qed.

Lemma length_append (a b : string) :
  String.length (a ++ b) = (String.length a + String.length b)%nat.
Proof. induction a as [|x a IH]; cbn; [reflexivity|now rewrite IH]. Qed.

Lemma drop_append (a b : string) : drop (String.length a) (a ++ b) = b.
Proof. induction a as [|x a IH]; cbn; [now destruct b|exact IH]. Qed.

Lemma take_append (a b : string) : take (String.length a) (a ++ b) = a.
Proof. induction a as [|x a IH]; cbn; [now destruct b|now rewrite IH]. Qed.

Lemma take_drop n (s : string) : take n s ++ drop n s = s.
Proof.
  revert s. induction n as [|n IH]; intros [|c s]; cbn; try reflexivity.
  now rewrite IH.
Qed.

Lemma length_drop n (s : string) :
  String.length (drop n s) = (String.length s - n)%nat.
Proof.
  revert s. induction n as [|n IH]; intros [|c s]; cbn; try reflexivity; auto.
Qed.

(* ===================================================================== *)
(** * HumanSize *)
(* ===================================================================== *)

(** Scaling a fraction does not change its nearest integer. *)
Lemma rne_scale n d k : 0 < d -> 0 < k -> rne (n * k) (d * k) = rne n d.
Proof.
  intros Hd Hk. unfold rne.
  rewrite Z.div_mul_cancel_r by lia.
  rewrite Z.mul_mod_distr_r by lia.
  destruct (Z.ltb_spec (2 * (n mod d)) d), (Z.ltb_spec (2 * (n mod d * k)) (d * k));
    try reflexivity; try nia.
  destruct (Z.ltb_spec d (2 * (n mod d))), (Z.ltb_spec (d * k) (2 * (n mod d * k)));
    try reflexivity; nia.
Qed.

Lemma rne_ratio n1 d1 n2 d2 :
  0 < d1 -> 0 < d2 -> n1 * d2 = n2 * d1 -> rne n1 d1 = rne n2 d2.
Proof.
  intros H1 H2 E.
  rewrite <- (rne_scale n1 d1 d2), <- (rne_scale n2 d2 d1) by lia.
  rewrite E. f_equal. ring.
Qed.

Lemma div_by_positive ma ea mb eb :
  0 < mb ->
  div (Fin ma ea) (Fin mb eb)
  = round (ma * up ea * down eb) (down ea * (mb * up eb)).
Proof.
  intros Hb. unfold div, num, den.
  replace (mb =? 0) with false by (symmetry; apply Z.eqb_neq; lia).
  rewrite (Z.sgn_pos mb Hb).
  pose proof (up_pos eb).
  rewrite (Z.abs_eq (mb * up eb)) by nia.
  f_equal. ring.
Qed.

(** [float64(bytes)/float64(2^k)] is finite, and exact as long as the
    byte count itself is a float64. *)
Lemma size_in_pow2 bytes k :
  0 <= bytes < 2 ^ 64 -> 0 <= k <= 40 ->
  exists m e,
    size_in bytes (2 ^ k) = Fin m e /\ 0 <= m /\
    (bytes < 2 ^ 53 -> m * up e * 2 ^ k = bytes * down e).
Proof.
  intros Hb Hk. unfold size_in.
  pose proof huge_gt_64 as Hh.
  assert (P53 : 2 ^ 53 < 2 ^ 64) by (apply Z.pow_lt_mono_r; lia).
  assert (Pk : 0 < 2 ^ k) by (apply Z.pow_pos_nonneg; lia).
  assert (Pk' : 2 ^ k < 2 ^ 53) by (apply Z.pow_lt_mono_r; lia).
  destruct (of_Z_exact (2 ^ k)) as (mu & eu & Ru & Pu & Eu); [lia|].
  pose proof (up_pos eu). pose proof (down_pos eu).
  assert (0 < mu) by nia.
  assert (B : exists mb eb, of_Z bytes = Fin mb eb /\ 0 <= mb /\
                mb * up eb <= 2 ^ 64 * down eb /\
                (bytes < 2 ^ 53 -> mb * up eb = bytes * down eb)).
  { destruct (Z.lt_ge_cases bytes (2 ^ 53)) as [S|L].
    - destruct (of_Z_exact bytes) as (mb & eb & R & P & E); [lia|].
      exists mb, eb. pose proof (down_pos eb).
      repeat split; auto; try lia. rewrite E. nia.
    - destruct (round_le bytes 1 1 64) as (mb & eb & R & P & U);
        try (unfold emin; change (up 64) with (2 ^ 64); change (down 64) with 1; lia).
      exists mb, eb. change (up 64) with (2 ^ 64) in U. change (down 64) with 1 in U.
      repeat split; auto; lia. }
  destruct B as (mb & eb & Rb & Pb & Ub & Eb).
  rewrite Rb, Ru, div_by_positive by lia.
  pose proof (up_pos eb). pose proof (down_pos eb).
  set (a := mb * up eb * down eu). set (d := down eb * (mu * up eu)).
  assert (0 <= a) by (unfold a; nia).
  assert (0 < d) by (unfold d; nia).
  destruct (round_le a d 1 64) as (m & e & R & P & U);
    try (unfold emin; change (up 64) with (2 ^ 64); change (down 64) with 1; lia).
  { change (up 64) with (2 ^ 64); change (down 64) with 1.
    unfold a, d. rewrite Eu. nia. }
  exists m, e. split; [exact R|]. split; [exact P|].
  intros S. specialize (Eb S).
  assert (Uk : up (- k) = 1).
  { unfold up. rewrite Z.max_r by lia. reflexivity. }
  assert (Dk : down (- k) = 2 ^ k).
  { unfold down. rewrite Z.max_l by lia. f_equal. lia. }
  destruct (round_le a d bytes (- k)) as (m' & e' & R' & _ & L);
    try (unfold emin; rewrite ?Uk, ?Dk; lia).
  { rewrite Uk, Dk. unfold a, d. rewrite Eu, Eb. lia. }
  rewrite R in R'. injection R' as <- <-.
  pose proof (round_ge a d bytes (- k) m e) as G.
  rewrite Uk, Dk in *.
  assert (bytes * 1 * down e <= m * up e * 2 ^ k).
  { apply G; try (unfold emin; lia); [|exact R].
    unfold a, d. rewrite Eu, Eb. lia. }
  lia.
Qed.

(** [%.1f] and [%.2f] of such a quotient. *)
Lemma fixed_size bytes k p :
  0 <= bytes < 2 ^ 64 -> 0 <= k <= 40 ->
  exists n,
    (bytes < 2 ^ 53 -> n = rne (bytes * 10 ^ Z.of_nat p) (2 ^ k)) /\
    fixed p (size_in bytes (2 ^ k))
    = Fmt.d (n / 10 ^ Z.of_nat p) ++ "." ++ Fmt.digits p n.
Proof.
  intros Hb Hk.
  destruct (size_in_pow2 bytes k Hb Hk) as (m & e & R & P & E).
  rewrite R. unfold fixed.
  exists (rne (m * up e * 10 ^ Z.of_nat p) (down e)).
  split; [|reflexivity].
  intros S. specialize (E S).
  assert (0 < 2 ^ k) by (apply Z.pow_pos_nonneg; lia).
  pose proof (down_pos e).
  apply rne_ratio; try lia.
  replace (m * up e * 10 ^ Z.of_nat p * 2 ^ k)
    with (m * up e * 2 ^ k * 10 ^ Z.of_nat p) by ring.
  rewrite E. ring.
Qed.

(** C3: [HumanSize] on an unsigned 64-bit count takes the largest unit
    the count reaches; below 1024 the count itself is printed; in KB, MB
    and GB the quotient rounded to one decimal digit, in TB to two (the
    rounding is to nearest, ties to even, of the exact quotient); 1024 is
    already ["1.0 KB"]. *)
Theorem human_size_units bytes :
  0 <= bytes < 2 ^ 64 ->
  (bytes < KB -> HumanSize bytes = Fmt.d bytes ++ " B") /\
  (KB <= bytes < MB ->
   let n := rne (bytes * 10) KB in
   HumanSize bytes = Fmt.d (n / 10) ++ "." ++ Fmt.digit (n mod 10) ++ " KB") /\
  (MB <= bytes < GB ->
   let n := rne (bytes * 10) MB in
   HumanSize bytes = Fmt.d (n / 10) ++ "." ++ Fmt.digit (n mod 10) ++ " MB") /\
  (GB <= bytes < TB ->
   let n := rne (bytes * 10) GB in
   HumanSize bytes = Fmt.d (n / 10) ++ "." ++ Fmt.digit (n mod 10) ++ " GB") /\
  (TB <= bytes ->
   exists n,
     (bytes < 2 ^ 53 -> n = rne (bytes * 100) TB) /\
     HumanSize bytes
     = Fmt.d (n / 100) ++ "." ++ Fmt.digit (n / 10 mod 10)
       ++ Fmt.digit (n mod 10) ++ " TB") /\
  HumanSize 0 = "0 B" /\ HumanSize 1023 = "1023 B" /\
  HumanSize 1024 = "1.0 KB" /\ HumanSize (1024 * 1024) = "1.0 MB".
Proof.
  intros Hb.
  change KB with 1024 in *. change MB with 1048576. change GB with 1073741824.
  change TB with 1099511627776.
  change (2 ^ 53) with 9007199254740992.
  split; [|split; [|split; [|split; [|split]]]].
  - intros S. unfold HumanSize.
    change KB with 1024 in *. change MB with 1048576. change GB with 1073741824.
    change TB with 1099511627776.
    repeat match goal with
           | |- context [?a <=? bytes] =>
               replace (a <=? bytes) with false by (symmetry; apply Z.leb_gt; lia)
           end.
    reflexivity.
  - intros S n. unfold HumanSize.
    change KB with 1024 in *. change MB with 1048576. change GB with 1073741824.
    change TB with 1099511627776.
    replace (1099511627776 <=? bytes) with false by (symmetry; apply Z.leb_gt; lia).
    replace (1073741824 <=? bytes) with false by (symmetry; apply Z.leb_gt; lia).
    replace (1048576 <=? bytes) with false by (symmetry; apply Z.leb_gt; lia).
    replace (1024 <=? bytes) with true by (symmetry; apply Z.leb_le; lia).
    destruct (fixed_size bytes 10 1 Hb ltac:(lia)) as (n' & V & F).
    change (2 ^ 10) with 1024 in *. rewrite F.
    change (2 ^ 53) with 9007199254740992 in V.
    rewrite (V ltac:(lia)). rewrite !append_assoc. reflexivity.
  - intros S n. unfold HumanSize.
    change KB with 1024 in *. change MB with 1048576. change GB with 1073741824.
    change TB with 1099511627776.
    replace (1099511627776 <=? bytes) with false by (symmetry; apply Z.leb_gt; lia).
    replace (1073741824 <=? bytes) with false by (symmetry; apply Z.leb_gt; lia).
    replace (1048576 <=? bytes) with true by (symmetry; apply Z.leb_le; lia).
    destruct (fixed_size bytes 20 1 Hb ltac:(lia)) as (n' & V & F).
    change (2 ^ 20) with 1048576 in *. rewrite F.
    change (2 ^ 53) with 9007199254740992 in V.
    rewrite (V ltac:(lia)). rewrite !append_assoc. reflexivity.
  - intros S n. unfold HumanSize.
    change KB with 1024 in *. change MB with 1048576. change GB with 1073741824.
    change TB with 1099511627776.
    replace (1099511627776 <=? bytes) with false by (symmetry; apply Z.leb_gt; lia).
    replace (1073741824 <=? bytes) with true by (symmetry; apply Z.leb_le; lia).
    destruct (fixed_size bytes 30 1 Hb ltac:(lia)) as (n' & V & F).
    change (2 ^ 30) with 1073741824 in *. rewrite F.
    change (2 ^ 53) with 9007199254740992 in V.
    rewrite (V ltac:(lia)). rewrite !append_assoc. reflexivity.
  - intros S. unfold HumanSize.
    change TB with 1099511627776.
    replace (1099511627776 <=? bytes) with true by (symmetry; apply Z.leb_le; lia).
    destruct (fixed_size bytes 40 2 Hb ltac:(lia)) as (n' & V & F).
    change (2 ^ 40) with 1099511627776 in *. rewrite F.
    exists n'. split; [exact V|]. rewrite !append_assoc. reflexivity.
  - repeat split; vm_compute; reflexivity.
Qed.

(** One and a half kilobytes. *)
Lemma human_size_units_witness : HumanSize 1536 = "1.5 KB".
Proof.
  destruct (human_size_units 1536) as (_ & H & _); [lia|].
  rewrite H; [reflexivity|]. vm_compute. split; [discriminate|reflexivity].
Defined.

(* ===================================================================== *)
(** * HumanDuration *)
(* ===================================================================== *)

(** Truncation of a finite value known between two integers. *)
Lemma trunc_between m e lo hi :
  0 <= lo ->
  lo * down e <= m * up e -> m * up e <= hi * down e ->
  lo <= trunc m e <= hi.
Proof.
  intros Hlo L U. unfold trunc.
  pose proof (down_pos e).
  rewrite Z.quot_div_nonneg by nia.
  split.
  - apply Z.div_le_lower_bound; lia.
  - apply Z.div_le_upper_bound; lia.
Qed.

Lemma trunc_exact m e lo :
  0 <= lo ->
  lo * down e <= m * up e -> m * up e < (lo + 1) * down e ->
  trunc m e = lo.
Proof.
  intros Hlo L U. unfold trunc.
  pose proof (down_pos e).
  rewrite Z.quot_div_nonneg by nia.
  symmetry. apply Z.div_unique with (r := m * up e - lo * down e); lia.
Qed.

Lemma trunc_opp m e : trunc (- m) e = - trunc m e.
Proof. unfold trunc. rewrite Z.mul_opp_l. apply Z.quot_opp_l. pose proof (down_pos e). lia. Qed.

(** [int64(d.Seconds())] for a non-negative duration: the whole seconds of
    [d], except that beyond [2^22] seconds the sum may round up to the next
    second. *)
Lemma whole_seconds_nonneg d :
  0 <= d <= 2 ^ 63 ->
  exists m e,
    Duration.Seconds d = Fin m e /\
    d / 1000000000 <= trunc m e <= d / 1000000000 + 1 /\
    (d / 1000000000 < 2 ^ 22 -> trunc m e = d / 1000000000).
Proof.
  intros Hd.
  destruct (Seconds_nonneg d Hd) as (m & e & R & L & U & T).
  assert (0 <= d / 1000000000) by (apply Z.div_pos; lia).
  exists m, e. split; [exact R|]. split.
  - apply trunc_between; lia.
  - intros S. apply trunc_exact; auto.
Qed.

Lemma div_fneg_l a b : div (fneg a) b = fneg (div a b).
Proof.
  destruct a as [|s|ma ea], b as [|t|mb eb]; try reflexivity.
  - cbn. now destruct s, (mb <? 0).
  - cbn [fneg]. unfold div, num, den.
    destruct (mb =? 0).
    + destruct (Z.eq_dec ma 0) as [->|N]; [reflexivity|].
      replace (- ma =? 0) with false by (symmetry; apply Z.eqb_neq; lia).
      replace (ma =? 0) with false by (symmetry; apply Z.eqb_neq; lia).
      cbn. f_equal.
      destruct (Z.ltb_spec ma 0), (Z.ltb_spec (- ma) 0); try reflexivity; lia.
    + rewrite <- round_opp. f_equal. ring.
Qed.

Lemma add_fneg a b : add (fneg a) (fneg b) = fneg (add a b).
Proof.
  destruct a as [|s|ma ea], b as [|t|mb eb]; try reflexivity.
  - cbn. now destruct s, t.
  - cbn [fneg]. unfold add, num, den. rewrite <- round_opp. f_equal. ring.
Qed.

Lemma Seconds_opp d : Duration.Seconds (- d) = fneg (Duration.Seconds d).
Proof.
  unfold Duration.Seconds, Duration.Second.
  rewrite Z.quot_opp_l, Z.rem_opp_l by lia.
  unfold of_Z at 1 2. rewrite !round_opp.
  fold (of_Z (Z.quot d 1000000000)). fold (of_Z (Z.rem d 1000000000)).
  rewrite div_fneg_l. apply add_fneg.
Qed.

(** The conversion [int64(d.Seconds())] is defined on every duration. *)
Lemma whole_seconds d :
  - 2 ^ 63 <= d < 2 ^ 63 ->
  exists secs,
    to_int64 (Duration.Seconds d) = Val secs /\
    (0 <= d -> d / 1000000000 <= secs <= d / 1000000000 + 1) /\
    (0 <= d -> d / 1000000000 < 2 ^ 22 -> secs = d / 1000000000) /\
    (d < 0 -> Z.quot d 1000000000 - 1 <= secs <= Z.quot d 1000000000) /\
    (d < 0 -> secs <= 0).
Proof.
  intros Hd.
  change (2 ^ 63) with 9223372036854775808 in Hd.
  destruct (Z.le_gt_cases 0 d) as [P|N].
  - destruct (whole_seconds_nonneg d) as (m & e & R & B & T);
      [change (2 ^ 63) with 9223372036854775808; lia|].
    exists (trunc m e). rewrite R. unfold to_int64, to_int.
    assert (d / 1000000000 < 9223372037).
    { apply Z.div_lt_upper_bound; lia. }
    assert (0 <= d / 1000000000) by (apply Z.div_pos; lia).
    replace ((- 2 ^ 63 <=? trunc m e) && (trunc m e <? 2 ^ 63)) with true.
    2:{ symmetry. apply andb_true_iff. split; [apply Z.leb_le|apply Z.ltb_lt];
        change (2 ^ 63) with 9223372036854775808; lia. }
    repeat split; lia.
  - destruct (whole_seconds_nonneg (- d)) as (m & e & R & B & T);
      [change (2 ^ 63) with 9223372036854775808; lia|].
    exists (- trunc m e).
    replace d with (- - d) at 1 by lia.
    rewrite Seconds_opp, R. unfold fneg, to_int64, to_int.
    rewrite trunc_opp.
    assert (- d / 1000000000 < 9223372037).
    { apply Z.div_lt_upper_bound; lia. }
    assert (0 <= - d / 1000000000) by (apply Z.div_pos; lia).
    replace ((- 2 ^ 63 <=? - trunc m e) && (- trunc m e <? 2 ^ 63)) with true.
    2:{ symmetry. apply andb_true_iff. split; [apply Z.leb_le|apply Z.ltb_lt];
        change (2 ^ 63) with 9223372036854775808; lia. }
    assert (Q : Z.quot d 1000000000 = - (- d / 1000000000)).
    { rewrite <- Z.quot_div_nonneg by lia. rewrite Z.quot_opp_l by lia. lia. }
    repeat split; lia.
Qed.

(** The digit of the tenths, as the code extracts it from the milliseconds. *)
Lemma tenths_of_millis d :
  0 <= d ->
  Z.quot (Z.rem (Duration.Milliseconds d) 1000) 100
  = d mod 1000000000 / 100000000.
Proof.
  intros Hd. unfold Duration.Milliseconds.
  rewrite (Z.quot_div_nonneg d) by lia.
  assert (0 <= d / 1000000) by (apply Z.div_pos; lia).
  rewrite Z.rem_mod_nonneg by lia.
  pose proof (Z.mod_pos_bound (d / 1000000) 1000 ltac:(lia)).
  rewrite Z.quot_div_nonneg by lia.
  pose proof (Z.div_mod d 1000000 ltac:(lia)) as E1.
  pose proof (Z.mod_pos_bound d 1000000 ltac:(lia)) as B1.
  pose proof (Z.div_mod (d / 1000000) 1000 ltac:(lia)) as E2.
  set (q := d / 1000000) in *. set (r := d mod 1000000) in *.
  set (q1 := q mod 1000) in *. set (q2 := q / 1000) in *.
  assert (M : d mod 1000000000 = 1000000 * q1 + r).
  { symmetry. apply Z.mod_unique with (q := q2); lia. }
  rewrite M.
  pose proof (Z.div_mod q1 100 ltac:(lia)) as E3.
  pose proof (Z.mod_pos_bound q1 100 ltac:(lia)) as B3.
  apply Z.div_unique with (r := 1000000 * (q1 mod 100) + r); lia.
Qed.

Lemma HumanDuration_eq d secs :
  to_int64 (Duration.Seconds d) = Val secs ->
  HumanDuration d = Some (render_duration d secs).
Proof. intros H. unfold HumanDuration. now rewrite H. Qed.

(** C4 on the code: the four bands of [HumanDuration] on a non-negative
    duration, in terms of its whole seconds [d / 10^9]: milliseconds when
    there is no whole second; seconds and one truncated tenth below a
    minute; minutes and seconds by truncated division below an hour; hours
    and minutes from there on; and the five boundary values.  The hours
    and minutes are those of the whole seconds as long as these are below
    [2^22].  From there on the second count of the code, which goes through
    the float64 sum of [d.Seconds()], is the whole seconds or one more:
    one nanosecond before 4660 hours 21 minutes the code prints
    ["4660h 21m"], where the whole seconds give ["4660h 20m"]. *)
Theorem human_duration_bands d :
  0 <= d < 2 ^ 63 ->
  let s := d / 1000000000 in
  (s = 0 -> HumanDuration d = Some (Fmt.d (d / 1000000) ++ "ms")) /\
  (0 < s < 60 ->
   HumanDuration d
   = Some (Fmt.d s ++ "." ++ Fmt.d (d mod 1000000000 / 100000000) ++ "s")) /\
  (60 <= s < 3600 ->
   HumanDuration d = Some (Fmt.d (s / 60) ++ "m " ++ Fmt.d (s mod 60) ++ "s")) /\
  (3600 <= s ->
   exists secs, s <= secs <= s + 1 /\ (s < 2 ^ 22 -> secs = s) /\
     HumanDuration d
     = Some (Fmt.d (secs / 3600) ++ "h " ++ Fmt.d (secs mod 3600 / 60) ++ "m")) /\
  HumanDuration (999 * Duration.Millisecond) = Some "999ms" /\
  HumanDuration (1000 * Duration.Millisecond) = Some "1.0s" /\
  HumanDuration (60 * Duration.Second) = Some "1m 0s" /\
  HumanDuration (3599 * Duration.Second) = Some "59m 59s" /\
  HumanDuration (3600 * Duration.Second) = Some "1h 0m" /\
  (HumanDuration 16777259999999999 = Some "4660h 21m" /\
   16777259999999999 / 1000000000 = 16777259 /\
   Fmt.d (16777259 / 3600) ++ "h " ++ Fmt.d (16777259 mod 3600 / 60) ++ "m"
   = "4660h 20m").
Proof.
  intros Hd s.
  destruct (whole_seconds d) as (secs & C & B & T & _); [lia|].
  specialize (B ltac:(lia)). specialize (T ltac:(lia)). fold s in B, T.
  rewrite (HumanDuration_eq d secs C).
  assert (Hs : 0 <= s) by (apply Z.div_pos; lia).
  change (2 ^ 22) with 4194304 in *.
  split; [|split; [|split; [|split]]].
  - intros S0. rewrite T by lia. unfold render_duration. rewrite S0. cbn [Z.eqb].
    unfold Duration.Milliseconds. now rewrite Z.quot_div_nonneg by lia.
  - intros S1. rewrite T by lia. unfold render_duration.
    replace (s =? 0) with false by (symmetry; apply Z.eqb_neq; lia).
    replace (s <? 60) with true by (symmetry; apply Z.ltb_lt; lia).
    now rewrite tenths_of_millis by lia.
  - intros S2. rewrite T by lia. unfold render_duration.
    replace (s =? 0) with false by (symmetry; apply Z.eqb_neq; lia).
    replace (s <? 60) with false by (symmetry; apply Z.ltb_ge; lia).
    replace (s <? 3600) with true by (symmetry; apply Z.ltb_lt; lia).
    now rewrite Z.quot_div_nonneg, Z.rem_mod_nonneg by lia.
  - intros S3. exists secs. split; [lia|]. split; [exact T|].
    unfold render_duration.
    replace (secs =? 0) with false by (symmetry; apply Z.eqb_neq; lia).
    replace (secs <? 60) with false by (symmetry; apply Z.ltb_ge; lia).
    replace (secs <? 3600) with false by (symmetry; apply Z.ltb_ge; lia).
    rewrite (Z.rem_mod_nonneg secs) by lia.
    pose proof (Z.mod_pos_bound secs 3600 ltac:(lia)).
    now rewrite !Z.quot_div_nonneg by lia.
  - repeat split; vm_compute; reflexivity.
Qed.

(** The seconds band at five and a half seconds. *)
Lemma human_duration_bands_witness :
  HumanDuration 5500000000 = Some "5.5s".
Proof.
  destruct (human_duration_bands 5500000000) as (_ & H & _); [lia|].
  rewrite H; [reflexivity|]. vm_compute. split; reflexivity.
Defined.

(** Beyond [2^22] seconds the sum in [Seconds] can round up to the next
    second: one nanosecond before 4660 h 21 min is printed as 21 minutes. *)
Example human_duration_rounds_up :
  HumanDuration 16777259999999999 = Some "4660h 21m"
  /\ 16777259999999999 / 1000000000 = 16777259
  /\ 16777259 / 3600 = 4660 /\ 16777259 mod 3600 / 60 = 20.
Proof. repeat split; vm_compute; reflexivity. Qed.

(** C10: [HumanDuration] is defined on every duration, negative ones
    included; on a strictly negative duration the second count of the code
    is never positive, so that whenever it is not zero the seconds band is
    taken, with the (negative) second count and the (non-positive) tenths
    of the truncated milliseconds: ["-90.0s"] for minus ninety seconds,
    ["-5.-5s"] for minus five and a half. *)
Theorem human_duration_negative :
  (forall d, Duration.in_range d -> exists out, HumanDuration d = Some out) /\
  (forall d, - 2 ^ 63 <= d < 0 ->
     exists secs,
       to_int64 (Duration.Seconds d) = Val secs /\
       Z.quot d 1000000000 - 1 <= secs <= Z.quot d 1000000000 /\
       secs <= 0 /\
       (secs <> 0 ->
        HumanDuration d
        = Some (Fmt.d secs ++ "."
                ++ Fmt.d (Z.quot (Z.rem (Z.quot d 1000000) 1000) 100) ++ "s"))) /\
  HumanDuration (-90 * Duration.Second) = Some "-90.0s" /\
  HumanDuration (-5500 * Duration.Millisecond) = Some "-5.-5s".
Proof.
  split; [|split; [|split; vm_compute; reflexivity]].
  - intros d Hd. destruct (whole_seconds d Hd) as (secs & C & _).
    rewrite (HumanDuration_eq d secs C). eauto.
  - intros d Hd.
    destruct (whole_seconds d) as (secs & C & _ & _ & B & N); [lia|].
    exists secs. split; [exact C|]. split; [lia|]. split; [lia|].
    intros NZ. rewrite (HumanDuration_eq d secs C). unfold render_duration.
    replace (secs =? 0) with false by (symmetry; apply Z.eqb_neq; lia).
    replace (secs <? 60) with true by (symmetry; apply Z.ltb_lt; lia).
    reflexivity.
Qed.

(** Minus ninety seconds and one nanosecond. *)
Lemma human_duration_negative_witness :
  HumanDuration (-90000000001) = Some "-90.0s".
Proof.
  destruct human_duration_negative as (_ & H & _).
  destruct (H (-90000000001)) as (secs & C & _ & _ & R); [lia|].
  assert (E : secs = -90) by (vm_compute in C; congruence).
  subst secs. rewrite R; [reflexivity|lia].
Defined.

(* ===================================================================== *)
(** * TruncatePath *)
(* ===================================================================== *)

Lemma rune_count_ascii s :
  is_ascii s = true -> Utf8.rune_count s = String.length s.
Proof.
  induction s as [|c s IH]; cbn; [reflexivity|].
  intros H. apply andb_true_iff in H as [Hc Hs].
  unfold Utf8.is_continuation. unfold is_ascii_byte in Hc.
  apply Z.ltb_lt in Hc.
  replace (128 <=? code c) with false by (symmetry; apply Z.leb_gt; lia).
  cbn. now rewrite IH.
Qed.

Lemma last_runes_ascii k s :
  is_ascii s = true -> Utf8.last_runes k s = last_bytes k s.
Proof.
  unfold last_bytes.
  induction s as [|c s IH]; intros H; [reflexivity|].
  pose proof (rune_count_ascii _ H) as RC.
  cbn [Utf8.last_runes]. rewrite RC.
  cbn in H. apply andb_true_iff in H as [Hc Hs].
  unfold Utf8.is_continuation. unfold is_ascii_byte in Hc.
  apply Z.ltb_lt in Hc.
  replace (128 <=? code c) with false by (symmetry; apply Z.leb_gt; lia).
  cbn [andb negb].
  destruct (Nat.leb_spec (String.length (String c s)) k) as [L|L].
  - replace (String.length (String c s) - k)%nat with O by lia. reflexivity.
  - rewrite (IH Hs). cbn [String.length] in *.
    replace (S (String.length s) - k)%nat with (S (String.length s - k)) by lia.
    reflexivity.
Qed.

Lemma length_last_bytes k s :
  (k <= String.length s)%nat -> String.length (last_bytes k s) = k.
Proof. intros H. unfold last_bytes. rewrite length_drop. lia. Qed.

(** C2, as the code has it: lengths are counted in bytes.  A path of at
    most [maxLen] bytes is returned unchanged (so [TruncatePath p (len p)]
    is [p]); a longer one becomes ["..."] when [maxLen <= 3], and otherwise
    ["..."] followed by its last [maxLen - 3] bytes, [maxLen] bytes in
    all.  On a path of 7-bit characters bytes and characters coincide, and
    the contract in characters holds. *)
Theorem truncate_path_bytes p maxLen :
  (len p <= maxLen -> TruncatePath p maxLen = p) /\
  (maxLen < len p -> maxLen <= 3 -> TruncatePath p maxLen = "...") /\
  (maxLen < len p -> 3 < maxLen ->
   TruncatePath p maxLen = "..." ++ last_bytes (Z.to_nat (maxLen - 3)) p /\
   len (TruncatePath p maxLen) = maxLen) /\
  TruncatePath p (len p) = p /\
  (is_ascii p = true -> truncate_path_by_characters p maxLen).
Proof.
  assert (A : len p <= maxLen -> TruncatePath p maxLen = p).
  { intros H. unfold TruncatePath.
    now replace (len p <=? maxLen) with true by (symmetry; apply Z.leb_le; lia). }
  assert (B : maxLen < len p -> maxLen <= 3 -> TruncatePath p maxLen = "...").
  { intros H H3. unfold TruncatePath.
    replace (len p <=? maxLen) with false by (symmetry; apply Z.leb_gt; lia).
    now replace (maxLen <=? 3) with true by (symmetry; apply Z.leb_le; lia). }
  assert (C : maxLen < len p -> 3 < maxLen ->
              TruncatePath p maxLen = "..." ++ last_bytes (Z.to_nat (maxLen - 3)) p).
  { intros H H3. unfold TruncatePath.
    replace (len p <=? maxLen) with false by (symmetry; apply Z.leb_gt; lia).
    replace (maxLen <=? 3) with false by (symmetry; apply Z.leb_gt; lia).
    unfold slice_from, last_bytes, len in *. do 2 f_equal. lia. }
  split; [exact A|]. split; [exact B|]. split; [|split].
  - intros H H3. split; [now apply C|].
    rewrite (C H H3). unfold len in *. rewrite length_append, length_last_bytes by lia.
    cbn [String.length]. lia.
  - unfold TruncatePath. now rewrite Z.leb_refl.
  - intros Hp. unfold truncate_path_by_characters.
    rewrite (rune_count_ascii p Hp), (last_runes_ascii _ p Hp).
    fold (len p). cbv zeta. auto.
Qed.

(** The example of the documentation. *)
Lemma truncate_path_bytes_witness :
  TruncatePath "/very/long/path/to/file.txt" 15 = ".../to/file.txt".
Proof.
  destruct (truncate_path_bytes "/very/long/path/to/file.txt" 15)
    as (_ & _ & H & _).
  destruct H as [H _]; [vm_compute; reflexivity | lia |].
  rewrite H. reflexivity.
Defined.

(** C2 as stated fails: a path of seven characters and thirteen bytes is
    cut although it fits in eight characters, and the cut falls inside the
    third character. *)
Lemma truncate_path_splits_characters :
  ~ (forall p maxLen, truncate_path_by_characters p maxLen).
Proof.
  intros H. destruct (H "日本語.txt" 8) as (H1 & _).
  assert (E : TruncatePath "日本語.txt" 8 = "日本語.txt")
    by (apply H1; vm_compute; discriminate).
  vm_compute in E. discriminate E.
Qed.

Example truncate_path_cut_inside_character :
  TruncatePath "日本語.txt" 8 = "..." ++ String (ascii_of_nat 158) ".txt"
  /\ Utf8.rune_count "日本語.txt" = 7%nat
  /\ Utf8.is_continuation (ascii_of_nat 158) = true.
Proof. repeat split. Qed.

(* ===================================================================== *)
(** * The color flag *)
(* ===================================================================== *)

(** C6: the precedence of the initialisation of the color flag:
    a non-empty [NO_COLOR] switches colors off whatever else is set; else
    a true [CLICOLOR_FORCE] switches them on, terminal or not; else
    [CLICOLOR] decides, off for ["0"] and on for any other value; else
    colors are on exactly when the output stream is a terminal. *)
Theorem color_init_precedence (truthy : string -> bool) (e : ColorState.env) :
  let init := ColorState.init truthy in
  let no_color := ColorState.non_empty (ColorState.NO_COLOR e) in
  let force := ColorState.forced truthy (ColorState.CLICOLOR_FORCE e) in
  (no_color = true -> init e = false) /\
  (no_color = false -> force = true -> init e = true) /\
  (no_color = false -> force = false ->
   forall v, ColorState.CLICOLOR e = Some v ->
             init e = negb (String.eqb v "0")) /\
  (no_color = false -> force = false -> ColorState.CLICOLOR e = None ->
   init e = ColorState.is_terminal e).
Proof.
  cbv zeta. unfold ColorState.init.
  repeat split; intros.
  - now rewrite H.
  - now rewrite H, H0.
  - now rewrite H, H0, H1.
  - now rewrite H, H0, H1.
Qed.

(** [NO_COLOR=1] beats [CLICOLOR_FORCE=1] on a terminal. *)
Lemma color_init_precedence_witness :
  ColorState.init (fun v => negb (String.eqb v "0"))
    {| ColorState.NO_COLOR := Some "1"%string;
       ColorState.CLICOLOR_FORCE := Some "1"%string;
       ColorState.CLICOLOR := None;
       ColorState.is_terminal := true |} = false.
Proof.
  refine (proj1 (color_init_precedence _ _) _). reflexivity.
Defined.

(* ===================================================================== *)
(** * Spinners, bars and messages on the terminal *)
(* ===================================================================== *)

Local Open Scope list_scope.

Lemma no_frame_after_text_app l l' :
  existsb is_text l = false ->
  no_frame_after_text (l ++ l') = no_frame_after_text l'.
Proof.
  induction l as [|e l IH]; cbn; [reflexivity|].
  intros H. apply orb_false_iff in H as [He Hl].
  rewrite He. auto.
Qed.

Lemma no_text_no_frame_after l :
  existsb is_text l = false -> no_frame_after_text l = true.
Proof.
  intros H. rewrite <- (app_nil_r l). now rewrite no_frame_after_text_app.
Qed.

Lemma final_line_is_text f msg w : is_text (final_line f msg w) = true.
Proof. now destruct f. Qed.

Lemma final_line_on_stream f msg w : on_stream f (final_line f msg w).
Proof. now destruct f. Qed.

Lemma spinner_inv_start f tty prefix msg0 w0 :
  spinner_inv f w0 (start tty prefix msg0 w0).
Proof.
  unfold spinner_inv, start; cbn.
  refine (conj _ (conj _ (conj _ (conj _ _))));
    try (destruct tty; intuition discriminate).
  exists nil. rewrite app_nil_r. repeat split; auto.
Qed.

Ltac spinner_side :=
  refine (conj _ (conj _ (conj _ (conj _ _)))); try (intuition congruence).

Lemma spinner_inv_step f msg w0 s s' :
  spinner_inv f w0 s -> step f msg s s' -> spinner_inv f w0 s'.
Proof.
  intros (Ht & Hm & Hd & Ha & l & Hl & Hn & Hf & Hs) St.
  destruct St; unfold spinner_inv, with_ticker, with_main, UpdateMessage; cbn.
  - (* t_stop_received *) spinner_side. exists l. auto.
  - (* t_lock *) spinner_side. exists l. auto.
  - (* t_inactive *) spinner_side. exists l. auto.
  - (* t_active *) spinner_side. exists l. auto.
  - (* t_draw *)
    assert (A : active s = true) by auto.
    assert (N : mpc s <> MFinished) by (intros M; rewrite Ha in A by auto; discriminate).
    assert (N' : mpc s <> MStopped) by (intros M; rewrite Ha in A by auto; discriminate).
    spinner_side.
    exists (l ++ [(Stdout, SpinnerErase); (Stdout, SpinnerFrame (Prefix s) (glyph s) (Suffix s))]).
    rewrite Hl, <- !app_assoc. cbn [app].
    split; [reflexivity|]. split; [|split].
    + intros _. rewrite existsb_app, (Hn N). reflexivity.
    + rewrite no_frame_after_text_app by auto. reflexivity.
    + apply Forall_app. split; [exact Hs|]. repeat (constructor; try reflexivity).
  - (* t_wake *) spinner_side. exists l. auto.
  - (* m_update *)
    spinner_side. exists l.
    split; [auto|]. split; [|split]; auto.
    intros _. apply Hn. congruence.
  - (* m_set_color *) spinner_side. exists l. auto.
  - (* m_stop_lock *)
    spinner_side. exists l.
    split; [auto|]. split; [|split]; auto.
    intros _. apply Hn. congruence.
  - (* m_stop_active *)
    specialize (Hm H). spinner_side.
    exists (l ++ [(Stdout, SpinnerErase)]).
    rewrite Hl, <- !app_assoc. cbn [app].
    split; [reflexivity|]. split; [|split].
    + intros _. rewrite existsb_app, Hn by congruence. reflexivity.
    + rewrite no_frame_after_text_app by (apply Hn; congruence). reflexivity.
    + apply Forall_app. split; [exact Hs|]. repeat (constructor; try reflexivity).
  - (* m_stop_idle *)
    specialize (Hm H). spinner_side.
    exists l. split; [auto|]. split; [|split]; auto.
    intros _. apply Hn. congruence.
  - (* m_final *)
    spinner_side.
    exists (l ++ [final_line f msg (term s)]).
    rewrite Hl, <- !app_assoc.
    split; [reflexivity|]. split; [|split].
    + congruence.
    + rewrite no_frame_after_text_app by (apply Hn; congruence).
      cbn. now rewrite final_line_is_text.
    + apply Forall_app. split; [exact Hs|].
      constructor; [apply final_line_on_stream|constructor].
Qed.

Lemma spinner_inv_steps f msg w0 s s' :
  spinner_inv f w0 s -> steps f msg s s' -> spinner_inv f w0 s'.
Proof.
  intros I St. induction St as [s|s1 s2 s3 St IH Last]; [exact I|].
  apply (spinner_inv_step f msg w0 s2 s3); auto.
Qed.

(** C8: in every execution of a spinner and of its caller, from the start
    of the spinner through one finishing call, no frame is drawn after the
    final line: among the writes since the start no spinner frame follows
    the text of the finishing call; and from the moment [Stop] has
    returned, hence before the final line is written, the spinner is
    inactive and its goroutine is outside the section that draws. *)
Theorem spinner_finish_is_barrier f msg tty prefix msg0 w0 s :
  steps f msg (start tty prefix msg0 w0) s ->
  (exists l, out (term s) = out w0 ++ l /\ no_frame_after_text l = true) /\
  (mpc s = MStopped \/ mpc s = MFinished -> active s = false /\ tpc s <> TDraw).
Proof.
  intros St.
  pose proof (spinner_inv_steps f msg w0 _ s (spinner_inv_start f tty prefix msg0 w0) St)
    as (Ht & Hm & Hd & Ha & l & Hl & Hn & Hf & Hs).
  split; [exists l; auto|].
  intros M. pose proof (Ha M) as A.
  assert (D : tpc s <> TDraw) by (intros T; rewrite (Hd T) in A; discriminate).
  auto.
Qed.

Lemma steps_cons f msg s1 s2 s3 :
  step f msg s1 s2 -> steps f msg s2 s3 -> steps f msg s1 s3.
Proof.
  intros S St. induction St as [s|s2 s3 s4 St IH Last].
  - eapply steps_more; [apply steps_refl|exact S].
  - eapply steps_more; [apply IH; exact S|exact Last].
Qed.

(** A run with one frame drawn, then [Success]. *)
Lemma one_frame_then_success :
  exists s,
    steps FSuccess "done" (start true "" "work" {| NoColor := false; out := [] |}) s /\
    mpc s = MFinished /\
    map fst (out (term s)) = [Stdout; Stdout; Stdout; Stdout].
Proof.
  eexists. split; [|split].
  - eapply steps_cons; [apply t_lock; reflexivity|].
    eapply steps_cons; [apply t_active; reflexivity|].
    eapply steps_cons; [apply t_draw; reflexivity|].
    eapply steps_cons; [apply m_stop_lock; reflexivity|].
    eapply steps_cons; [apply m_stop_active; reflexivity|].
    eapply steps_cons; [apply m_final; reflexivity|].
    apply steps_refl.
  - reflexivity.
  - reflexivity.
Defined.

Lemma spinner_finish_is_barrier_witness :
  exists s,
    steps FSuccess "done" (start true "" "work" {| NoColor := false; out := [] |}) s /\
    mpc s = MFinished /\ active s = false.
Proof.
  destruct one_frame_then_success as (s & St & M & _).
  exists s. split; [exact St|]. split; [exact M|].
  exact (proj1 (proj2 (spinner_finish_is_barrier _ _ _ _ _ _ _ St) (or_intror M))).
Defined.

Lemma wrote_write st o w : wrote w (write st o w) [st].
Proof. exists [(st, o)]. split; reflexivity. Qed.

Lemma wrote_trans w1 w2 w3 a b :
  wrote w1 w2 a -> wrote w2 w3 b -> wrote w1 w3 (a ++ b).
Proof.
  intros (l1 & E1 & M1) (l2 & E2 & M2).
  exists (l1 ++ l2). split.
  - now rewrite E2, E1, <- app_assoc.
  - subst a b. apply map_app.
Qed.

Lemma library_draws_on_writer b w w' :
  library_draws b w w' -> wrote_on w w' (bar_writer b).
Proof.
  intros (_ & l & E & D). exists l. split; [exact E|].
  apply Forall_forall. intros e I.
  rewrite forallb_forall in D. specialize (D e I).
  unfold is_bar_drawing in D.
  destruct e as [st o]; cbn [fst snd] in *.
  destruct o; try discriminate; now destruct st, (bar_writer b).
Qed.

Lemma final_line_stream f msg w :
  fst (final_line f msg w) = if is_error f then Stderr else Stdout.
Proof. now destruct f. Qed.

Lemma bar_finish_line_streams f msg b w w' :
  bar_finish_line f msg b w w' ->
  exists w1, wrote_on w w1 (bar_writer b) /\
             out w' = out w1 ++ [final_line f msg w1] /\
             fst (final_line f msg w1) = if is_error f then Stderr else Stdout.
Proof.
  intros (w1 & D & ->). exists w1.
  split; [now apply library_draws_on_writer|].
  split; [reflexivity|apply final_line_stream].
Qed.

(** The trace of a spinner, along every execution. *)
Lemma spinner_trace_start f final tty prefix msg0 w0 :
  spinner_trace f final w0 (start tty prefix msg0 w0).
Proof. exists []. cbn. split; [now rewrite app_nil_r|constructor]. Qed.

Lemma spinner_trace_step f final w0 s s' :
  spinner_inv f w0 s -> spinner_trace f final w0 s -> step f final s s' ->
  spinner_trace f final w0 s'.
Proof.
  intros (_ & _ & Hd & Ha & _) (l & Hl & T) St.
  destruct St; unfold spinner_trace, with_ticker, with_main; cbn;
    try (exists l; split; [exact Hl|exact T]).
  - (* t_draw *)
    assert (A : active s = true) by auto.
    assert (N : mpc s <> MFinished)
      by (intros M; rewrite Ha in A by auto; discriminate).
    exists (l ++ [(Stdout, SpinnerErase);
                  (Stdout, SpinnerFrame (Prefix s) (glyph s) (Suffix s))]).
    rewrite Hl, <- !app_assoc. cbn [app]. split; [reflexivity|].
    assert (F : Forall (fun e => fst e = Stdout)
                  (l ++ [(Stdout, SpinnerErase);
                         (Stdout, SpinnerFrame (Prefix s) (glyph s) (Suffix s))])).
    { apply Forall_app. split; [|repeat constructor].
      destruct (mpc s); try exact T. contradiction. }
    destruct (mpc s); try exact F. contradiction.
  - (* m_update *) exists l. split; [exact Hl|]. now rewrite H in T.
  - (* m_stop_lock *) exists l. split; [exact Hl|]. now rewrite H in T.
  - (* m_stop_active *)
    exists (l ++ [(Stdout, SpinnerErase)]).
    rewrite Hl, <- !app_assoc. split; [reflexivity|].
    rewrite H in T. apply Forall_app. split; [exact T|repeat constructor].
  - (* m_stop_idle *) exists l. split; [exact Hl|]. now rewrite H in T.
  - (* m_final *)
    exists (l ++ [final_line f final (term s)]).
    rewrite Hl, <- !app_assoc. split; [reflexivity|].
    rewrite H in T. exists l, (term s). split; [reflexivity|exact T].
Qed.

Lemma spinner_trace_steps f final tty prefix msg0 w0 s :
  steps f final (start tty prefix msg0 w0) s ->
  spinner_inv f w0 s /\ spinner_trace f final w0 s.
Proof.
  intros St.
  remember (start tty prefix msg0 w0) as s0 eqn:E.
  induction St as [s|s1 s2 s3 St IH Last].
  - subst s. split; [apply spinner_inv_start|apply spinner_trace_start].
  - destruct (IH E) as (I & T). split.
    + exact (spinner_inv_step f final w0 s2 s3 I Last).
    + exact (spinner_trace_step f final w0 s2 s3 I T Last).
Qed.

(** C9: every write of the message, layout, spinner and bar operations is
    on standard output, except the line of an [Error] operation, which is
    written on standard error.  The messages and the layout operations
    write what the lists say, also when a layout operation panics.  In
    every execution of a spinner each write is on its stream, and once the
    finishing call has returned the writes are those of the spinner, all
    on standard output, followed by the final line, which is on standard
    error for [Error] and on standard output otherwise; and every spinner
    has an execution that finishes.  A bar made by
    [Bar] has standard output for its writer, so that whatever the library
    draws for it is on standard output; [Success] and [Error] of a bar
    write their line after it, on standard output and on standard
    error. *)
Theorem output_streams :
  (forall v msg w,
     wrote w (Messages.Info v msg w) [Stdout] /\
     wrote w (Messages.Success v msg w) [Stdout] /\
     wrote w (Messages.Warn v msg w) [Stdout] /\
     wrote w (Messages.Dim v msg w) [Stdout] /\
     wrote w (Messages.Error v msg w) [Stderr]) /\
  (forall a b n k w,
     match Layout.Header a w with
     | Layout.Returned w' => wrote w w' [Stdout; Stdout; Stdout]
     | Layout.Panicked w' => wrote w w' [Stdout; Stdout]
     end /\
     wrote w (Layout.Section a w) [Stdout; Stdout] /\
     wrote w (Layout.KV a b w) [Stdout] /\
     wrote w (Layout.Step n k a w) [Stdout] /\
     wrote w (Layout.Blank w) [Stdout] /\
     match Layout.Divider n w with
     | Layout.Returned w' => wrote w w' [Stdout]
     | Layout.Panicked w' => wrote w w' []
     end /\
     match Layout.Indent n a w with
     | Layout.Returned w' => wrote w w' [Stdout]
     | Layout.Panicked w' => wrote w w' []
     end) /\
  (forall f msg tty prefix msg0 w0 s,
     steps f msg (start tty prefix msg0 w0) s ->
     (exists l, out (term s) = out w0 ++ l /\ Forall (on_stream f) l) /\
     (mpc s = MFinished ->
      exists l0 w1,
        out (term s) = out w0 ++ l0 ++ [final_line f msg w1] /\
        Forall (fun e => fst e = Stdout) l0 /\
        fst (final_line f msg w1) = if is_error f then Stderr else Stdout)) /\
  (forall f msg tty prefix msg0 w0,
     exists s, steps f msg (start tty prefix msg0 w0) s /\ mpc s = MFinished) /\
  (forall msg n total prefix w w',
     let b := Bar total prefix in
     (BarAdd n b w w' -> wrote_on w w' Stdout) /\
     (BarSet n b w w' -> wrote_on w w' Stdout) /\
     (BarClear b w w' -> wrote_on w w' Stdout) /\
     (BarSuccess msg b w w' ->
      exists w1, wrote_on w w1 Stdout /\
                 out w' = out w1 ++ [final_line FSuccess msg w1] /\
                 fst (final_line FSuccess msg w1) = Stdout) /\
     (BarError msg b w w' ->
      exists w1, wrote_on w w1 Stdout /\
                 out w' = out w1 ++ [final_line FError msg w1] /\
                 fst (final_line FError msg w1) = Stderr)) /\
  (forall name sp w, wrote w (snd (Skip name sp w)) [Stdout]).
Proof.
  split; [|split; [|split; [|split; [|split]]]].
  - intros. repeat split; apply wrote_write.
  - intros a b n k w.
    assert (W0 : forall x, wrote x x []).
    { intros x. exists []. split; [now rewrite app_nil_r|reflexivity]. }
    split; [|split; [|split; [|split; [|split; [|split]]]]];
      try apply wrote_write.
    + unfold Layout.Header, Layout.Println.
      destruct (Repeat "─" (len a)).
      * eapply (wrote_trans _ _ _ [Stdout; Stdout] [Stdout]); [|apply wrote_write].
        eapply (wrote_trans _ _ _ [Stdout] [Stdout]); apply wrote_write.
      * eapply (wrote_trans _ _ _ [Stdout] [Stdout]); apply wrote_write.
    + unfold Layout.Section, Layout.Println.
      eapply (wrote_trans _ _ _ [Stdout] [Stdout]); apply wrote_write.
    + unfold Layout.Divider. destruct (Repeat "─" n); [apply wrote_write|apply W0].
    + unfold Layout.Indent. destruct (Repeat "  " n); [apply wrote_write|apply W0].
  - intros f msg tty prefix msg0 w0 s St.
    destruct (spinner_trace_steps f msg tty prefix msg0 w0 s St) as (I & l & Hl & T).
    destruct I as (_ & _ & _ & _ & l' & Hl' & _ & _ & Hs).
    split; [exists l'; auto|].
    intros M. rewrite M in T. destruct T as (l0 & w1 & -> & F).
    exists l0, w1. split; [exact Hl|]. split; [exact F|apply final_line_stream].
  - intros f msg tty prefix msg0 w0. destruct tty; eexists; split.
    + eapply steps_cons; [apply m_stop_lock; reflexivity|].
      eapply steps_cons; [apply m_stop_active; reflexivity|].
      eapply steps_cons; [apply m_final; reflexivity|].
      apply steps_refl.
    + reflexivity.
    + eapply steps_cons; [apply m_stop_lock; reflexivity|].
      eapply steps_cons; [apply m_stop_idle; reflexivity|].
      eapply steps_cons; [apply m_final; reflexivity|].
      apply steps_refl.
    + reflexivity.
  - intros m n total prefix w w' b.
    split; [|split; [|split; [|split]]];
      try (intros D; exact (library_draws_on_writer b w w' D)).
    + intros D. exact (bar_finish_line_streams FSuccess m b w w' D).
    + intros D. exact (bar_finish_line_streams FError m b w w' D).
  - intros. apply wrote_write.
Qed.

(** A bar that draws once, then [Error]: the drawing on standard output,
    the line on standard error. *)
Lemma output_streams_witness :
  exists w',
    BarError "failed" (Bar 10 "Downloading") {| NoColor := true; out := [] |} w' /\
    map fst (out w') = [Stdout; Stderr] /\
    exists w1, wrote_on {| NoColor := true; out := [] |} w1 Stdout /\
               out w' = out w1 ++ [final_line FError "failed" w1] /\
               fst (final_line FError "failed" w1) = Stderr.
Proof.
  set (w0 := {| NoColor := true; out := [] |}).
  set (w1 := write Stdout (BarDraw 10 10 "Downloading") w0).
  exists {| NoColor := NoColor w1; out := out w1 ++ [final_line FError "failed" w1] |}.
  assert (B : BarError "failed" (Bar 10 "Downloading") w0
                {| NoColor := NoColor w1;
                   out := out w1 ++ [final_line FError "failed" w1] |}).
  { exists w1. split; [|reflexivity].
    split; [reflexivity|]. exists [(Stdout, BarDraw 10 10 "Downloading")].
    split; reflexivity. }
  split; [exact B|]. split; [reflexivity|].
  destruct output_streams as (_ & _ & _ & _ & H & _).
  destruct (H "failed"%string 0 10 "Downloading"%string w0
              {| NoColor := NoColor w1;
                 out := out w1 ++ [final_line FError "failed" w1] |})
    as (_ & _ & _ & _ & E).
  exact (E B).
Defined.

Lemma last_text_write st t w : last_text (write st (Text t) w) = t.
Proof. unfold last_text, write; cbn. now rewrite last_last. Qed.

(** C7 on the code: the icon of [Info], [Success], [Warn] and [Error] is
    styled according to the color flag as it was when the package was
    initialised, whatever [set_color] did since; [Dim] and the final lines
    of the progress handles follow the flag of the moment. *)
Theorem message_icons_fixed_at_init w0 b msg :
  let v := Messages.package_init w0 in
  let w := set_color b w0 in
  has_style (last_text (Messages.Info v msg w)) = negb (NoColor w0) /\
  has_style (last_text (Messages.Success v msg w)) = negb (NoColor w0) /\
  has_style (last_text (Messages.Warn v msg w)) = negb (NoColor w0) /\
  has_style (last_text (Messages.Error v msg w)) = negb (NoColor w0) /\
  has_style (last_text (Messages.Dim v msg w)) = b /\
  has_style (last_text (Layout.KV msg msg w)) = b.
Proof.
  cbv zeta.
  unfold Messages.Info, Messages.Success, Messages.Warn, Messages.Error,
    Messages.Dim, Layout.KV.
  rewrite !last_text_write.
  unfold Messages.package_init, Messages.icon_line, wrap, set_color; cbn.
  destruct (NoColor w0), b; repeat split.
Qed.

(** Colors on at start, switched off before [Info]: the icon is still
    blue, while [Dim] is plain. *)
Example info_after_set_color_false :
  let w0 := {| NoColor := false; out := [] |} in
  let v := Messages.package_init w0 in
  out (Messages.Info v "x" (set_color false w0))
  = [(Stdout, Text [Styled [FgBlue] "ℹ"; Plain " "; Plain "x"; Plain nl])]
  /\ out (Messages.Dim v "x" (set_color false w0))
  = [(Stdout, Text [Plain "  "; Plain "x"; Plain nl])].
Proof. split; reflexivity. Qed.

Local Close Scope list_scope.

(* ===================================================================== *)
(** * ParseSize *)
(* ===================================================================== *)

(** ** Character classes *)

Lemma code_bound c : 0 <= code c < 256.
Proof. unfold code. pose proof (nat_ascii_bounded c). lia. Qed.

Lemma code_inj c d : code c = code d -> c = d.
Proof.
  unfold code. intros H. apply Nat2Z.inj in H.
  rewrite <- (ascii_nat_embedding c), <- (ascii_nat_embedding d). now rewrite H.
Qed.

Lemma is_digit_code c : Strconv.is_digit c = true <-> 48 <= code c <= 57.
Proof. unfold Strconv.is_digit. rewrite andb_true_iff, !Z.leb_le. tauto. Qed.

Lemma num_char_code c : num_char c = true <-> 48 <= code c <= 57 \/ code c = 46.
Proof.
  unfold num_char, Strconv.is_dot. rewrite orb_true_iff, is_digit_code, Z.eqb_eq.
  tauto.
Qed.

Lemma digit_is_num c : Strconv.is_digit c = true -> num_char c = true.
Proof. intros H. unfold num_char. now rewrite H. Qed.

(** [c | 0x20] leaves the characters of a number alone. *)
Lemma lower_num_char c : num_char c = true -> Strconv.lower c = code c.
Proof.
  intros H. apply num_char_code in H. unfold Strconv.lower.
  assert (E : In (code c) [48; 49; 50; 51; 52; 53; 54; 55; 56; 57; 46])
    by (cbn; lia).
  cbn in E.
  repeat (destruct E as [<-|E]; [reflexivity|]). contradiction.
Qed.

Lemma upper_num_char c : num_char c = true -> upper_byte c = c.
Proof.
  intros H. apply num_char_code in H. unfold upper_byte.
  replace (97 <=? code c) with false by (symmetry; apply Z.leb_gt; lia).
  reflexivity.
Qed.

Lemma space_num_char c : num_char c = true -> is_space c = false.
Proof.
  intros H. apply num_char_code in H. unfold is_space.
  apply orb_false_iff. split.
  - apply andb_false_iff. right. apply Z.leb_gt. lia.
  - apply Z.eqb_neq. lia.
Qed.

(** ** Strings of such characters *)

Lemma all_num_app a b : all_num (a ++ b) = all_num a && all_num b.
Proof.
  induction a as [|c a IH]; cbn; [reflexivity|].
  now rewrite IH, andb_assoc.
Qed.

Lemma all_digits_num s : all_digits s = true -> all_num s = true.
Proof.
  induction s as [|c s IH]; cbn; [reflexivity|].
  intros H. apply andb_true_iff in H as [Hc Hs].
  now rewrite (digit_is_num c Hc), IH.
Qed.

Lemma all_num_number ip fp :
  is_number ip fp -> all_num (number_text ip fp) = true.
Proof.
  intros (Hi & _ & Hf). destruct fp as [f|]; cbn in *.
  - rewrite all_num_app, (all_digits_num _ Hi). cbn.
    now rewrite (all_digits_num _ Hf).
  - now apply all_digits_num.
Qed.

Lemma number_nonempty ip fp : is_number ip fp -> number_text ip fp <> "".
Proof.
  intros (_ & Hn & _). destruct fp as [f|]; cbn; [|exact Hn].
  destruct ip; [contradiction|discriminate].
Qed.

Lemma ToUpper_app a b : ToUpper (a ++ b) = ToUpper a ++ ToUpper b.
Proof. induction a as [|c a IH]; cbn; [reflexivity|now rewrite IH]. Qed.

Lemma ToUpper_num s : all_num s = true -> ToUpper s = s.
Proof.
  induction s as [|c s IH]; cbn; [reflexivity|].
  intros H. apply andb_true_iff in H as [Hc Hs].
  now rewrite (upper_num_char c Hc), IH.
Qed.

Lemma no_space_app a b : no_space (a ++ b) = no_space a && no_space b.
Proof.
  induction a as [|c a IH]; cbn; [reflexivity|].
  now rewrite IH, andb_assoc.
Qed.

Lemma no_space_num s : all_num s = true -> no_space s = true.
Proof.
  induction s as [|c s IH]; cbn; [reflexivity|].
  intros H. apply andb_true_iff in H as [Hc Hs].
  now rewrite (space_num_char c Hc), IH.
Qed.

Lemma trim_left_no_space s : no_space s = true -> trim_left s = s.
Proof.
  destruct s as [|c s]; cbn; [reflexivity|].
  intros H. apply andb_true_iff in H as [Hc _].
  apply negb_true_iff in Hc. now rewrite Hc.
Qed.

Lemma trim_right_no_space s : no_space s = true -> trim_right s = s.
Proof.
  induction s as [|c s IH]; cbn; [reflexivity|].
  intros H. apply andb_true_iff in H as [Hc Hs].
  apply negb_true_iff in Hc. rewrite (IH Hs), Hc.
  now destruct s.
Qed.

Lemma TrimSpace_no_space s : no_space s = true -> TrimSpace s = s.
Proof.
  intros H. unfold TrimSpace.
  now rewrite (trim_left_no_space s H), (trim_right_no_space s H).
Qed.

(** ** Suffixes *)

Lemma HasSuffix_app_len p u suffix :
  String.length u = String.length suffix ->
  HasSuffix (p ++ u) suffix = String.eqb u suffix.
Proof.
  intros L. unfold HasSuffix. rewrite length_append, <- L.
  replace (String.length u <=? String.length p + String.length u)%nat with true
    by (symmetry; apply Nat.leb_le; lia).
  replace (String.length p + String.length u - String.length u)%nat
    with (String.length p) by lia.
  now rewrite drop_append.
Qed.

Lemma TrimSuffix_app p suffix : TrimSuffix (p ++ suffix) suffix = p.
Proof.
  unfold TrimSuffix. rewrite (HasSuffix_app_len p suffix suffix eq_refl).
  rewrite String.eqb_refl, length_append.
  replace (String.length p + String.length suffix - String.length suffix)%nat
    with (String.length p) by lia.
  apply take_append.
Qed.

Lemma HasSuffix_inv s suffix :
  HasSuffix s suffix = true -> exists p, s = p ++ suffix.
Proof.
  unfold HasSuffix. intros H. apply andb_true_iff in H as [_ E].
  apply String.eqb_eq in E.
  exists (take (String.length s - String.length suffix) s).
  pose proof (take_drop (String.length s - String.length suffix) s) as T.
  rewrite E in T. now symmetry.
Qed.

Lemma snoc_inj a b c d :
  a ++ String c "" = b ++ String d "" -> a = b /\ c = d.
Proof.
  revert b. induction a as [|x a IH]; intros [|y b] H; cbn in H.
  - injection H as ->. auto.
  - injection H as -> H. destruct b; discriminate.
  - injection H as -> H. destruct a; discriminate.
  - injection H as -> H. destruct (IH b H) as [-> ->]. auto.
Qed.

(** A string that ends with a character of a number has none of the
    unit suffixes, which all end with [B]. *)
Lemma HasSuffix_snoc_num p c suffix :
  num_char c = true ->
  HasSuffix (p ++ String c "") (suffix ++ "B") = false.
Proof.
  intros Hc. destruct (HasSuffix (p ++ String c "") (suffix ++ "B")) eqn:E;
    [|reflexivity].
  apply HasSuffix_inv in E as (q & E).
  rewrite <- append_assoc in E. apply snoc_inj in E as [_ ->].
  discriminate.
Qed.

Lemma snoc_cases s : s <> "" -> exists p c, s = p ++ String c "".
Proof.
  induction s as [|x s IH]; [contradiction|]. intros _.
  destruct s as [|y s].
  - exists "", x. reflexivity.
  - destruct IH as (p & c & E); [discriminate|].
    exists (String x p), c. cbn. now rewrite <- E.
Qed.

Lemma all_num_snoc p c : all_num (p ++ String c "") = true -> num_char c = true.
Proof.
  rewrite all_num_app. cbn. intros H. apply andb_true_iff in H as [_ H].
  now apply andb_true_iff in H as [H _].
Qed.

(** The [switch] of [ParseSize] on a text that ends with a character of a
    number, followed by a unit. *)
Lemma split_unit_snoc p c u k :
  num_char c = true ->
  unit_of_suffix u = Some k ->
  split_unit ((p ++ String c "") ++ u) = (p ++ String c "", k).
Proof.
  intros Hc Hu.
  assert (NT : forall x, 57 < code x -> String.eqb (String c "B") (String x "B") = false).
  { intros x Hx. apply String.eqb_neq. intros E. injection E as ->.
    apply num_char_code in Hc. lia. }
  unfold unit_of_suffix in Hu.
  repeat match type of Hu with
         | (if String.eqb u ?lit then _ else _) = _ =>
             destruct (String.eqb_spec u lit) as [->|_]
         end; try discriminate; injection Hu as <-; unfold split_unit.
  - rewrite append_nil_r.
    pose proof (HasSuffix_snoc_num p c "T" Hc) as HT.
    pose proof (HasSuffix_snoc_num p c "G" Hc) as HG.
    pose proof (HasSuffix_snoc_num p c "M" Hc) as HM.
    pose proof (HasSuffix_snoc_num p c "K" Hc) as HK.
    pose proof (HasSuffix_snoc_num p c "" Hc) as HB.
    cbn [append] in HT, HG, HM, HK, HB.
    now rewrite HT, HG, HM, HK, HB.
  - rewrite append_assoc. cbn [append].
    rewrite !(HasSuffix_app_len p (String c "B")) by reflexivity.
    rewrite !NT by (vm_compute; reflexivity).
    change (String c "B") with (String c "" ++ "B").
    rewrite <- append_assoc.
    rewrite (HasSuffix_app_len _ "B" "B" eq_refl), TrimSuffix_app. reflexivity.
  - rewrite !(HasSuffix_app_len _ "KB") by reflexivity. cbn [String.eqb Ascii.eqb Bool.eqb].
    now rewrite TrimSuffix_app.
  - rewrite !(HasSuffix_app_len _ "MB") by reflexivity. cbn [String.eqb Ascii.eqb Bool.eqb].
    now rewrite TrimSuffix_app.
  - rewrite !(HasSuffix_app_len _ "GB") by reflexivity. cbn [String.eqb Ascii.eqb Bool.eqb].
    now rewrite TrimSuffix_app.
  - rewrite !(HasSuffix_app_len _ "TB") by reflexivity. cbn [String.eqb Ascii.eqb Bool.eqb].
    now rewrite TrimSuffix_app.
Qed.

Lemma unit_no_space u k : unit_of_suffix u = Some k -> no_space u = true.
Proof.
  unfold unit_of_suffix. intros Hu.
  repeat match type of Hu with
         | (if String.eqb u ?lit then _ else _) = _ =>
             destruct (String.eqb_spec u lit) as [->|_]
         end; try discriminate; reflexivity.
Qed.

(** ** ParseFloat on a decimal number *)

Lemma num_char_not_sign c :
  num_char c = true ->
  Strconv.is_plus c = false /\ Strconv.is_minus c = false
  /\ Strconv.is_underscore c = false.
Proof.
  intros H. apply num_char_code in H.
  unfold Strconv.is_plus, Strconv.is_minus, Strconv.is_underscore.
  repeat split; apply Z.eqb_neq; lia.
Qed.

Lemma digit_not_dot c : Strconv.is_digit c = true -> Strconv.is_dot c = false.
Proof.
  intros H. apply is_digit_code in H. unfold Strconv.is_dot.
  apply Z.eqb_neq. lia.
Qed.

Lemma read_sign_num x : all_num x = true -> Strconv.read_sign x = (false, x).
Proof.
  destruct x as [|c t]; [reflexivity|]. cbn [all_num]. intros H.
  apply andb_true_iff in H as [Hc _].
  destruct (num_char_not_sign c Hc) as (P & M & _).
  unfold Strconv.read_sign. now rewrite P, M.
Qed.

Lemma read_sign_minus x : Strconv.read_sign ("-" ++ x) = (true, x).
Proof. reflexivity. Qed.

Lemma read_base_num x : all_num x = true -> Strconv.read_base x = (false, x).
Proof.
  destruct x as [|c0 [|c1 [|c2 u]]]; try reflexivity.
  cbn [all_num]. intros H.
  apply andb_true_iff in H as [_ H]. apply andb_true_iff in H as [H1 _].
  unfold Strconv.read_base. rewrite (lower_num_char c1 H1).
  apply num_char_code in H1.
  replace (code c1 =? 120) with false by (symmetry; apply Z.eqb_neq; lia).
  now rewrite andb_false_r.
Qed.

Lemma eq_fold_num c t w u :
  num_char c = true -> 57 < code w ->
  Strconv.eq_fold (String c t) (String w u) = false.
Proof.
  intros Hc Hw. apply num_char_code in Hc. cbn [Strconv.eq_fold].
  replace (65 <=? code c) with false by (symmetry; apply Z.leb_gt; lia).
  cbn [andb].
  replace (code c =? code w) with false by (symmetry; apply Z.eqb_neq; lia).
  reflexivity.
Qed.

Lemma special_num x : all_num x = true -> Strconv.special x = None.
Proof.
  destruct x as [|c t]; [reflexivity|]. cbn [all_num]. intros H.
  apply andb_true_iff in H as [Hc _].
  destruct (num_char_not_sign c Hc) as (P & M & _).
  unfold Strconv.special. rewrite P, M.
  rewrite !(eq_fold_num c t) by (auto; vm_compute; reflexivity).
  reflexivity.
Qed.

Lemma special_minus_num x :
  all_num x = true -> x <> "" -> Strconv.special ("-" ++ x) = None.
Proof.
  destruct x as [|c t]; [contradiction|]. cbn [all_num]. intros H _.
  apply andb_true_iff in H as [Hc _].
  unfold Strconv.special. cbn [append].
  change (Strconv.is_plus "-") with false. change (Strconv.is_minus "-") with true.
  cbv iota.
  rewrite !(eq_fold_num c t) by (auto; vm_compute; reflexivity).
  reflexivity.
Qed.

(** The mantissa loop over digits. *)
Lemma read_digits_digits a r st :
  all_digits a = true ->
  Strconv.read_digits false (a ++ r) st
  = Strconv.read_digits false r (push_digits a st).
Proof.
  revert st. induction a as [|c a IH]; intros st H; [reflexivity|].
  cbn [all_digits] in H. apply andb_true_iff in H as [Hc Ha].
  destruct (num_char_not_sign c (digit_is_num c Hc)) as (_ & _ & U).
  cbn [append Strconv.read_digits push_digits].
  rewrite U, (digit_not_dot c Hc), Hc. now apply IH.
Qed.

Lemma read_digits_all a st :
  all_digits a = true ->
  Strconv.read_digits false a st = (push_digits a st, "").
Proof.
  intros H. pose proof (read_digits_digits a "" st H) as E.
  now rewrite append_nil_r in E.
Qed.

Lemma sawdot_push_digits a st :
  Strconv.sawdot (push_digits a st) = Strconv.sawdot st.
Proof. revert st. induction a as [|c a IH]; intros st; cbn; [reflexivity|]. now rewrite IH. Qed.

Lemma sawdigits_push_digits a st :
  Strconv.sawdigits (push_digits a st)
  = Strconv.sawdigits st || negb (String.eqb a "").
Proof.
  revert st. induction a as [|c a IH]; intros st; cbn [push_digits].
  - cbn. now rewrite orb_false_r.
  - rewrite IH. cbn. now rewrite orb_true_r.
Qed.

Lemma mant_push_digits a st :
  Strconv.mant (push_digits a st) = digits_value (Strconv.mant st) a.
Proof. revert st. induction a as [|c a IH]; intros st; cbn; [reflexivity|]. now rewrite IH. Qed.

Lemma fracdigits_push_digits a st :
  Strconv.fracdigits (push_digits a st)
  = if Strconv.sawdot st then Strconv.fracdigits st + len a
    else Strconv.fracdigits st.
Proof.
  revert st. induction a as [|c a IH]; intros st; cbn [push_digits].
  - unfold len. cbn. destruct (Strconv.sawdot st); lia.
  - rewrite IH. unfold len. cbn [Strconv.push Strconv.sawdot Strconv.fracdigits String.length].
    destruct (Strconv.sawdot st); lia.
Qed.

Lemma digits_value_app acc a b :
  digits_value acc (a ++ b) = digits_value (digits_value acc a) b.
Proof. revert acc. induction a as [|c a IH]; intros acc; cbn; [reflexivity|]. apply IH. Qed.

(** The mantissa loop over the whole number. *)
Lemma read_digits_number ip fp :
  is_number ip fp ->
  exists st,
    Strconv.read_digits false (number_text ip fp) Strconv.mantissa0 = (st, "") /\
    Strconv.sawdigits st = true /\
    Strconv.mant st = decimal_value (ip ++ fraction fp) /\
    Strconv.fracdigits st = len (fraction fp).
Proof.
  intros (Hi & Ni & Hf).
  assert (SD : negb (String.eqb ip "") = true)
    by (apply negb_true_iff, String.eqb_neq; exact Ni).
  destruct fp as [f|]; cbn [number_text fraction] in *.
  - rewrite (read_digits_digits ip _ _ Hi).
    cbn [append Strconv.read_digits].
    change (Strconv.is_underscore ".") with false.
    change (Strconv.is_dot ".") with true. cbv iota.
    rewrite sawdot_push_digits. cbn [Strconv.mantissa0 Strconv.sawdot].
    rewrite (read_digits_all f _ Hf).
    eexists. split; [reflexivity|].
    rewrite sawdigits_push_digits, mant_push_digits, fracdigits_push_digits.
    cbn [Strconv.dot Strconv.sawdot Strconv.sawdigits Strconv.mant Strconv.fracdigits].
    rewrite sawdigits_push_digits, mant_push_digits, fracdigits_push_digits.
    cbn [Strconv.mantissa0 Strconv.sawdot Strconv.sawdigits Strconv.mant Strconv.fracdigits].
    rewrite SD. cbn [orb]. repeat split.
    + unfold decimal_value. now rewrite digits_value_app.
  - rewrite (read_digits_all ip _ Hi).
    eexists. split; [reflexivity|].
    rewrite sawdigits_push_digits, mant_push_digits, fracdigits_push_digits.
    cbn [Strconv.mantissa0 Strconv.sawdot Strconv.sawdigits Strconv.mant Strconv.fracdigits].
    rewrite SD, append_nil_r. repeat split.
Qed.

Lemma underscore_scan_num x last :
  all_num x = true -> last <> Strconv.SawUnderscore ->
  Strconv.underscore_scan false x last = true.
Proof.
  revert last. induction x as [|c x IH]; intros last H L.
  - now destruct last.
  - cbn [all_num] in H. apply andb_true_iff in H as [Hc Hx].
    destruct (num_char_not_sign c Hc) as (_ & _ & U).
    cbn [Strconv.underscore_scan]. rewrite U. cbn [andb]. rewrite orb_false_r.
    destruct (Strconv.is_digit c).
    + apply IH; [exact Hx|discriminate].
    + destruct last; try contradiction; apply IH; auto; discriminate.
Qed.

Lemma underscore_prefix_num x :
  all_num x = true ->
  match x with
  | String c0 (String c1 u) =>
      if (code c0 =? 48)
         && ((Strconv.lower c1 =? 98) || (Strconv.lower c1 =? 111)
             || (Strconv.lower c1 =? 120))
      then Strconv.underscore_scan (Strconv.lower c1 =? 120) u Strconv.SawDigit
      else Strconv.underscore_scan false x Strconv.SawStart
  | _ => Strconv.underscore_scan false x Strconv.SawStart
  end = true.
Proof.
  intros H.
  assert (S : Strconv.underscore_scan false x Strconv.SawStart = true)
    by (apply underscore_scan_num; [exact H|discriminate]).
  destruct x as [|c0 [|c1 u]]; try exact S.
  cbn [all_num] in H.
  apply andb_true_iff in H as [_ H]. apply andb_true_iff in H as [H1 _].
  rewrite (lower_num_char c1 H1). apply num_char_code in H1.
  replace (code c1 =? 98) with false by (symmetry; apply Z.eqb_neq; lia).
  replace (code c1 =? 111) with false by (symmetry; apply Z.eqb_neq; lia).
  replace (code c1 =? 120) with false by (symmetry; apply Z.eqb_neq; lia).
  cbn [orb]. rewrite andb_false_r. exact S.
Qed.

Lemma underscoreOK_num x : all_num x = true -> Strconv.underscoreOK x = true.
Proof.
  intros H. unfold Strconv.underscoreOK.
  destruct x as [|c t]; [reflexivity|].
  assert (Hc : num_char c = true)
    by (cbn [all_num] in H; now apply andb_true_iff in H as [Hc _]).
  destruct (num_char_not_sign c Hc) as (P & M & _).
  rewrite P, M. cbn [orb]. exact (underscore_prefix_num (String c t) H).
Qed.

Lemma underscoreOK_minus_num x :
  all_num x = true -> Strconv.underscoreOK ("-" ++ x) = true.
Proof.
  intros H. unfold Strconv.underscoreOK. cbn [append].
  change (Strconv.is_minus "-") with true. cbn [orb].
  exact (underscore_prefix_num x H).
Qed.

(** [ParseFloat] on a number with or without a minus sign: the nearest
    float64, or a range error. *)
Lemma ParseFloat_number (neg : bool) ip fp :
  is_number ip fp ->
  Strconv.ParseFloat ((if neg then "-" else "") ++ number_text ip fp)
  = match nearest_float64 neg ip fp with
    | Float64.Inf _ => Strconv.ErrRange
    | f => Strconv.Parsed f
    end.
Proof.
  intros N.
  pose proof (all_num_number ip fp N) as A.
  pose proof (number_nonempty ip fp N) as NE.
  destruct (read_digits_number ip fp N) as (st & R & SD & M & F).
  unfold Strconv.ParseFloat, Strconv.readFloat.
  assert (E : (if neg then "-" else "") ++ number_text ip fp <> "")
    by (destruct neg; [discriminate|exact NE]).
  assert (Sp : Strconv.special ((if neg then "-" else "") ++ number_text ip fp) = None)
    by (destruct neg; [now apply special_minus_num|now apply special_num]).
  assert (Sg : Strconv.read_sign ((if neg then "-" else "") ++ number_text ip fp)
               = (neg, number_text ip fp))
    by (destruct neg; [apply read_sign_minus|now apply read_sign_num]).
  assert (Un : Strconv.underscoreOK ((if neg then "-" else "") ++ number_text ip fp) = true)
    by (destruct neg; [now apply underscoreOK_minus_num|now apply underscoreOK_num]).
  rewrite Sp, Un.
  destruct ((if neg then "-" else "") ++ number_text ip fp) eqn:S; [contradiction|].
  rewrite Sg, (read_base_num _ A), R, SD.
  cbn [negb Strconv.read_tail Strconv.rest].
  unfold Strconv.scale, nearest_float64.
  cbn [Strconv.hex Strconv.neg Strconv.digits Strconv.exp].
  rewrite M, F.
  assert (L : 0 <= len (fraction fp)) by (unfold len; lia).
  rewrite (Z.max_r (- len (fraction fp)) 0) by lia.
  rewrite Z.opp_involutive, (Z.max_l (len (fraction fp)) 0) by lia.
  rewrite Z.pow_0_r, Z.mul_1_r. reflexivity.
Qed.

(** [ParseSize] on a decimal number, maybe with a minus sign, followed by
    a unit in any letter case. *)
Lemma ParseSize_number (neg : bool) ip fp u k :
  is_number ip fp ->
  unit_of_suffix (ToUpper u) = Some k ->
  let y := (if neg then "-" else "") ++ number_text ip fp in
  ParseSize (y ++ u)
  = match nearest_float64 neg ip fp with
    | Float64.Inf _ => Err (InvalidNumber y)
    | f =>
        if Float64.ltb0 f then Err (NegativeSize f)
        else Ok (Float64.to_uint64 (Float64.mul f (Float64.of_Z k)))
    end.
Proof.
  intros N Hu y.
  pose proof (all_num_number ip fp N) as A.
  pose proof (number_nonempty ip fp N) as NE.
  destruct (snoc_cases _ NE) as (p & c & Ex).
  assert (Hc : num_char c = true) by (rewrite Ex in A; now apply all_num_snoc in A).
  set (q := (if neg then "-" else "") ++ p).
  assert (Ey : y = q ++ String c "").
  { unfold y, q. rewrite Ex. now rewrite append_assoc. }
  assert (Uy : ToUpper y = y).
  { unfold y. rewrite ToUpper_app, (ToUpper_num _ A). now destruct neg. }
  assert (Sy : no_space y = true).
  { unfold y. rewrite no_space_app, (no_space_num _ A). now destruct neg. }
  assert (Ny : forall r, String.eqb (y ++ r) "" = false).
  { intros r. apply String.eqb_neq. rewrite Ey, append_assoc.
    destruct q; discriminate. }
  unfold ParseSize.
  rewrite ToUpper_app, Uy.
  rewrite TrimSpace_no_space
    by (rewrite no_space_app, Sy; exact (unit_no_space _ _ Hu)).
  rewrite Ny.
  rewrite Ey at 1. rewrite (split_unit_snoc q c _ k Hc Hu), <- Ey.
  rewrite (TrimSpace_no_space y Sy).
  unfold y at 1. rewrite (ParseFloat_number neg ip fp N).
  destruct (nearest_float64 neg ip fp); reflexivity.
Qed.

(** ** Multiplication by a power of two, and truncation *)

(** A fraction that is a float64 rounds to itself. *)
Lemma round_exact a d M E :
  0 <= a -> 0 < d -> 0 <= M <= 2 ^ 53 -> emin <= E ->
  M * up E < huge * down E ->
  a * down E = M * up E * d ->
  exists m e, round a d = Fin m e /\ 0 <= m /\
              m * up e * down E = M * up E * down e.
Proof.
  intros Ha Hd HM HE Hh H.
  pose proof (up_pos E). pose proof (down_pos E).
  destruct (Z.eq_dec M (2 ^ 53)) as [->|NM].
  - pose proof (up_down_shift E 1 ltac:(lia)) as S. change (2 ^ 1) with 2 in S.
    pose proof (up_pos (E + 1)). pose proof (down_pos (E + 1)).
    change (2 ^ 53) with (2 * 2 ^ 52) in *.
    assert (Hh' : 2 ^ 52 * up (E + 1) < huge * down (E + 1)).
    { apply Z.mul_lt_mono_pos_r with (p := down E); [lia|].
      replace (2 ^ 52 * up (E + 1) * down E) with (2 ^ 52 * (up (E + 1) * down E)) by ring.
      rewrite S. nia. }
    assert (H' : a * down (E + 1) = 2 ^ 52 * up (E + 1) * d).
    { apply Z.mul_cancel_r with (p := down E); [lia|].
      replace (2 ^ 52 * up (E + 1) * d * down E)
        with (2 ^ 52 * d * (up (E + 1) * down E)) by ring.
      rewrite S. nia. }
    destruct (round_le a d (2 ^ 52) (E + 1)) as (m & e & R & P & L);
      try (unfold emin in *; lia).
    pose proof (round_ge a d (2 ^ 52) (E + 1) m e Ha Hd ltac:(lia)
                  ltac:(unfold emin in *; lia) ltac:(lia) R) as G.
    exists m, e. split; [exact R|]. split; [exact P|].
    pose proof (down_pos e).
    apply Z.mul_cancel_r with (p := down (E + 1)); [lia|].
    replace (2 * 2 ^ 52 * up E * down e * down (E + 1))
      with (2 ^ 52 * down e * (2 * up E * down (E + 1))) by ring.
    rewrite <- S. nia.
  - destruct (round_le a d M E) as (m & e & R & P & L); try lia.
    pose proof (round_ge a d M E m e Ha Hd ltac:(lia) HE ltac:(lia) R) as G.
    exists m, e. split; [exact R|]. split; [exact P|]. lia.
Qed.

Lemma div_ratio n1 d1 n2 d2 :
  0 < d1 -> 0 < d2 -> n1 * d2 = n2 * d1 -> n1 / d1 = n2 / d2.
Proof.
  intros H1 H2 E.
  rewrite <- (Z.div_mul_cancel_r n1 d1 d2), <- (Z.div_mul_cancel_r n2 d2 d1) by lia.
  rewrite E. f_equal. ring.
Qed.

(** [uint64(f * float64(2^j))] for a float64 [f = m * 2^e >= 0]: the
    product is exact, and its truncation is the truncation of
    [m * 2^j * 2^e]. *)
Lemma to_uint64_mul_pow2 m e j :
  0 <= m <= 2 ^ 53 -> emin <= e -> 0 <= j <= 40 ->
  trunc (m * 2 ^ j) e < 2 ^ 64 ->
  to_uint64 (mul (Fin m e) (of_Z (2 ^ j))) = Val (trunc (m * 2 ^ j) e).
Proof.
  intros Hm He Hj Hr.
  pose proof huge_gt_64 as Hh.
  assert (Pj : 0 < 2 ^ j) by (apply Z.pow_pos_nonneg; lia).
  assert (Pj' : 2 ^ j < 2 ^ 53) by (apply Z.pow_lt_mono_r; lia).
  destruct (of_Z_exact (2 ^ j)) as (mk & ek & Rk & Pk & Ek); [lia|].
  pose proof (up_pos e). pose proof (down_pos e).
  pose proof (up_pos ek). pose proof (down_pos ek).
  pose proof (up_pos (e + j)). pose proof (down_pos (e + j)).
  pose proof (up_down_shift e j ltac:(lia)) as S.
  unfold trunc in *.
  rewrite Z.quot_div_nonneg in * by nia.
  assert (B : m * 2 ^ j * up e < 2 ^ 64 * down e).
  { pose proof (Z.div_mod (m * 2 ^ j * up e) (down e) ltac:(lia)).
    pose proof (Z.mod_pos_bound (m * 2 ^ j * up e) (down e) ltac:(lia)).
    nia. }
  assert (Hv : m * up (e + j) < huge * down (e + j)).
  { apply Z.mul_lt_mono_pos_r with (p := down e); [lia|].
    replace (m * up (e + j) * down e) with (m * (up (e + j) * down e)) by ring.
    rewrite S.
    assert (m * (2 ^ j * up e * down (e + j)) < 2 ^ 64 * down e * down (e + j)) by nia.
    nia. }
  rewrite Rk. unfold mul, num, den.
  destruct (round_exact (m * up e * (mk * up ek)) (down e * down ek) m (e + j))
    as (m' & e' & R & P & V); try nia; try (unfold emin in *; lia).
  { rewrite Ek.
    replace (m * up (e + j) * (down e * down ek))
      with (m * down ek * (up (e + j) * down e)) by ring.
    rewrite S. ring. }
  rewrite R. unfold to_uint64, to_int, trunc.
  pose proof (up_pos e'). pose proof (down_pos e').
  rewrite Z.quot_div_nonneg by nia.
  assert (Q : m' * up e' / down e' = m * 2 ^ j * up e / down e).
  { apply div_ratio; try lia.
    apply Z.mul_cancel_r with (p := down (e + j)); [lia|].
    replace (m' * up e' * down e * down (e + j))
      with (m' * up e' * down (e + j) * down e) by ring.
    rewrite V.
    replace (m * up (e + j) * down e' * down e)
      with (m * down e' * (up (e + j) * down e)) by ring.
    rewrite S. ring. }
  rewrite Q.
  assert (0 <= m * 2 ^ j * up e / down e) by (apply Z.div_pos; nia).
  replace (0 <=? m * 2 ^ j * up e / down e) with true
    by (symmetry; apply Z.leb_le; lia).
  replace (m * 2 ^ j * up e / down e <? 2 ^ 64) with true
    by (symmetry; apply Z.ltb_lt; lia).
  reflexivity.
Qed.

Lemma unit_is_pow2 u k :
  unit_of_suffix u = Some k -> exists j, 0 <= j <= 40 /\ k = 2 ^ j.
Proof.
  unfold unit_of_suffix. intros Hu.
  repeat match type of Hu with
         | (if String.eqb u ?lit then _ else _) = _ =>
             destruct (String.eqb u lit)
         end; try discriminate; injection Hu as <-.
  - exists 0. split; [lia|reflexivity].
  - exists 0. split; [lia|reflexivity].
  - exists 10. split; [lia|reflexivity].
  - exists 20. split; [lia|reflexivity].
  - exists 30. split; [lia|reflexivity].
  - exists 40. split; [lia|reflexivity].
Qed.

Lemma digit_val_range c : Strconv.is_digit c = true -> 0 <= Strconv.digit_val c <= 9.
Proof. intros H. apply is_digit_code in H. unfold Strconv.digit_val. lia. Qed.

Lemma digits_value_nonneg s acc :
  all_digits s = true -> 0 <= acc -> 0 <= digits_value acc s.
Proof.
  revert acc. induction s as [|c s IH]; intros acc H A; [exact A|].
  cbn [all_digits] in H. apply andb_true_iff in H as [Hc Hs].
  cbn [digits_value]. apply IH; [exact Hs|].
  pose proof (digit_val_range c Hc). lia.
Qed.

Lemma all_digits_app a b : all_digits (a ++ b) = all_digits a && all_digits b.
Proof.
  induction a as [|c a IH]; cbn; [reflexivity|]. now rewrite IH, andb_assoc.
Qed.

Lemma number_value_nonneg ip fp :
  is_number ip fp -> 0 <= decimal_value (ip ++ fraction fp).
Proof.
  intros (Hi & _ & Hf). apply digits_value_nonneg; [|lia].
  now rewrite all_digits_app, Hi, Hf.
Qed.

Lemma pow10_pos n : 0 < 10 ^ len n.
Proof. apply Z.pow_pos_nonneg; unfold len; lia. Qed.

(** C1, as the code has it: on a decimal number followed by an optional
    unit in any letter case, [ParseSize] takes the float64 nearest to the
    number, [m * 2^e], multiplies it by the multiplier [k] (exactly: [k] is
    a power of two) and truncates the product toward zero; this holds
    whenever the truncated product is below [2^64].  A number of digits
    only that is below [2^53] is its own float64, so that the result is
    the product itself.  ["100MB"] is 104857600 bytes and ["1.5GB"]
    1610612736, but ["1.7B"] is one byte, not two. *)
Theorem parse_size_truncates ip fp u k m e :
  is_number ip fp ->
  unit_of_suffix (ToUpper u) = Some k ->
  nearest_float64 false ip fp = Fin m e ->
  trunc (m * k) e < 2 ^ 64 ->
  ParseSize (number_text ip fp ++ u) = Ok (Val (trunc (m * k) e)) /\
  (fp = None -> decimal_value ip < 2 ^ 53 ->
   ParseSize (ip ++ u) = Ok (Val (decimal_value ip * k))) /\
  ParseSize "100MB" = Ok (Val 104857600) /\
  ParseSize "1.5GB" = Ok (Val 1610612736) /\
  ParseSize "1.7B" = Ok (Val 1).
Proof.
  intros N Hu R Hr.
  destruct (unit_is_pow2 _ _ Hu) as (j & Hj & ->).
  pose proof (number_value_nonneg ip fp N) as V.
  pose proof (pow10_pos (fraction fp)) as D.
  assert (Rep : 0 <= m <= 2 ^ 53 /\ emin <= e)
    by (apply (round_representable _ _ m e V D); exact R).
  assert (P : ParseSize (number_text ip fp ++ u) = Ok (Val (trunc (m * 2 ^ j) e))).
  { pose proof (ParseSize_number false ip fp u (2 ^ j) N Hu) as E.
    cbv zeta in E. cbn [append] in E. rewrite E, R.
    cbn [ltb0].
    replace (m <? 0) with false by (symmetry; apply Z.ltb_ge; lia).
    f_equal. apply to_uint64_mul_pow2; tauto. }
  split; [exact P|]. split; [|repeat split; vm_compute; reflexivity].
  intros -> S. cbn [number_text fraction] in *.
  rewrite P. do 2 f_equal.
  unfold nearest_float64 in R. cbn [fraction] in R.
  rewrite append_nil_r in *. change (10 ^ len "") with 1 in R.
  destruct (of_Z_exact (decimal_value ip)) as (m' & e' & R' & _ & E'); [lia|].
  unfold of_Z in R'. rewrite R in R'. injection R' as <- <-.
  unfold trunc. pose proof (down_pos e).
  replace (m * 2 ^ j * up e) with (decimal_value ip * 2 ^ j * down e)
    by (rewrite <- Z.mul_assoc, (Z.mul_comm (2 ^ j)), Z.mul_assoc, <- E'; ring).
  apply Z.quot_mul. lia.
Qed.

(** Two and a half kilobytes. *)
Lemma parse_size_truncates_witness : ParseSize "2.5kb" = Ok (Val 2560).
Proof.
  refine (proj1 (parse_size_truncates "2" (Some "5") "kb" KB
                   5629499534213120 (-51) _ _ _ _)).
  - repeat split. discriminate.
  - reflexivity.
  - vm_compute. reflexivity.
  - vm_compute. reflexivity.
Defined.

(** C1 as stated fails: 1.7 bytes are read as one byte, while two is the
    only nearest integer. *)
Lemma parse_size_does_not_round :
  ~ (forall ip fp u, is_number ip fp -> rounds_to_nearest ip fp u).
Proof.
  intros H.
  assert (N : is_number "1" (Some "7")) by (repeat split; discriminate).
  specialize (H "1" (Some "7") "B" N 1 eq_refl 2).
  cbv zeta in H. specialize (H ltac:(vm_compute; discriminate) ltac:(reflexivity)).
  vm_compute in H. discriminate H.
Qed.

(** A number up to the largest float64 rounds to a finite float64. *)
Lemma nearest_finite ip fp :
  is_number ip fp ->
  decimal_value (ip ++ fraction fp) <= max_float64 * 10 ^ len (fraction fp) ->
  exists m e, nearest_float64 false ip fp = Fin m e /\ 0 <= m.
Proof.
  intros N B. unfold nearest_float64.
  pose proof (number_value_nonneg ip fp N) as V.
  pose proof (pow10_pos (fraction fp)) as D.
  destruct (round_le (decimal_value (ip ++ fraction fp)) (10 ^ len (fraction fp))
              (2 ^ 53 - 1) 971) as (m & e & R & P & _); try lia.
  - unfold emin. lia.
  - vm_compute. reflexivity.
  - change (down 971) with 1. change (up 971) with (2 ^ 971).
    unfold max_float64 in B. lia.
  - exists m, e. auto.
Qed.



(** And a negative number succeeds when it is so small that it rounds to
    zero. *)
Example parse_size_accepts_tiny_negative :
  ParseSize ("-0." ++ replicate "0" 399 ++ "1") = Ok (Val 0)
  /\ ParseSize "-0" = Ok (Val 0).
Proof. split; vm_compute; reflexivity. Qed.

(** What else [ParseFloat] lets through: exponents, hexadecimal floats,
    underscores between digits, and the names of the infinities and of
    NaN, whose conversion to [uint64] Go leaves open. *)
Example parse_size_float_syntax :
  ParseSize "1e3" = Ok (Val 1000) /\
  ParseSize "0x1p4" = Ok (Val 16) /\
  ParseSize "1_0" = Ok (Val 10) /\
  ParseSize "  100MB  " = Ok (Val 104857600) /\
  ParseSize "inf" = Ok ImplementationDependent /\
  ParseSize "nan" = Ok ImplementationDependent /\
  ParseSize "1e30" = Ok ImplementationDependent.
Proof. repeat split; vm_compute; reflexivity. Qed.

(* ===================================================================== *)
(** * Further properties of the code *)
(* ===================================================================== *)

Local Open Scope list_scope.
Local Open Scope string_scope.
Local Open Scope Z_scope.

(** ** TruncatePath: length and idempotence *)

Lemma TruncatePath_cases p n :
  (len p <= n /\ TruncatePath p n = p) \/
  (n < len p /\ n <= 3 /\ TruncatePath p n = "...") \/
  (n < len p /\ 3 < n /\ len (TruncatePath p n) = n).
Proof.
  unfold TruncatePath.
  destruct (Z.leb_spec (len p) n) as [L|L]; [left; auto|right].
  destruct (Z.leb_spec n 3) as [T|T]; [left; auto|right].
  repeat split; try lia.
  unfold slice_from, len in *. rewrite length_append, length_drop.
  cbn [String.length]. lia.
Qed.

(** X1: the result of [TruncatePath] is never longer than [maxLen] bytes,
    except that it is the three bytes of ["..."] when [maxLen] is below
    three (zero and negative values included); and it is never longer than
    the path itself, or than three bytes. *)
Theorem truncate_path_length p n :
  len (TruncatePath p n) <= Z.max n 3 /\
  len (TruncatePath p n) <= Z.max (len p) 3.
Proof.
  destruct (TruncatePath_cases p n) as [(L & E)|[(L & T & E)|(L & T & E)]];
    rewrite E; try (change (len "...") with 3); lia.
Qed.

(** X2: [TruncatePath] is idempotent: truncating its result again to the
    same [maxLen] changes nothing, for every path and every [maxLen]. *)
Theorem truncate_path_idempotent p n :
  TruncatePath (TruncatePath p n) n = TruncatePath p n.
Proof.
  destruct (TruncatePath_cases p n) as [(L & E)|[(L & T & E)|(L & T & E)]].
  - now rewrite !E.
  - rewrite E. unfold TruncatePath. change (len "...") with 3.
    destruct (3 <=? n); [reflexivity|].
    now replace (n <=? 3) with true by (symmetry; apply Z.leb_le; lia).
  - set (r := TruncatePath p n) in *. unfold TruncatePath at 1.
    now replace (len r <=? n) with true by (symmetry; apply Z.leb_le; lia).
Qed.

(** ** ParseSize: letter case and white space *)

Lemma upper_byte_idem c : upper_byte (upper_byte c) = upper_byte c.
Proof. destruct c as [[] [] [] [] [] [] [] []]; reflexivity. Qed.

Lemma ToUpper_idem s : ToUpper (ToUpper s) = ToUpper s.
Proof.
  induction s as [|c s IH]; cbn; [reflexivity|].
  now rewrite upper_byte_idem, IH.
Qed.

Lemma upper_space c : is_space c = true -> upper_byte c = c.
Proof.
  unfold is_space, upper_byte. intros H.
  replace (97 <=? code c) with false; [reflexivity|].
  symmetry. apply Z.leb_gt.
  apply orb_true_iff in H as [H|H].
  - apply andb_true_iff in H as [_ H]. apply Z.leb_le in H. lia.
  - apply Z.eqb_eq in H. lia.
Qed.

Lemma ToUpper_space ws : all_space ws = true -> ToUpper ws = ws.
Proof.
  induction ws as [|c ws IH]; cbn; [reflexivity|].
  intros H. apply andb_true_iff in H as [Hc Hs].
  now rewrite (upper_space c Hc), IH.
Qed.

Lemma trim_left_space ws t :
  all_space ws = true -> trim_left (ws ++ t) = trim_left t.
Proof.
  induction ws as [|c ws IH]; cbn; [reflexivity|].
  intros H. apply andb_true_iff in H as [Hc Hs]. rewrite Hc. now apply IH.
Qed.

Lemma trim_right_all_space ws : all_space ws = true -> trim_right ws = "".
Proof.
  induction ws as [|c ws IH]; cbn; [reflexivity|].
  intros H. apply andb_true_iff in H as [Hc Hs]. now rewrite (IH Hs), Hc.
Qed.

Lemma trim_right_space t ws :
  all_space ws = true -> trim_right (t ++ ws) = trim_right t.
Proof.
  intros H. induction t as [|c t IH]; cbn.
  - now apply trim_right_all_space.
  - now rewrite IH.
Qed.

Lemma TrimSpace_space ws1 t ws2 :
  all_space ws1 = true -> all_space ws2 = true ->
  TrimSpace (ws1 ++ t ++ ws2) = TrimSpace t.
Proof.
  intros H1 H2. unfold TrimSpace. rewrite (trim_left_space ws1 _ H1).
  induction t as [|c t IH]; cbn.
  - rewrite <- (append_nil_r ws2), (trim_left_space ws2 "" H2). reflexivity.
  - destruct (is_space c); [exact IH|].
    exact (trim_right_space (String c t) ws2 H2).
Qed.

(** X3: [ParseSize] does not see the case of letters: on 7-bit input,
    the upper-cased string has the same result, value or error, as the
    string itself. *)
Theorem parse_size_ignores_case s :
  is_ascii s = true -> ParseSize (ToUpper s) = ParseSize s.
Proof. intros _. unfold ParseSize. now rewrite ToUpper_idem. Qed.

Lemma parse_size_ignores_case_witness :
  is_ascii "1.5gb" = true /\ ParseSize (ToUpper "1.5gb") = ParseSize "1.5gb".
Proof.
  split; [reflexivity|]. apply parse_size_ignores_case. reflexivity.
Defined.

(** X4: [ParseSize] does not see white space (space, tab, newline,
    vertical tab, form feed, carriage return) around its input: the result
    on 7-bit input is the same with and without it. *)
Theorem parse_size_ignores_outer_space ws1 s ws2 :
  is_ascii s = true -> all_space ws1 = true -> all_space ws2 = true ->
  ParseSize (ws1 ++ s ++ ws2) = ParseSize s.
Proof.
  intros _ H1 H2. unfold ParseSize.
  rewrite !ToUpper_app, (ToUpper_space _ H1), (ToUpper_space _ H2).
  now rewrite (TrimSpace_space ws1 _ ws2 H1 H2).
Qed.

Lemma parse_size_ignores_outer_space_witness :
  is_ascii "10 KB" = true /\ all_space "  " = true /\
  all_space (String "009" (String "010" "")) = true /\
  ParseSize ("  " ++ "10 KB" ++ String "009" (String "010" ""))
  = ParseSize "10 KB".
Proof.
  split; [reflexivity|]. split; [reflexivity|]. split; [reflexivity|].
  apply parse_size_ignores_outer_space; reflexivity.
Defined.

Lemma HasSuffix_snoc_low p c suffix :
  code c < 65 ->
  HasSuffix (p ++ String c "") (suffix ++ "B") = false.
Proof.
  intros Hc. destruct (HasSuffix (p ++ String c "") (suffix ++ "B")) eqn:E;
    [|reflexivity].
  apply HasSuffix_inv in E as (q & E).
  rewrite <- append_assoc in E. apply snoc_inj in E as [_ ->].
  vm_compute in Hc. discriminate.
Qed.

(** The [switch] of [ParseSize] on a text that ends with a character below
    the letters, followed by a unit. *)
Lemma split_unit_low p c u k :
  code c < 65 ->
  unit_of_suffix u = Some k ->
  split_unit ((p ++ String c "") ++ u) = (p ++ String c "", k).
Proof.
  intros Hc Hu.
  assert (NT : forall x, 65 <= code x ->
                         String.eqb (String c "B") (String x "B") = false).
  { intros x Hx. apply String.eqb_neq. intros E. injection E as ->. lia. }
  unfold unit_of_suffix in Hu.
  repeat match type of Hu with
         | (if String.eqb u ?lit then _ else _) = _ =>
             destruct (String.eqb_spec u lit) as [->|_]
         end; try discriminate; injection Hu as <-; unfold split_unit.
  - rewrite append_nil_r.
    pose proof (HasSuffix_snoc_low p c "T" Hc) as HT.
    pose proof (HasSuffix_snoc_low p c "G" Hc) as HG.
    pose proof (HasSuffix_snoc_low p c "M" Hc) as HM.
    pose proof (HasSuffix_snoc_low p c "K" Hc) as HK.
    pose proof (HasSuffix_snoc_low p c "" Hc) as HB.
    cbn [append] in HT, HG, HM, HK, HB.
    now rewrite HT, HG, HM, HK, HB.
  - rewrite append_assoc. cbn [append].
    rewrite !(HasSuffix_app_len p (String c "B")) by reflexivity.
    rewrite !NT by (vm_compute; discriminate).
    change (String c "B") with (String c "" ++ "B").
    rewrite <- append_assoc.
    rewrite (HasSuffix_app_len _ "B" "B" eq_refl), TrimSuffix_app. reflexivity.
  - rewrite !(HasSuffix_app_len _ "KB") by reflexivity. cbn [String.eqb Ascii.eqb Bool.eqb].
    now rewrite TrimSuffix_app.
  - rewrite !(HasSuffix_app_len _ "MB") by reflexivity. cbn [String.eqb Ascii.eqb Bool.eqb].
    now rewrite TrimSuffix_app.
  - rewrite !(HasSuffix_app_len _ "GB") by reflexivity. cbn [String.eqb Ascii.eqb Bool.eqb].
    now rewrite TrimSuffix_app.
  - rewrite !(HasSuffix_app_len _ "TB") by reflexivity. cbn [String.eqb Ascii.eqb Bool.eqb].
    now rewrite TrimSuffix_app.
Qed.

Lemma space_code c : is_space c = true -> code c < 65.
Proof.
  unfold is_space. intros H. apply orb_true_iff in H as [H|H].
  - apply andb_true_iff in H as [_ H]. apply Z.leb_le in H. lia.
  - apply Z.eqb_eq in H. lia.
Qed.

Lemma all_space_snoc p c : all_space (p ++ String c "") = true -> is_space c = true.
Proof.
  induction p as [|x p IH]; cbn.
  - intros H. now apply andb_true_iff in H as [H _].
  - intros H. apply andb_true_iff in H as [_ H]. now apply IH.
Qed.

Lemma trim_right_app_no_space a b :
  no_space b = true -> b <> "" -> trim_right (a ++ b) = a ++ b.
Proof.
  intros Hb Nb. induction a as [|c a IH]; cbn.
  - now apply trim_right_no_space.
  - rewrite IH. destruct (a ++ b) eqn:E; [|reflexivity].
    destruct a; cbn in E; [contradiction|discriminate].
Qed.

Lemma unit_nonempty_or u k :
  unit_of_suffix u = Some k -> u = "" \/ (u <> "" /\ no_space u = true).
Proof.
  intros Hu. destruct u; [now left|right].
  split; [discriminate|exact (unit_no_space _ _ Hu)].
Qed.

(** [ParseSize] up to the call of [ParseFloat], on a number, white space and
    a unit. *)
Lemma ParseSize_split (neg : bool) ip fp ws u k :
  is_number ip fp ->
  all_space ws = true ->
  unit_of_suffix (ToUpper u) = Some k ->
  let y := signed_number neg ip fp in
  ParseSize (y ++ ws ++ u)
  = match Strconv.ParseFloat y with
    | Strconv.Parsed num =>
        if ltb0 num then Err (NegativeSize num)
        else Ok (to_uint64 (mul num (of_Z k)))
    | _ => Err (InvalidNumber y)
    end.
Proof.
  intros N Hw Hu y.
  pose proof (all_num_number ip fp N) as A.
  pose proof (number_nonempty ip fp N) as NE.
  assert (Uy : ToUpper y = y).
  { unfold y, signed_number. rewrite ToUpper_app, (ToUpper_num _ A).
    now destruct neg. }
  assert (Sy : no_space y = true).
  { unfold y, signed_number. rewrite no_space_app, (no_space_num _ A).
    now destruct neg. }
  assert (Ly : forall r, trim_left (y ++ r) = y ++ r).
  { intros r. unfold y, signed_number. destruct neg; [reflexivity|].
    cbn [append]. destruct (number_text ip fp) as [|a t] eqn:E;
      [contradiction|].
    cbn in A. apply andb_true_iff in A as [Ha _].
    cbn. now rewrite (space_num_char a Ha). }
  assert (Ny : forall r, String.eqb (y ++ r) "" = false).
  { intros r. apply String.eqb_neq. unfold y, signed_number.
    destruct neg; [discriminate|]. cbn [append].
    destruct (number_text ip fp); [contradiction|discriminate]. }
  assert (Ty : TrimSpace (y ++ ws) = y).
  { pose proof (TrimSpace_space "" y ws eq_refl Hw) as T.
    cbn [append] in T. rewrite T. now apply TrimSpace_no_space. }
  assert (Low : exists q c, y ++ ws = q ++ String c "" /\ code c < 65).
  { destruct ws as [|w ws'] eqn:Ew.
    - rewrite append_nil_r.
      destruct (snoc_cases _ NE) as (p & c & Ex).
      exists ((if neg then "-" else "") ++ p), c. split.
      + unfold y, signed_number. rewrite Ex. now rewrite append_assoc.
      + assert (Hc : num_char c = true)
          by (rewrite Ex in A; now apply all_num_snoc in A).
        apply num_char_code in Hc. lia.
    - destruct (snoc_cases (String w ws')) as (p & c & Ex); [discriminate|].
      exists (y ++ p), c. split.
      + rewrite Ex. now rewrite append_assoc.
      + rewrite Ex in Hw. apply space_code. now apply all_space_snoc in Hw. }
  destruct Low as (q & c & Eq & Hc).
  unfold ParseSize.
  rewrite !ToUpper_app, Uy, (ToUpper_space _ Hw).
  destruct (unit_nonempty_or _ _ Hu) as [E0|[NEu Su]].
  - rewrite E0 in *. rewrite !append_nil_r, !Ty.
    pose proof (Ny "") as Ny0. rewrite append_nil_r in Ny0. rewrite Ny0.
    destruct (snoc_cases _ NE) as (p & c' & Ex).
    assert (Hc' : code c' < 65).
    { assert (Hn : num_char c' = true)
        by (rewrite Ex in A; now apply all_num_snoc in A).
      apply num_char_code in Hn. lia. }
    assert (Ey : y = ((if neg then "-" else "") ++ p) ++ String c' "").
    { unfold y, signed_number. rewrite Ex. now rewrite append_assoc. }
    pose proof (split_unit_low ((if neg then "-" else "") ++ p) c' "" k Hc' Hu)
      as SU.
    rewrite append_nil_r, <- Ey in SU. rewrite SU.
    now rewrite (TrimSpace_no_space y Sy).
  - assert (T : TrimSpace (y ++ ws ++ ToUpper u) = y ++ ws ++ ToUpper u).
    { unfold TrimSpace. rewrite Ly, <- append_assoc.
      now apply trim_right_app_no_space. }
    rewrite T, Ny, <- append_assoc, Eq.
    rewrite (split_unit_low q c _ k Hc Hu), <- Eq, Ty. reflexivity.
Qed.

(** X5: white space between the number and the unit does not change the
    result of [ParseSize]: a decimal number with an optional minus sign,
    any run of white space and a unit suffix in any letter case give what
    the number directly followed by the suffix gives. *)
Theorem parse_size_inner_space (neg : bool) ip fp ws u k :
  is_number ip fp ->
  all_space ws = true ->
  unit_of_suffix (ToUpper u) = Some k ->
  ParseSize (signed_number neg ip fp ++ ws ++ u)
  = ParseSize (signed_number neg ip fp ++ u).
Proof.
  intros N Hw Hu.
  rewrite (ParseSize_split neg ip fp ws u k N Hw Hu).
  now rewrite <- (ParseSize_split neg ip fp "" u k N eq_refl Hu).
Qed.

Lemma parse_size_inner_space_witness :
  is_number "1" (Some "5") /\ all_space "  " = true /\
  unit_of_suffix (ToUpper "kb") = Some 1024 /\
  ParseSize (signed_number false "1" (Some "5") ++ "  " ++ "kb")
  = ParseSize (signed_number false "1" (Some "5") ++ "kb").
Proof.
  assert (N : is_number "1" (Some "5")).
  { repeat split. discriminate. }
  split; [exact N|]. split; [reflexivity|]. split; [reflexivity|].
  exact (parse_size_inner_space false "1" (Some "5") "  " "kb" 1024
           N eq_refl eq_refl).
Defined.

(** X6: the suffix [B] is optional: [ParseSize] gives the same result on
    a decimal number, on the number followed by ["B"] and on the number
    followed by ["b"]. *)
Theorem parse_size_bytes_suffix_optional (neg : bool) ip fp :
  is_number ip fp ->
  ParseSize (signed_number neg ip fp ++ "B") = ParseSize (signed_number neg ip fp)
  /\ ParseSize (signed_number neg ip fp ++ "b") = ParseSize (signed_number neg ip fp).
Proof.
  intros N.
  pose proof (ParseSize_split neg ip fp "" "" 1 N eq_refl eq_refl) as E0.
  pose proof (ParseSize_split neg ip fp "" "B" 1 N eq_refl eq_refl) as E1.
  pose proof (ParseSize_split neg ip fp "" "b" 1 N eq_refl eq_refl) as E2.
  cbn [append] in E0, E1, E2. rewrite append_nil_r in E0.
  now rewrite E0, E1, E2.
Qed.

Lemma parse_size_bytes_suffix_optional_witness :
  is_number "512" None /\
  ParseSize (signed_number false "512" None ++ "B")
  = ParseSize (signed_number false "512" None)
  /\ ParseSize (signed_number false "512" None ++ "b")
  = ParseSize (signed_number false "512" None).
Proof.
  assert (N : is_number "512" None).
  { repeat split. discriminate. }
  split; [exact N|]. exact (parse_size_bytes_suffix_optional false "512" None N).
Defined.

(** ** The digits that [%d] prints *)

Lemma uint_all_digits d : all_digits (NilEmpty.string_of_uint d) = true.
Proof.
  induction d; cbn [NilEmpty.string_of_uint all_digits]; try rewrite IHd;
    reflexivity.
Qed.

Ltac digit_step :=
  cbn [NilEmpty.string_of_uint digits_value Pos.of_uint_acc Pos.of_uint];
  match goal with
  | |- context [Strconv.digit_val ?c] =>
      let v := eval vm_compute in (Strconv.digit_val c) in
      change (Strconv.digit_val c) with v
  end.

Lemma uint_value_pos d acc :
  0 < acc ->
  digits_value acc (NilEmpty.string_of_uint d)
  = Z.pos (Pos.of_uint_acc d (Z.to_pos acc)).
Proof.
  revert acc. induction d; intros acc Ha;
    try (digit_step; rewrite IHd by lia; do 2 f_equal;
         apply Pos2Z.inj; rewrite Z2Pos.id by lia;
         rewrite ?Pos2Z.inj_add, Pos2Z.inj_mul, Z2Pos.id by lia; lia).
  cbn. now rewrite Z2Pos.id.
Qed.

Lemma uint_value d :
  digits_value 0 (NilEmpty.string_of_uint d) = Z.of_N (Pos.of_uint d).
Proof.
  induction d; try (digit_step; cbn [Z.mul Z.add]; first
    [ exact IHd | now rewrite uint_value_pos by lia ]).
  reflexivity.
Qed.

(** [%d] of a count that is not negative: digits, at least one, whose
    value is the count. *)
Lemma Fmt_d_nonneg z :
  0 <= z ->
  all_digits (Fmt.d z) = true /\ Fmt.d z <> "" /\ decimal_value (Fmt.d z) = z.
Proof.
  intros Hz. destruct z as [|p|p]; [repeat split; discriminate| |lia].
  unfold Fmt.d, Z.to_int, NilZero.string_of_int, NilZero.string_of_uint.
  pose proof (Unsigned.to_uint_nonnil p) as NN.
  pose proof (Unsigned.of_to p) as OT.
  destruct (Pos.to_uint p) as [|u|u|u|u|u|u|u|u|u|u] eqn:E;
    [contradiction|..];
    (split; [apply uint_all_digits|]; split; [discriminate|];
     unfold decimal_value; rewrite uint_value, OT; reflexivity).
Qed.

Lemma Fmt_digit k :
  0 <= k <= 9 ->
  all_digits (Fmt.digit k) = true /\ decimal_value (Fmt.digit k) = k /\
  len (Fmt.digit k) = 1.
Proof.
  intros H.
  assert (C : k = 0 \/ k = 1 \/ k = 2 \/ k = 3 \/ k = 4 \/ k = 5 \/ k = 6 \/
              k = 7 \/ k = 8 \/ k = 9) by lia.
  repeat (destruct C as [->|C]; [repeat split|]). subst k. repeat split.
Qed.

(** ** What [ParseSize] reads in a printed size *)

(** The truncation of [round q d * 2^j], when [q * 2^j / d] is at least
    an eighth away from the next integer. *)
Lemma trunc_round_pow2 q d j T m e :
  0 <= q -> 0 < d -> 0 <= j <= 40 -> 0 <= T < 2 ^ 49 ->
  T * d <= q * 2 ^ j ->
  8 * (q * 2 ^ j) <= (8 * T + 7) * d ->
  round q d = Fin m e ->
  trunc (m * 2 ^ j) e = T.
Proof.
  intros Hq Hd Hj HT Lo Hi R.
  assert (Pj : 0 < 2 ^ j) by (apply Z.pow_pos_nonneg; lia).
  pose proof huge_gt_64 as Hh.
  assert (P49 : 2 ^ 49 * 8 < 2 ^ 53) by (vm_compute; reflexivity).
  assert (P64 : 2 ^ 53 < 2 ^ 64) by (vm_compute; reflexivity).
  assert (Uj : forall i, 0 <= i -> up (- i) = 1).
  { intros i Hi'. unfold up. rewrite Z.max_r by lia. reflexivity. }
  assert (Dj : forall i, 0 <= i -> down (- i) = 2 ^ i).
  { intros i Hi'. unfold down. rewrite Z.max_l by lia. f_equal. lia. }
  pose proof (up_pos e). pose proof (down_pos e).
  assert (E3 : 2 ^ (j + 3) = 8 * 2 ^ j).
  { rewrite Z.pow_add_r by lia. change (2 ^ 3) with 8. ring. }
  apply trunc_exact; [lia| |].
  - pose proof (round_ge q d T (- j) m e Hq Hd ltac:(lia)
                  ltac:(unfold emin; lia)) as G.
    rewrite (Uj j), (Dj j) in G by lia.
    specialize (G ltac:(lia) R). lia.
  - destruct (round_le q d (8 * T + 7) (- (j + 3))) as (m' & e' & R' & _ & L);
      try lia; try (unfold emin; lia);
      rewrite ?(Uj (j + 3)), ?(Dj (j + 3)), ?E3 by lia; try nia.
    rewrite R in R'. injection R' as <- <-.
    rewrite (Uj (j + 3)), (Dj (j + 3)), E3 in L by lia.
    nia.
Qed.

Lemma digits_value_shift s acc :
  digits_value acc s = acc * 10 ^ len s + digits_value 0 s.
Proof.
  revert acc. induction s as [|c s IH]; intros acc.
  - cbn. lia.
  - cbn [digits_value]. rewrite IH, (IH (0 * 10 + Strconv.digit_val c)).
    unfold len. cbn [String.length]. rewrite Nat2Z.inj_succ, Z.pow_succ_r by lia.
    ring.
Qed.

(** [ParseSize] on a number [q/d], white space and a unit [2^j], when the
    product is at least an eighth below the next integer. *)
Lemma ParseSize_trunc ip fp ws u j T :
  is_number ip fp -> all_space ws = true ->
  unit_of_suffix (ToUpper u) = Some (2 ^ j) -> 0 <= j <= 40 ->
  0 <= T < 2 ^ 49 ->
  T * 10 ^ len (fraction fp) <= decimal_value (ip ++ fraction fp) * 2 ^ j ->
  8 * (decimal_value (ip ++ fraction fp) * 2 ^ j)
  <= (8 * T + 7) * 10 ^ len (fraction fp) ->
  ParseSize (signed_number false ip fp ++ ws ++ u) = Ok (Val T).
Proof.
  intros N Hw Hu Hj HT Lo Hi.
  pose proof (number_value_nonneg ip fp N) as V.
  pose proof (pow10_pos (fraction fp)) as D.
  set (q := decimal_value (ip ++ fraction fp)) in *.
  set (d := 10 ^ len (fraction fp)) in *.
  assert (Pj : 0 < 2 ^ j) by (apply Z.pow_pos_nonneg; lia).
  assert (P49 : 2 ^ 49 * 8 < 2 ^ 53) by (vm_compute; reflexivity).
  assert (P64 : 2 ^ 53 < 2 ^ 64) by (vm_compute; reflexivity).
  pose proof huge_gt_64 as Hh.
  assert (F : exists m e, round q d = Fin m e).
  { destruct (round_le q d (8 * T + 7) 0) as (m & e & R & _ & _);
      try lia; try (unfold emin; lia);
      change (up 0) with 1; change (down 0) with 1; try nia.
    now exists m, e. }
  destruct F as (m & e & R).
  pose proof (round_representable q d m e V D R) as (Hm & He).
  pose proof (trunc_round_pow2 q d j T m e V D Hj HT Lo Hi R) as Tr.
  rewrite (ParseSize_split false ip fp ws u (2 ^ j) N Hw Hu).
  unfold signed_number. cbn [append].
  pose proof (ParseFloat_number false ip fp N) as PF. cbn [append] in PF.
  rewrite PF. unfold nearest_float64. fold q d. rewrite R.
  cbn [ltb0]. replace (m <? 0) with false by (symmetry; apply Z.ltb_ge; lia).
  rewrite to_uint64_mul_pow2; try lia; now rewrite Tr.
Qed.

Lemma rne_near a d : 0 < d -> 2 * Z.abs (rne a d * d - a) <= d.
Proof.
  intros Hd. unfold rne.
  pose proof (Z.div_mod a d ltac:(lia)) as E.
  pose proof (Z.mod_pos_bound a d Hd) as B.
  destruct (Z.ltb_spec (2 * (a mod d)) d); [lia|].
  destruct (Z.ltb_spec d (2 * (a mod d))); [lia|].
  destruct (Z.even (a / d)); lia.
Qed.

Lemma rne_multiple k d : 0 < d -> rne (k * d) d = k.
Proof.
  intros Hd. unfold rne. rewrite Z.div_mul, Z.mod_mul by lia.
  now replace (2 * 0 <? d) with true by (symmetry; apply Z.ltb_lt; lia).
Qed.

(** The text [HumanSize] prints with one decimal, read back. *)
Lemma ParseSize_fixed1 n j u :
  1 <= j <= 30 -> 2 ^ j <= n < 1024 * 2 ^ j ->
  unit_of_suffix u = Some (2 ^ j) -> ToUpper u = u ->
  let r := rne (n * 10) (2 ^ j) * 2 ^ j / 10 in
  ParseSize (fixed 1 (size_in n (2 ^ j)) ++ " " ++ u) = Ok (Val r) /\
  20 * (r - n) <= 2 ^ j /\ 20 * (n - r) < 2 ^ j + 20 /\
  (n mod 2 ^ j = 0 -> r = n).
Proof.
  intros Hj Hn Hu Uu r.
  assert (Pj : 0 < 2 ^ j) by (apply Z.pow_pos_nonneg; lia).
  assert (Ej : 2 ^ j = 2 * 2 ^ (j - 1)).
  { rewrite <- Z.pow_succ_r by lia. f_equal. lia. }
  assert (Bj : 2 ^ j <= 2 ^ 30) by (apply Z.pow_le_mono_r; lia).
  change (2 ^ 30) with 1073741824 in Bj.
  assert (Hb : 0 <= n < 2 ^ 64).
  { change (2 ^ 64) with 18446744073709551616. lia. }
  destruct (fixed_size n j 1 Hb ltac:(lia)) as (q & Q & F).
  change (10 ^ Z.of_nat 1) with 10 in *.
  specialize (Q ltac:(change (2 ^ 53) with 9007199254740992; lia)).
  subst q. set (q := rne (n * 10) (2 ^ j)) in *.
  assert (Q10 : 10 <= q) by (apply rne_ge; lia).
  assert (Q1 : q <= 10240) by (apply rne_le; lia).
  pose proof (Z.div_mod q 10 ltac:(lia)) as DM.
  pose proof (Z.mod_pos_bound q 10 ltac:(lia)) as MB.
  assert (P : 0 <= q / 10) by (apply Z.div_pos; lia).
  destruct (Fmt_d_nonneg (q / 10) P) as (A1 & A2 & A3).
  destruct (Fmt_digit (q mod 10) ltac:(lia)) as (B1 & B2 & B3).
  cbn [Fmt.digits append] in F.
  assert (N : is_number (Fmt.d (q / 10)) (Some (Fmt.digit (q mod 10))))
    by (repeat split; assumption).
  assert (V : decimal_value (Fmt.d (q / 10) ++ Fmt.digit (q mod 10)) = q).
  { unfold decimal_value in *.
    rewrite digits_value_app, digits_value_shift, A3, B2, B3.
    change (10 ^ 1) with 10. lia. }
  pose proof (Z.div_mod (q * 2 ^ j) 10 ltac:(lia)) as DT.
  pose proof (Z.mod_pos_bound (q * 2 ^ j) 10 ltac:(lia)) as MT.
  assert (HT : 0 <= r) by (apply Z.div_pos; nia).
  assert (HT' : r < 2 ^ 49).
  { apply Z.div_lt_upper_bound; [lia|].
    change (2 ^ 49) with 562949953421312. nia. }
  split; [|split; [|split]].
  - rewrite F.
    replace ((Fmt.d (q / 10) ++ "." ++ Fmt.digit (q mod 10)) ++ " " ++ u)
      with (signed_number false (Fmt.d (q / 10))
              (Some (Fmt.digit (q mod 10))) ++ " " ++ u) by reflexivity.
    apply (ParseSize_trunc _ _ " " u j r N eq_refl); cbn [fraction];
      rewrite ?Uu, ?V, ?B3; change (10 ^ 1) with 10; try lia; try assumption.
  - pose proof (rne_near (n * 10) (2 ^ j) Pj) as NR. fold q in NR. unfold r. lia.
  - pose proof (rne_near (n * 10) (2 ^ j) Pj) as NR. fold q in NR. unfold r. lia.
  - intros M. apply Z.mod_divide in M; [|lia]. destruct M as (a & ->).
    unfold r, q.
    replace (a * 2 ^ j * 10) with ((a * 10) * 2 ^ j) by ring.
    rewrite rne_multiple by lia.
    replace (a * 10 * 2 ^ j) with (a * 2 ^ j * 10) by ring.
    now rewrite Z.div_mul by lia.
Qed.

(** ** HumanSize and ParseSize together *)

Lemma HumanSize_band n j name :
  In (j, name) [(10, "KB"); (20, "MB"); (30, "GB")] ->
  2 ^ j <= n < 1024 * 2 ^ j ->
  HumanSize n = fixed 1 (size_in n (2 ^ j)) ++ " " ++ name.
Proof.
  intros I B. unfold HumanSize.
  change TB with 1099511627776. change GB with 1073741824.
  change MB with 1048576. change KB with 1024.
  destruct I as [E|[E|[E|[]]]]; injection E as <- <-;
    [change (2 ^ 10) with 1024 in *|change (2 ^ 20) with 1048576 in *
    |change (2 ^ 30) with 1073741824 in *];
    repeat match goal with
      | |- context [?a <=? n] =>
          first [ replace (a <=? n) with false by (symmetry; apply Z.leb_gt; lia)
                | replace (a <=? n) with true by (symmetry; apply Z.leb_le; lia) ]
      end; reflexivity.
Qed.

Lemma unit_exponent unit :
  In unit [KB; MB; GB] ->
  exists j name, In (j, name) [(10, "KB"); (20, "MB"); (30, "GB")] /\
                 unit = 2 ^ j /\ 1 <= j <= 30 /\
                 unit_of_suffix name = Some (2 ^ j) /\ ToUpper name = name.
Proof.
  intros [<-|[<-|[<-|[]]]].
  - exists 10, "KB". cbn. repeat split; auto; lia.
  - exists 20, "MB". cbn. repeat split; auto; lia.
  - exists 30, "GB". cbn. repeat split; auto; lia.
Qed.

(** X7: [ParseSize] reads back what [HumanSize] prints, below one
    terabyte.  A count below 1024 comes back unchanged.  In the KB, MB and
    GB bands the result is [q * unit / 10] truncated, where [q] is the
    number of tenths that was printed; it is at most a twentieth of the
    unit above the count and less than a twentieth of the unit plus one
    below it, and it is the count itself when the count is a whole number
    of units. *)
Theorem parse_size_of_human_size n :
  0 <= n < TB ->
  (n < KB -> ParseSize (HumanSize n) = Ok (Val n)) /\
  (forall unit, In unit [KB; MB; GB] -> unit <= n < 1024 * unit ->
     let r := rne (n * 10) unit * unit / 10 in
     ParseSize (HumanSize n) = Ok (Val r) /\
     20 * (r - n) <= unit /\ 20 * (n - r) < unit + 20 /\
     (n mod unit = 0 -> r = n)).
Proof.
  intros Hn. split.
  - intros S. unfold HumanSize.
    change TB with 1099511627776 in *. change GB with 1073741824.
    change MB with 1048576. change KB with 1024 in *.
    repeat match goal with
      | |- context [?a <=? n] =>
          replace (a <=? n) with false by (symmetry; apply Z.leb_gt; lia)
      end.
    destruct (Fmt_d_nonneg n ltac:(lia)) as (A1 & A2 & A3).
    assert (N : is_number (Fmt.d n) None) by (repeat split; assumption).
    replace (Fmt.d n ++ " B")
      with (signed_number false (Fmt.d n) None ++ " " ++ "B") by reflexivity.
    apply (ParseSize_trunc _ _ " " "B" 0 n N eq_refl eq_refl); cbn [fraction];
      rewrite ?append_nil_r, ?A3; change (10 ^ len "") with 1;
      change (2 ^ 0) with 1; change (2 ^ 49) with 562949953421312; lia.
  - intros unit I B.
    destruct (unit_exponent unit I) as (j & name & Ij & -> & Hj & Hu & Uu).
    rewrite (HumanSize_band n j name Ij B).
    exact (ParseSize_fixed1 n j name Hj B Hu Uu).
Qed.

Lemma parse_size_of_human_size_witness :
  0 <= 1536 < TB /\ ParseSize (HumanSize 1536) = Ok (Val 1536).
Proof.
  assert (H : 0 <= 1536 < TB) by (vm_compute; split; [discriminate|reflexivity]).
  split; [exact H|].
  destruct (parse_size_of_human_size 1536 H) as (_ & P).
  destruct (P KB) as (E & _).
  - left. reflexivity.
  - vm_compute. split; [discriminate|reflexivity].
  - exact E.
Defined.

(** X8: in the KB, MB and GB bands [HumanSize] prints a number from 1.0
    to 1024.0 with one decimal digit.  It prints 1024.0 of the band's unit,
    rather than 1.0 of the next unit, exactly for the counts that are
    within a twentieth of the unit below the next unit: 1048575 bytes are
    ["1024.0 KB"]. *)
Theorem human_size_mantissa_range n unit name :
  In (unit, name) [(KB, "KB"); (MB, "MB"); (GB, "GB")] ->
  unit <= n < 1024 * unit ->
  exists i t,
    HumanSize n = Fmt.d i ++ "." ++ Fmt.digit t ++ " " ++ name /\
    1 <= i <= 1024 /\ 0 <= t <= 9 /\
    (i = 1024 <-> 20 * (1024 * unit - n) <= unit) /\
    (i = 1024 -> t = 0).
Proof.
  intros I B.
  assert (J : exists j, In (j, name) [(10, "KB"); (20, "MB"); (30, "GB")] /\
                        unit = 2 ^ j /\ 1 <= j <= 30).
  { destruct I as [E|[E|[E|[]]]]; injection E as <- <-.
    - exists 10. cbn. repeat split; auto; lia.
    - exists 20. cbn. repeat split; auto; lia.
    - exists 30. cbn. repeat split; auto; lia. }
  destruct J as (j & Ij & -> & Hj).
  assert (Pj : 0 < 2 ^ j) by (apply Z.pow_pos_nonneg; lia).
  assert (Bj : 2 ^ j <= 2 ^ 30) by (apply Z.pow_le_mono_r; lia).
  change (2 ^ 30) with 1073741824 in Bj.
  rewrite (HumanSize_band n j name Ij B).
  destruct (fixed_size n j 1) as (q & Q & F);
    [change (2 ^ 64) with 18446744073709551616; lia|lia|].
  change (10 ^ Z.of_nat 1) with 10 in *.
  specialize (Q ltac:(change (2 ^ 53) with 9007199254740992; lia)).
  cbn [Fmt.digits append] in F.
  assert (Q10 : 10 <= q) by (subst q; apply rne_ge; lia).
  assert (Q1 : q <= 10240) by (subst q; apply rne_le; lia).
  pose proof (Z.div_mod q 10 ltac:(lia)) as DM.
  pose proof (Z.mod_pos_bound q 10 ltac:(lia)) as MB.
  exists (q / 10), (q mod 10). split; [|split; [|split; [|split]]].
  - rewrite F, !append_assoc. reflexivity.
  - lia.
  - lia.
  - split.
    + intros E.
      pose proof (rne_near (n * 10) (2 ^ j) Pj) as NR. rewrite <- Q in NR. nia.
    + intros L.
      assert (10240 <= q); [|lia].
      subst q.
      destruct (Z.eq_dec (20 * (1024 * 2 ^ j - n)) (2 ^ j)) as [T|NT].
      * (* the tie: 10239 and a half rounds to the even 10240 *)
        unfold rne.
        assert (Dv : n * 10 / 2 ^ j = 10239 /\ 2 * (n * 10 mod 2 ^ j) = 2 ^ j).
        { assert (M : n * 10 mod 2 ^ j = n * 10 - 10239 * 2 ^ j).
          { symmetry. apply Z.mod_unique with (q := 10239); lia. }
          split; [|lia].
          symmetry. apply Z.div_unique with (r := n * 10 - 10239 * 2 ^ j); lia. }
        destruct Dv as (D1 & D2). rewrite D1.
        replace (2 * (n * 10 mod 2 ^ j) <? 2 ^ j) with false
          by (symmetry; apply Z.ltb_ge; lia).
        replace (2 ^ j <? 2 * (n * 10 mod 2 ^ j)) with false
          by (symmetry; apply Z.ltb_ge; lia).
        cbn. lia.
      * pose proof (rne_near (n * 10) (2 ^ j) Pj) as NR.
        assert (10239 <= rne (n * 10) (2 ^ j)) by (apply rne_ge; lia).
        nia.
  - lia.
Qed.

Lemma human_size_mantissa_range_witness :
  In (KB, "KB") [(KB, "KB"); (MB, "MB"); (GB, "GB")] /\
  KB <= 1048575 < 1024 * KB /\
  exists i t,
    HumanSize 1048575 = Fmt.d i ++ "." ++ Fmt.digit t ++ " " ++ "KB" /\
    1 <= i <= 1024 /\ 0 <= t <= 9 /\
    (i = 1024 <-> 20 * (1024 * KB - 1048575) <= KB) /\
    (i = 1024 -> t = 0).
Proof.
  assert (I : In (KB, "KB") [(KB, "KB"); (MB, "MB"); (GB, "GB")])
    by (left; reflexivity).
  assert (B : KB <= 1048575 < 1024 * KB)
    by (vm_compute; split; [discriminate|reflexivity]).
  split; [exact I|]. split; [exact B|].
  exact (human_size_mantissa_range 1048575 KB "KB" I B).
Defined.

(** ** Stages *)

Lemma wrap_small z : - 2 ^ 63 <= z < 2 ^ 63 -> GoInt.wrap z = z.
Proof.
  intros H. unfold GoInt.wrap.
  change (2 ^ 63) with 9223372036854775808 in *.
  change (2 ^ 64) with 18446744073709551616.
  rewrite Z.mod_small by lia. lia.
Qed.

Lemma stages_after_snoc cs c sp :
  stages_after (cs ++ [c])%list sp = stage_after (stages_after cs sp) c.
Proof. unfold stages_after. now rewrite fold_left_app. Qed.

Lemma stages_after_counts cs sp :
  0 <= current sp -> current sp + Z.of_nat (List.length cs) < 2 ^ 63 ->
  current (stages_after cs sp) = current sp + Z.of_nat (List.length cs) /\
  total (stages_after cs sp) = total sp.
Proof.
  intros P. induction cs as [|c cs IH] using rev_ind;
    [cbn; split; [lia|reflexivity]|].
  rewrite stages_after_snoc, List.length_app, Nat2Z.inj_add. cbn [List.length].
  intros B. destruct IH as (C & T); [lia|].
  destruct c; cbn; rewrite C, T; (split; [|reflexivity]);
    rewrite wrap_small; lia.
Qed.

(** X9: a [StageProgress] counts calls and nothing else.  After any
    sequence of [Next] and [Skip] calls on [NewStageProgress n], short
    enough for one more call to stay within [int] (fewer than [2^63 - 1]
    calls; the counter of the code wraps around beyond), the current stage
    is the number of calls and the total is still [n]; [IsComplete] holds
    exactly when at least [n] calls were made, so also when more were; the
    spinner of a further [Next] has the prefix ["[k/n] "] with [k] one
    more than the number of calls and the suffix [" " ++ name], and a
    further [Skip] writes the line ["  o [k/n] name (skipped)"] with the
    same [k], its circle dimmed according to the color flag of the moment.
    The total is no bound: the prefix shows [k] above [n] as it is. *)
Theorem stage_progress_counts n cs :
  Z.of_nat (List.length cs) + 1 < 2 ^ 63 ->
  let sp := stages_after cs (NewStageProgress n) in
  current sp = Z.of_nat (List.length cs) /\
  total sp = n /\
  (IsComplete sp = true <-> n <= Z.of_nat (List.length cs)) /\
  (forall tty name w,
     Prefix (snd (Next tty name sp w))
     = "[" ++ Fmt.d (Z.of_nat (List.length cs) + 1) ++ "/" ++ Fmt.d n ++ "] " /\
     Suffix (snd (Next tty name sp w)) = " " ++ name) /\
  (forall name w,
     last_text (snd (Skip name sp w))
     = ([Plain "  "] ++ wrap w [Faint] "○"
        ++ [Plain (" [" ++ Fmt.d (Z.of_nat (List.length cs) + 1) ++ "/"
                   ++ Fmt.d n ++ "] " ++ name ++ " (skipped)" ++ nl)])%list).
Proof.
  intros B sp.
  destruct (stages_after_counts cs (NewStageProgress n)) as (C & T);
    [cbn; lia|cbn; lia|].
  fold sp in C, T. cbn in C, T.
  assert (W : GoInt.wrap (Z.of_nat (List.length cs) + 1)
              = Z.of_nat (List.length cs) + 1) by (apply wrap_small; lia).
  split; [exact C|]. split; [exact T|]. split; [|split].
  - unfold IsComplete. rewrite C, T. apply Z.leb_le.
  - intros tty name w. cbn. unfold stage_prefix. cbn. rewrite C, T, W.
    split; reflexivity.
  - intros name w. unfold Skip. cbn [snd]. rewrite last_text_write.
    unfold stage_prefix. cbn [current total]. rewrite C, T, W.
    now rewrite !append_assoc.
Qed.

Lemma stage_progress_counts_witness :
  Z.of_nat (List.length [CallNext true "Downloading" {| NoColor := false; out := [] |};
                         CallSkip "Extracting" {| NoColor := false; out := [] |}]) + 1
  < 2 ^ 63 /\
  IsComplete
    (stages_after [CallNext true "Downloading" {| NoColor := false; out := [] |};
                   CallSkip "Extracting" {| NoColor := false; out := [] |}]
       (NewStageProgress 3)) = false /\
  Prefix
    (snd (Next true "Installing"
            (stages_after [CallNext true "Downloading" {| NoColor := false; out := [] |};
                           CallSkip "Extracting" {| NoColor := false; out := [] |}]
               (NewStageProgress 3))
            {| NoColor := false; out := [] |}))
  = "[3/3] ".
Proof.
  set (w := {| NoColor := false; out := [] |}).
  set (cs := [CallNext true "Downloading" w; CallSkip "Extracting" w]).
  assert (H : Z.of_nat (List.length cs) + 1 < 2 ^ 63) by (vm_compute; reflexivity).
  split; [exact H|].
  destruct (stage_progress_counts 3 cs H) as (_ & _ & I & P & _).
  split.
  - destruct (IsComplete (stages_after cs (NewStageProgress 3))) eqn:E;
      [|reflexivity].
    destruct I as [I _]. specialize (I eq_refl). vm_compute in I.
    exfalso. apply I. reflexivity.
  - destruct (P true "Installing" w) as (E & _). exact E.
Defined.

(** ** strings.Repeat in the layout *)

Lemma Repeat_returns s count :
  0 <= count -> len s * count <= GoInt.maxInt ->
  Repeat s count = Some (replicate s (Z.to_nat count)).
Proof.
  intros P B. unfold Repeat.
  destruct (Z.eqb_spec count 0) as [->|N0]; [reflexivity|].
  destruct (Z.eqb_spec count 1) as [->|N1].
  { change (Z.to_nat 1) with 1%nat. cbn [replicate]. now rewrite append_nil_r. }
  replace (count <? 0) with false by (symmetry; apply Z.ltb_ge; lia).
  now replace (GoInt.maxInt <? len s * count) with false
    by (symmetry; apply Z.ltb_ge; lia).
Qed.

Lemma Repeat_panics s count :
  count < 0 \/ (1 < count /\ GoInt.maxInt < len s * count) ->
  Repeat s count = None.
Proof.
  intros H. unfold Repeat.
  destruct (Z.eqb_spec count 0) as [->|N0]; [lia|].
  destruct (Z.eqb_spec count 1) as [->|N1]; [lia|].
  destruct (Z.ltb_spec count 0) as [L|G]; [reflexivity|].
  now replace (GoInt.maxInt <? len s * count) with true
    by (symmetry; apply Z.ltb_lt; lia).
Qed.

Lemma rune_count_le s : (Utf8.rune_count s <= String.length s)%nat.
Proof.
  induction s as [|c s IH]; cbn; [lia|].
  destruct (Utf8.is_continuation c); lia.
Qed.

Lemma rune_count_box n : Utf8.rune_count (replicate "─" n) = n.
Proof.
  induction n as [|n IH]; [reflexivity|].
  change (replicate "─" (S n)) with ("─" ++ replicate "─" n).
  cbn [append Utf8.rune_count].
  change (Utf8.is_continuation "226") with false.
  change (Utf8.is_continuation "148") with true.
  change (Utf8.is_continuation "128") with true.
  now rewrite IH.
Qed.

Lemma length_replicate s n :
  String.length (replicate s n) = (n * String.length s)%nat.
Proof.
  induction n as [|n IH]; [reflexivity|].
  cbn [replicate]. rewrite length_append, IH. lia.
Qed.

(** X10: [Header] writes a blank line, the title, and an underline made
    of the box character, one for every byte of the title, not for every
    character (for a title whose bytes, taken three times, fit an [int]:
    [strings.Repeat] panics otherwise).  The underline is as wide as the
    title when the title is 7-bit text, never narrower, and wider as soon
    as the title has a character of several bytes. *)
Theorem header_underline_counts_bytes title w :
  3 * len title <= GoInt.maxInt ->
  let line := replicate "─" (String.length title) in
  Layout.Header title w
  = Layout.Returned
      (Layout.Println Layout.dividerStyle line
         (Layout.Println Layout.headerStyle title (Layout.Blank w))) /\
  last_text (world_of (Layout.Header title w))
  = (wrap w Layout.dividerStyle line ++ Layout.newline)%list /\
  Utf8.rune_count line = String.length title /\
  (Utf8.rune_count title <= Utf8.rune_count line)%nat /\
  (is_ascii title = true -> Utf8.rune_count line = Utf8.rune_count title) /\
  (Utf8.rune_count title < String.length title ->
   Utf8.rune_count title < Utf8.rune_count line)%nat.
Proof.
  intros B line.
  assert (H : Layout.Header title w
              = Layout.Returned
                  (Layout.Println Layout.dividerStyle line
                     (Layout.Println Layout.headerStyle title (Layout.Blank w)))).
  { unfold Layout.Header.
    rewrite (Repeat_returns "─" (len title)).
    - unfold len. now rewrite Nat2Z.id.
    - unfold len. lia.
    - change (len "─") with 3. exact B. }
  split; [exact H|]. rewrite H. unfold line. rewrite rune_count_box.
  split; [|split; [|split; [|split]]].
  - cbn [world_of]. unfold Layout.Println. now rewrite last_text_write.
  - reflexivity.
  - apply rune_count_le.
  - intros A. now rewrite rune_count_ascii.
  - auto.
Qed.

(** A title of one character in two bytes gets two box characters. *)
Lemma header_underline_counts_bytes_witness :
  3 * len "é" <= GoInt.maxInt /\
  last_text (world_of (Layout.Header "é" {| NoColor := true; out := [] |}))
  = ([Plain "──"] ++ Layout.newline)%list /\
  Utf8.rune_count "é" = 1%nat /\ Utf8.rune_count "──" = 2%nat.
Proof.
  assert (B : 3 * len "é" <= GoInt.maxInt) by (vm_compute; discriminate).
  split; [exact B|].
  destruct (header_underline_counts_bytes "é" {| NoColor := true; out := [] |} B)
    as (_ & E & _).
  split; [exact E|]. split; reflexivity.
Defined.

(** X11: [Divider] prints exactly [width] box characters (three bytes
    each), styled according to the color flag of the moment, and [Indent]
    prints [2 * level] spaces, unstyled, before the message, when the
    count is not negative and the length of the repeated text fits an
    [int]; otherwise [strings.Repeat] panics and nothing is written. *)
Theorem divider_and_indent_widths width level msg w :
  (0 <= width -> 3 * width <= GoInt.maxInt ->
   Layout.Divider width w
   = Layout.Returned
       (Layout.Println Layout.dividerStyle (replicate "─" (Z.to_nat width)) w) /\
   Z.of_nat (Utf8.rune_count (replicate "─" (Z.to_nat width))) = width) /\
  (width < 0 \/ GoInt.maxInt < 3 * width ->
   Layout.Divider width w = Layout.Panicked w) /\
  (0 <= level -> 2 * level <= GoInt.maxInt ->
   Layout.Indent level msg w
   = Layout.Returned
       (write Stdout
          (Text ([Plain (replicate "  " (Z.to_nat level)); Plain msg]
                 ++ Layout.newline)%list) w) /\
   len (replicate "  " (Z.to_nat level)) = 2 * level) /\
  (level < 0 \/ GoInt.maxInt < 2 * level ->
   Layout.Indent level msg w = Layout.Panicked w).
Proof.
  assert (M : GoInt.maxInt = 9223372036854775807) by reflexivity.
  split; [|split; [|split]].
  - intros P B. unfold Layout.Divider.
    rewrite (Repeat_returns "─" width P) by (change (len "─") with 3; exact B).
    split; [reflexivity|]. rewrite rune_count_box. lia.
  - intros H. unfold Layout.Divider.
    rewrite (Repeat_panics "─" width); [reflexivity|].
    change (len "─") with 3. lia.
  - intros P B. unfold Layout.Indent.
    rewrite (Repeat_returns "  " level P) by (change (len "  ") with 2; exact B).
    split; [reflexivity|].
    unfold len. rewrite length_replicate. cbn [String.length]. lia.
  - intros H. unfold Layout.Indent.
    rewrite (Repeat_panics "  " level); [reflexivity|].
    change (len "  ") with 2. lia.
Qed.

Lemma divider_and_indent_widths_witness :
  (0 <= 40 /\ 3 * 40 <= GoInt.maxInt /\
   Z.of_nat (Utf8.rune_count (replicate "─" (Z.to_nat 40))) = 40) /\
  Layout.Divider (-1) {| NoColor := true; out := [] |}
  = Layout.Panicked {| NoColor := true; out := [] |} /\
  (0 <= 2 /\ 2 * 2 <= GoInt.maxInt /\
   Layout.Indent 2 "Second level" {| NoColor := true; out := [] |}
   = Layout.Returned
       (write Stdout (Text ([Plain "    "; Plain "Second level"]
                            ++ Layout.newline)%list)
          {| NoColor := true; out := [] |})).
Proof.
  destruct (divider_and_indent_widths 40 2 "Second level"
              {| NoColor := true; out := [] |}) as (D & _ & I & _).
  destruct (divider_and_indent_widths (-1) 2 "Second level"
              {| NoColor := true; out := [] |}) as (_ & P & _).
  assert (B1 : 3 * 40 <= GoInt.maxInt) by (vm_compute; discriminate).
  assert (B2 : 2 * 2 <= GoInt.maxInt) by (vm_compute; discriminate).
  split; [|split].
  - split; [lia|]. split; [exact B1|]. exact (proj2 (D ltac:(lia) B1)).
  - apply P. left. lia.
  - split; [lia|]. split; [exact B2|]. exact (proj1 (I ltac:(lia) B2)).
Defined.

(** ** The numbers HumanDuration prints *)

(** X12: on a duration that is not negative, [HumanDuration] prints one
    of its four forms with every number inside its range: milliseconds
    from 0 to 999; seconds from 1 to 59 with a tenth from 0 to 9; minutes
    from 1 to 59 with seconds from 0 to 59; hours from 1 (to 2562047, the
    most an [int64] of nanoseconds holds) with minutes from 0 to 59.  It
    never prints [1000ms], [60.0s], [60m 0s] or [.. 60m]. *)
Theorem human_duration_components d :
  0 <= d < 2 ^ 63 ->
  exists a b,
    (HumanDuration d = Some (Fmt.d a ++ "ms") /\ 0 <= a <= 999) \/
    (HumanDuration d = Some (Fmt.d a ++ "." ++ Fmt.d b ++ "s") /\
     1 <= a <= 59 /\ 0 <= b <= 9) \/
    (HumanDuration d = Some (Fmt.d a ++ "m " ++ Fmt.d b ++ "s") /\
     1 <= a <= 59 /\ 0 <= b <= 59) \/
    (HumanDuration d = Some (Fmt.d a ++ "h " ++ Fmt.d b ++ "m") /\
     1 <= a <= 2562047 /\ 0 <= b <= 59).
Proof.
  intros Hd.
  change (2 ^ 63) with 9223372036854775808 in Hd.
  destruct (whole_seconds d) as (secs & C & B & T & _);
    [change (2 ^ 63) with 9223372036854775808; lia|].
  specialize (B ltac:(lia)). specialize (T ltac:(lia)).
  change (2 ^ 22) with 4194304 in T.
  rewrite (HumanDuration_eq d secs C).
  set (s := d / 1000000000) in *.
  assert (Hs : 0 <= s) by (apply Z.div_pos; lia).
  assert (Hs' : s < 9223372037) by (apply Z.div_lt_upper_bound; lia).
  pose proof (Z.div_mod d 1000000000 ltac:(lia)) as DM. fold s in DM.
  pose proof (Z.mod_pos_bound d 1000000000 ltac:(lia)) as MB.
  unfold render_duration.
  destruct (Z.eqb_spec secs 0) as [E0|N0].
  - exists (Duration.Milliseconds d), 0. left. split; [reflexivity|].
    unfold Duration.Milliseconds. rewrite Z.quot_div_nonneg by lia.
    assert (s = 0) by lia.
    split; [apply Z.div_pos; lia|].
    assert (d / 1000000 < 1000) by (apply Z.div_lt_upper_bound; lia). lia.
  - destruct (Z.ltb_spec secs 60) as [L1|G1].
    + exists secs, (Z.quot (Z.rem (Duration.Milliseconds d) 1000) 100).
      right. left. split; [reflexivity|]. split; [lia|].
      rewrite tenths_of_millis by lia.
      split; [apply Z.div_pos; lia|].
      assert (d mod 1000000000 / 100000000 < 10)
        by (apply Z.div_lt_upper_bound; lia).
      lia.
    + destruct (Z.ltb_spec secs 3600) as [L2|G2].
      * exists (Z.quot secs 60), (Z.rem secs 60).
        right. right. left. split; [reflexivity|].
        rewrite Z.quot_div_nonneg, Z.rem_mod_nonneg by lia.
        pose proof (Z.div_mod secs 60 ltac:(lia)).
        pose proof (Z.mod_pos_bound secs 60 ltac:(lia)). lia.
      * exists (Z.quot secs 3600), (Z.quot (Z.rem secs 3600) 60).
        right. right. right. split; [reflexivity|].
        rewrite (Z.rem_mod_nonneg secs) by lia.
        pose proof (Z.mod_pos_bound secs 3600 ltac:(lia)).
        rewrite !Z.quot_div_nonneg by lia.
        pose proof (Z.div_mod secs 3600 ltac:(lia)).
        pose proof (Z.div_mod (secs mod 3600) 60 ltac:(lia)).
        pose proof (Z.mod_pos_bound (secs mod 3600) 60 ltac:(lia)). lia.
Qed.

Lemma human_duration_components_witness :
  0 <= 3599999999999 < 2 ^ 63 /\
  exists a b,
    (HumanDuration 3599999999999 = Some (Fmt.d a ++ "ms") /\ 0 <= a <= 999) \/
    (HumanDuration 3599999999999 = Some (Fmt.d a ++ "." ++ Fmt.d b ++ "s") /\
     1 <= a <= 59 /\ 0 <= b <= 9) \/
    (HumanDuration 3599999999999 = Some (Fmt.d a ++ "m " ++ Fmt.d b ++ "s") /\
     1 <= a <= 59 /\ 0 <= b <= 59) \/
    (HumanDuration 3599999999999 = Some (Fmt.d a ++ "h " ++ Fmt.d b ++ "m") /\
     1 <= a <= 2562047 /\ 0 <= b <= 59).
Proof.
  assert (H : 0 <= 3599999999999 < 2 ^ 63)
    by (vm_compute; split; [discriminate|reflexivity]).
  split; [exact H|]. exact (human_duration_components 3599999999999 H).
Defined.

(** ** Sizes that do not fit 64 bits *)

(** A product of [2^64] or more is outside [uint64], whatever [mul]
    rounds it to. *)
Lemma to_uint64_mul_large m e j :
  0 <= m -> 0 <= j <= 40 ->
  2 ^ 64 * down e <= m * up e * 2 ^ j ->
  to_uint64 (mul (Fin m e) (of_Z (2 ^ j))) = ImplementationDependent.
Proof.
  intros Hm Hj L.
  assert (Pj : 0 < 2 ^ j) by (apply Z.pow_pos_nonneg; lia).
  assert (Pj' : 2 ^ j < 2 ^ 53) by (apply Z.pow_lt_mono_r; lia).
  assert (P64 : 0 < 2 ^ 64) by (apply Z.pow_pos_nonneg; lia).
  destruct (of_Z_exact (2 ^ j)) as (mk & ek & Rk & Pk & Ek); [lia|].
  pose proof (up_pos e). pose proof (down_pos e).
  pose proof (up_pos ek). pose proof (down_pos ek).
  rewrite Rk. unfold mul, num, den.
  set (a := m * up e * (mk * up ek)). set (d := down e * down ek).
  assert (Hd : 0 < d) by (unfold d; nia).
  assert (Ea : a = m * up e * 2 ^ j * down ek) by (unfold a; rewrite Ek; ring).
  assert (Ha : 0 <= a) by (rewrite Ea; nia).
  destruct (round a d) as [|s|m' e'] eqn:R; try reflexivity.
  pose proof (round_ge a d 1 64 m' e' Ha Hd ltac:(change (2 ^ 53) with 9007199254740992; lia)
                ltac:(unfold emin; lia)) as G.
  change (up 64) with (2 ^ 64) in G. change (down 64) with 1 in G.
  assert (G' : 1 * 2 ^ 64 * down e' <= m' * up e' * 1).
  { apply G; [|exact R]. rewrite Ea. unfold d. nia. }
  pose proof (up_pos e'). pose proof (down_pos e').
  unfold to_uint64, to_int, trunc.
  rewrite Z.quot_div_nonneg by nia.
  assert (2 ^ 64 <= m' * up e' / down e') by (apply Z.div_le_lower_bound; lia).
  replace (m' * up e' / down e' <? 2 ^ 64) with false
    by (symmetry; apply Z.ltb_ge; lia).
  now rewrite andb_false_r.
Qed.

(** X13: [ParseSize] does not detect a size that does not fit 64 bits.
    When the number times the multiplier is [2^64] or more (and the number
    is within float64), no error is returned; the byte count is the
    conversion of an out-of-range float64 to [uint64], whose value Go
    leaves to the implementation: so for ["16777216tb"]. *)
Theorem parse_size_overflow_undetected ip fp u k :
  is_number ip fp ->
  unit_of_suffix (ToUpper u) = Some k ->
  2 ^ 64 * 10 ^ len (fraction fp) <= decimal_value (ip ++ fraction fp) * k ->
  decimal_value (ip ++ fraction fp) <= max_float64 * 10 ^ len (fraction fp) ->
  ParseSize (number_text ip fp ++ u) = Ok ImplementationDependent.
Proof.
  intros N Hu Big Fit.
  destruct (unit_is_pow2 _ _ Hu) as (j & Hj & ->).
  assert (Pj : 0 < 2 ^ j) by (apply Z.pow_pos_nonneg; lia).
  pose proof (number_value_nonneg ip fp N) as V.
  pose proof (pow10_pos (fraction fp)) as D.
  destruct (nearest_finite ip fp N Fit) as (m & e & R & Hm).
  pose proof (ParseSize_number false ip fp u (2 ^ j) N Hu) as E.
  cbv zeta in E. cbn [append] in E. rewrite E, R. cbn [ltb0].
  replace (m <? 0) with false by (symmetry; apply Z.ltb_ge; lia).
  f_equal. apply to_uint64_mul_large; [exact Hm|exact Hj|].
  unfold nearest_float64 in R.
  set (q := decimal_value (ip ++ fraction fp)) in *.
  set (d := 10 ^ len (fraction fp)) in *.
  assert (S : 2 ^ 64 = 2 ^ (64 - j) * 2 ^ j).
  { rewrite <- Z.pow_add_r by lia. f_equal. lia. }
  assert (P : 0 < 2 ^ (64 - j)) by (apply Z.pow_pos_nonneg; lia).
  assert (U : up (64 - j) = 2 ^ (64 - j)).
  { unfold up. rewrite Z.max_l by lia. reflexivity. }
  assert (Dn : down (64 - j) = 1).
  { unfold down. rewrite Z.max_r by lia. reflexivity. }
  pose proof (round_ge q d 1 (64 - j) m e V D
                ltac:(change (2 ^ 53) with 9007199254740992; lia)
                ltac:(unfold emin; lia)) as G.
  rewrite U, Dn in G.
  assert (G' : 1 * 2 ^ (64 - j) * down e <= m * up e * 1).
  { apply G; [|exact R]. rewrite S in Big. nia. }
  rewrite S. pose proof (down_pos e). nia.
Qed.

Lemma parse_size_overflow_undetected_witness :
  is_number "16777216" None /\
  unit_of_suffix (ToUpper "tb") = Some TB /\
  2 ^ 64 * 10 ^ len (fraction None) <= decimal_value ("16777216" ++ fraction None) * TB /\
  decimal_value ("16777216" ++ fraction None) <= max_float64 * 10 ^ len (fraction None) /\
  ParseSize (number_text "16777216" None ++ "tb") = Ok ImplementationDependent.
Proof.
  assert (N : is_number "16777216" None) by (repeat split; discriminate).
  assert (B : 2 ^ 64 * 10 ^ len (fraction None)
              <= decimal_value ("16777216" ++ fraction None) * TB)
    by (vm_compute; discriminate).
  assert (F : decimal_value ("16777216" ++ fraction None)
              <= max_float64 * 10 ^ len (fraction None))
    by (vm_compute; discriminate).
  split; [exact N|]. split; [reflexivity|]. split; [exact B|]. split; [exact F|].
  exact (parse_size_overflow_undetected "16777216" None "tb" TB N eq_refl B F).
Defined.

(** ** The parts of a size string *)













(** ** What ParseFloat refuses *)
















(** ** The failures of ParseSize *)









(** ** Where float64 overflows *)









